(** * smailink: the front-end script [app-new.js], embedded and verified

    The script is browser glue code: every function reads the document,
    mutates nodes, registers listeners or arms timers.  The embedding keeps
    that shape.  The document is a store of nodes addressed by reference
    (closures of the script capture references, so identity matters), the
    script's functions are written in a state-and-exception monad over that
    store, closures handed to [addEventListener] and [setTimeout] are
    first-order values that an interpreter runs later, and the host (event
    loop, clock, event dispatch) is a small step semantics. *)

From Stdlib Require Import ZArith QArith Qround Lia Ascii String.
From stdpp Require Import base gmap strings list.

Open Scope Z_scope.
Open Scope string_scope.

(** ** The document store *)

(** An element.  The class attribute is kept as its list of tokens (the
    script assigns [className] and never reads it back).  [textContent]
    is the text the element carries itself, which comes before its child
    elements; what the [textContent] property of the DOM reads back, the
    text of the descendants included, is [textOf] below.  [scrollHeight],
    [offsetHeight] and [pageTop] (the distance from the top of the page)
    are produced by layout: the script only reads them. *)
Record node := Node {
  tagName : string;
  elementId : string;
  classList : list string;
  attributes : gmap string string;
  style : gmap string string;
  textContent : string;
  parentNode : option nat;
  childNodes : list nat;
  scrollHeight : Z;
  offsetHeight : Z;
  pageTop : Q
}.

Definition with_classList (c : list string) (n : node) : node :=
  Node (tagName n) (elementId n) c (attributes n) (style n) (textContent n)
       (parentNode n) (childNodes n) (scrollHeight n) (offsetHeight n) (pageTop n).
Definition with_elementId (i : string) (n : node) : node :=
  Node (tagName n) i (classList n) (attributes n) (style n) (textContent n)
       (parentNode n) (childNodes n) (scrollHeight n) (offsetHeight n) (pageTop n).
Definition with_attributes (a : gmap string string) (n : node) : node :=
  Node (tagName n) (elementId n) (classList n) a (style n) (textContent n)
       (parentNode n) (childNodes n) (scrollHeight n) (offsetHeight n) (pageTop n).
Definition with_style (s : gmap string string) (n : node) : node :=
  Node (tagName n) (elementId n) (classList n) (attributes n) s (textContent n)
       (parentNode n) (childNodes n) (scrollHeight n) (offsetHeight n) (pageTop n).
Definition with_textContent (t : string) (n : node) : node :=
  Node (tagName n) (elementId n) (classList n) (attributes n) (style n) t
       (parentNode n) (childNodes n) (scrollHeight n) (offsetHeight n) (pageTop n).
Definition with_parentNode (p : option nat) (n : node) : node :=
  Node (tagName n) (elementId n) (classList n) (attributes n) (style n)
       (textContent n) p (childNodes n) (scrollHeight n) (offsetHeight n) (pageTop n).
Definition with_childNodes (c : list nat) (n : node) : node :=
  Node (tagName n) (elementId n) (classList n) (attributes n) (style n)
       (textContent n) (parentNode n) c (scrollHeight n) (offsetHeight n) (pageTop n).

(** [document.createElement(tag)]: tag names read back in upper case. *)
Definition blank (tag : string) : node :=
  Node tag "" [] ∅ ∅ "" None [] 0 0 0%Q.

(** [el.className = s] sets the tokens of [s]. *)
Definition with_className (s : string) (n : node) : node :=
  with_classList (String.words s) n.

Definition has_class (c : string) (n : node) : bool :=
  bool_decide (c ∈ classList n).

(** The attribute as it reads back. *)
Fixpoint unwords (l : list string) : string :=
  match l with
  | [] => ""
  | [c] => c
  | c :: l' => c ++ " " ++ unwords l'
  end.

Definition className (n : node) : string := unwords (classList n).

Definition classList_add (c : string) (n : node) : node :=
  if has_class c n then n
  else with_classList (classList n ++ [c]) n.

Definition classList_remove (c : string) (n : node) : node :=
  with_classList
    (List.filter (λ x, negb (bool_decide (x = c))) (classList n)) n.

Definition classList_toggle (c : string) (n : node) : node :=
  if has_class c n then classList_remove c n else classList_add c n.

(** ** Closures

    The functions the script passes to [setTimeout] and [addEventListener],
    one constructor per function expression, carrying what the closure
    captures. *)
Inductive callback :=
| SweepToasts                 (* initToastSystem: the five-second sweep *)
| RemoveToast (toast : nat)   (* animateToastOut: removal after 300ms *)
| ExpireToast (toast : nat)   (* showToast: automatic dismissal *)
| RevealModal (modal : nat)   (* openPortfolioModal: fade in after 10ms *)
| RemoveModal (modal : nat)   (* closeModal: removal after 300ms *)
| ReleaseButton (button : nat). (* animateButtonClick: back to scale(1) *)

Inductive listener :=
| OnStaticToastClose          (* initToastSystem: this.closest('.toast') *)
| OnAnchorClick               (* initSmoothScroll *)
| OnScroll (header : option nat) (* initHeaderScroll *)
| OnMenuToggle                (* toggleMobileMenu *)
| OnNavLink                   (* closeMobileMenu *)
| OnToastClose (toast : nat)  (* showToast *)
| OnModalClose (modal : nat)  (* openPortfolioModal: the close button *)
| OnModalBackdrop (modal : nat) (* openPortfolioModal: the overlay *)
| OnContact                   (* initProfileContactButtons *)
| OnContactDisabled           (* initProfileContactButtons *)
| OnBioToggle (bioContent : nat) (* initBioSection *)
| OnCardEnter                 (* initEmployeeCards *)
| OnCardLeave
| OnCardClick
| OnGridContact.              (* initGridContactButtons *)

Global Instance callback_eq_dec : EqDecision callback.
Proof. solve_decision. Defined.
Global Instance listener_eq_dec : EqDecision listener.
Proof. solve_decision. Defined.

(** Listeners are registered on elements and on [window]. *)
Inductive eventTarget :=
| Window
| Element (r : nat).

Global Instance eventTarget_eq_dec : EqDecision eventTarget.
Proof. solve_decision. Defined.

Inductive exn :=
| TypeError (what : string).

(** An address of the browser.  [Here] is the address the page was loaded
    from.  [Resolved reference] is the address the browser's URL parser
    gives [reference] on this page: what the [href] property of a link
    whose attribute is [reference] reads back, and where an assignment of
    that value, or of [reference] itself, to [window.location.href]
    leads. *)
Inductive url :=
| Here
| Resolved (reference : string).

(** ** The page as the script sees it *)
Record world := World {
  heap : gmap nat node;          (* every node ever created *)
  nextRef : nat;                 (* the next fresh reference *)
  body : nat;                    (* document.body, root of the tree *)
  listeners : list (eventTarget * string * listener); (* in registration order *)
  timers : list (Z * callback);  (* pending timers: due time, callback *)
  clock : Z;                     (* milliseconds *)
  scrollY : Q;                   (* window.scrollY *)
  lastScrollY : Q;               (* the variable initHeaderScroll closes over *)
  scrollRequests : list Q;       (* window.scrollTo({top, smooth}) calls *)
  location : url;                (* where window.location.href was last sent *)
  console : list string;         (* console.log *)
  propagationStopped : bool;     (* of the event being dispatched *)
  defaultPrevented : bool;
  uncaught : list exn            (* errors thrown out of a listener or timer *)
}.

Definition with_heap (h : gmap nat node) (w : world) : world :=
  World h (nextRef w) (body w) (listeners w) (timers w) (clock w) (scrollY w)
        (lastScrollY w) (scrollRequests w) (location w) (console w)
        (propagationStopped w) (defaultPrevented w) (uncaught w).
Definition with_nextRef (r : nat) (w : world) : world :=
  World (heap w) r (body w) (listeners w) (timers w) (clock w) (scrollY w)
        (lastScrollY w) (scrollRequests w) (location w) (console w)
        (propagationStopped w) (defaultPrevented w) (uncaught w).
Definition with_listeners (l : list (eventTarget * string * listener))
    (w : world) : world :=
  World (heap w) (nextRef w) (body w) l (timers w) (clock w) (scrollY w)
        (lastScrollY w) (scrollRequests w) (location w) (console w)
        (propagationStopped w) (defaultPrevented w) (uncaught w).
Definition with_timers (t : list (Z * callback)) (w : world) : world :=
  World (heap w) (nextRef w) (body w) (listeners w) t (clock w) (scrollY w)
        (lastScrollY w) (scrollRequests w) (location w) (console w)
        (propagationStopped w) (defaultPrevented w) (uncaught w).
Definition with_clock (c : Z) (w : world) : world :=
  World (heap w) (nextRef w) (body w) (listeners w) (timers w) c (scrollY w)
        (lastScrollY w) (scrollRequests w) (location w) (console w)
        (propagationStopped w) (defaultPrevented w) (uncaught w).
Definition with_scrollY (y : Q) (w : world) : world :=
  World (heap w) (nextRef w) (body w) (listeners w) (timers w) (clock w) y
        (lastScrollY w) (scrollRequests w) (location w) (console w)
        (propagationStopped w) (defaultPrevented w) (uncaught w).
Definition with_lastScrollY (y : Q) (w : world) : world :=
  World (heap w) (nextRef w) (body w) (listeners w) (timers w) (clock w)
        (scrollY w) y (scrollRequests w) (location w) (console w)
        (propagationStopped w) (defaultPrevented w) (uncaught w).
Definition with_scrollRequests (l : list Q) (w : world) : world :=
  World (heap w) (nextRef w) (body w) (listeners w) (timers w) (clock w)
        (scrollY w) (lastScrollY w) l (location w) (console w)
        (propagationStopped w) (defaultPrevented w) (uncaught w).
Definition with_location (u : url) (w : world) : world :=
  World (heap w) (nextRef w) (body w) (listeners w) (timers w) (clock w)
        (scrollY w) (lastScrollY w) (scrollRequests w) u (console w)
        (propagationStopped w) (defaultPrevented w) (uncaught w).
Definition with_console (l : list string) (w : world) : world :=
  World (heap w) (nextRef w) (body w) (listeners w) (timers w) (clock w)
        (scrollY w) (lastScrollY w) (scrollRequests w) (location w) l
        (propagationStopped w) (defaultPrevented w) (uncaught w).
Definition with_propagationStopped (b : bool) (w : world) : world :=
  World (heap w) (nextRef w) (body w) (listeners w) (timers w) (clock w)
        (scrollY w) (lastScrollY w) (scrollRequests w) (location w) (console w)
        b (defaultPrevented w) (uncaught w).
Definition with_defaultPrevented (b : bool) (w : world) : world :=
  World (heap w) (nextRef w) (body w) (listeners w) (timers w) (clock w)
        (scrollY w) (lastScrollY w) (scrollRequests w) (location w) (console w)
        (propagationStopped w) b (uncaught w).
Definition with_uncaught (l : list exn) (w : world) : world :=
  World (heap w) (nextRef w) (body w) (listeners w) (timers w) (clock w)
        (scrollY w) (lastScrollY w) (scrollRequests w) (location w) (console w)
        (propagationStopped w) (defaultPrevented w) l.

(** ** The script monad

    A statement of the script transforms the page and either completes with
    a value or throws.  A throw keeps the mutations made before it, as in
    JavaScript. *)
Definition M (A : Type) : Type := world → world * (exn + A).

Global Instance M_ret : MRet M := λ A a w, (w, inr a).
Global Instance M_bind : MBind M := λ A B k m w,
  match m w with
  | (w', inr a) => k a w'
  | (w', inl e) => (w', inl e)
  end.

Definition throw {A} (e : exn) : M A := λ w, (w, inl e).
Definition gets {A} (f : world → A) : M A := λ w, (w, inr (f w)).
Definition update (f : world → world) : M unit := λ w, (f w, inr tt).

(** The state a computation leaves, whether it threw or not. *)
Definition exec {A} (m : M A) (w : world) : world := fst (m w).
Definition outcome {A} (m : M A) (w : world) : exn + A := snd (m w).
Definition throws {A} (m : M A) (w : world) : Prop :=
  ∃ e, outcome m w = inl e.

(** [forEach] over a static node list. *)
Fixpoint forEach {A} (l : list A) (f : A → M unit) : M unit :=
  match l with
  | [] => mret tt
  | x :: l' => f x;; forEach l' f
  end.

(** Property access on a value that may be [null]. *)
Definition nonNull (what : string) (o : option nat) : M nat :=
  match o with
  | Some r => mret r
  | None => throw (TypeError what)
  end.

(** Reading and writing a node through a reference. *)
Definition read {A} (r : nat) (f : node → A) : M A :=
  o ← gets (λ w, heap w !! r);
  match o with
  | Some n => mret (f n)
  | None => throw (TypeError "dangling reference")
  end.

Definition write (r : nat) (f : node → node) : M unit :=
  o ← gets (λ w, heap w !! r);
  match o with
  | Some n => update (λ w, with_heap (<[r := f n]> (heap w)) w)
  | None => throw (TypeError "dangling reference")
  end.

Definition createElement (tag : string) : M nat :=
  r ← gets nextRef;
  update (λ w, with_nextRef (S r) (with_heap (<[r := blank tag]> (heap w)) w));;
  mret r.

(** [child.remove()]: unlink from the parent, if there is one. *)
Definition remove (child : nat) : M unit :=
  p ← read child parentNode;
  match p with
  | None => mret tt
  | Some parent =>
      write parent (λ n, with_childNodes
        (List.filter (λ c, negb (Nat.eqb c child)) (childNodes n)) n);;
      write child (with_parentNode None)
  end.

(** [parent.appendChild(child)]: a node has one parent, so it is unlinked
    first; it becomes the last child. *)
Definition appendChild (parent child : nat) : M unit :=
  remove child;;
  write parent (λ n, with_childNodes (childNodes n ++ [child]) n);;
  write child (with_parentNode (Some parent)).

(** [el.innerHTML = ''] drops every child. *)
Definition clearChildren (r : nat) : M unit :=
  kids ← read r childNodes;
  forEach kids (λ c, write c (with_parentNode None));;
  write r (with_childNodes []).

Definition setStyle (r : nat) (prop val : string) : M unit :=
  write r (λ n, with_style (<[prop := val]> (style n)) n).

Definition getStyle (r : nat) (prop : string) : M string :=
  read r (λ n, default "" (style n !! prop)).

Definition setTimeout (cb : callback) (delay : Z) : M unit :=
  update (λ w, with_timers (timers w ++ [(clock w + delay, cb)]) w).

Definition addEventListener (t : eventTarget) (type : string) (l : listener)
    : M unit :=
  update (λ w, with_listeners (listeners w ++ [(t, type, l)]) w).

(** ** Selectors and tree walks *)

(** The selectors the script uses: [.c], [#i], a tag name, and
    [a[href^="#"]]. *)
Inductive selector :=
| Class (c : string)
| Id (i : string)
| Tag (t : string)
| HashLink.

Definition starts_with_hash (s : string) : bool :=
  match s with
  | String c _ => bool_decide (c = "#"%char)
  | EmptyString => false
  end.

Definition matches (sel : selector) (n : node) : bool :=
  match sel with
  | Class c => has_class c n
  | Id i => bool_decide (elementId n = i)
  | Tag t => bool_decide (tagName n = t)
  | HashLink =>
      bool_decide (tagName n = "A") &&
      match attributes n !! "href" with
      | Some h => starts_with_hash h
      | None => false
      end
  end.

(** Descendants in document order.  The recursion follows child links, so
    it is bounded; callers pass [nextRef], the number of nodes ever created,
    which no tree in the store exceeds in depth. *)
Fixpoint descendants (fuel : nat) (h : gmap nat node) (r : nat) : list nat :=
  match fuel with
  | O => []
  | S f =>
      match h !! r with
      | None => []
      | Some n => flat_map (λ c, c :: descendants f h c) (childNodes n)
      end
  end.

(** A node and its ancestors, innermost first: the path of a bubbling
    event, and the candidates of [closest].  References are handed out in
    creation order and a node is only ever appended to one created before
    it, so the walk up from [r] takes at most [r] steps. *)
Fixpoint ancestorsWithin (fuel : nat) (h : gmap nat node) (r : nat) : list nat :=
  r :: match fuel with
       | O => []
       | S f =>
           match h !! r ≫= parentNode with
           | Some p => ancestorsWithin f h p
           | None => []
           end
       end.

Definition inclusiveAncestors (h : gmap nat node) (r : nat) : list nat :=
  ancestorsWithin r h r.

Definition selects (h : gmap nat node) (sel : selector) (r : nat) : bool :=
  match h !! r with
  | Some n => matches sel n
  | None => false
  end.

(** What the queries return on a page: [root.querySelectorAll(sel)],
    [root.querySelector(sel)], their [document] forms (which see the root
    element too) and [r.closest(sel)]. *)
Definition queryAllIn (w : world) (root : nat) (sel : selector) : list nat :=
  List.filter (selects (heap w) sel) (descendants (nextRef w) (heap w) root).

Definition queryIn (w : world) (root : nat) (sel : selector) : option nat :=
  head (queryAllIn w root sel).

Definition queryAll (w : world) (sel : selector) : list nat :=
  List.filter (selects (heap w) sel)
              (body w :: descendants (nextRef w) (heap w) (body w)).

Definition query (w : world) (sel : selector) : option nat :=
  head (queryAll w sel).

Definition closestTo (w : world) (r : nat) (sel : selector) : option nat :=
  head (List.filter (selects (heap w) sel) (inclusiveAncestors (heap w) r)).

Definition elementQuerySelectorAll (root : nat) (sel : selector) : M (list nat) :=
  gets (λ w, queryAllIn w root sel).

Definition elementQuerySelector (root : nat) (sel : selector) : M (option nat) :=
  gets (λ w, queryIn w root sel).

Definition querySelectorAll (sel : selector) : M (list nat) :=
  gets (λ w, queryAll w sel).

Definition querySelector (sel : selector) : M (option nat) :=
  gets (λ w, query w sel).

Definition getElementById (i : string) : M (option nat) := querySelector (Id i).

Definition closest (r : nat) (sel : selector) : M (option nat) :=
  gets (λ w, closestTo w r sel).

Definition getAttribute (r : nat) (name : string) : M (option string) :=
  read r (λ n, attributes n !! name).

(** [el.href].  On a link element the property reflects the attribute as
    a resolved address, the empty reference when the attribute is missing.
    Other elements have no such property: the read gives [undefined],
    which [window.location.href] takes as the reference "undefined". *)
Definition hasHref (tag : string) : bool :=
  bool_decide (tag ∈ ["A"; "AREA"; "LINK"; "BASE"]).

Definition href (n : node) : url :=
  if hasHref (tagName n) then Resolved (default "" (attributes n !! "href"))
  else Resolved "undefined".

(** A reference the URL parser cannot fail on: path, query and fragment
    characters only, and no host of its own. *)
Definition referenceChar (c : ascii) : bool :=
  let n := nat_of_ascii c in
  bool_decide (48 ≤ n ≤ 57 ∨ 65 ≤ n ≤ 90 ∨ 97 ≤ n ≤ 122)%nat ||
  bool_decide (c ∈ list_ascii_of_string "/.-_~?=&%#+,").

Definition localReference (s : string) : bool :=
  forallb referenceChar (list_ascii_of_string s) &&
  negb (String.prefix "//" s).

(** [el.textContent] read back: the text of the element and of its
    descendants, in document order. *)
Fixpoint textWithin (fuel : nat) (h : gmap nat node) (r : nat) : string :=
  match h !! r with
  | None => ""
  | Some n =>
      textContent n ++
      match fuel with
      | O => ""
      | S f => foldr (λ c s, textWithin f h c ++ s) "" (childNodes n)
      end
  end.

Definition textOf (w : world) (r : nat) : string :=
  textWithin (nextRef w) (heap w) r.

Definition getTextContent (r : nat) : M string :=
  read r (λ _, tt);;
  gets (λ w, textOf w r).

(** [el.textContent = s], and [el.innerHTML = s] for a string without
    markup: the children go and the text is set. *)
Definition setTextContent (r : nat) (s : string) : M unit :=
  clearChildren r;;
  write r (with_textContent s).

(** Text that the HTML parser reads back as it is written, between tags
    and inside a quoted attribute value: no tag opener, no character
    reference, no double quote, and neither of the characters the parser's
    input stage replaces (NUL, carriage return). *)
Definition markupChar (c : ascii) : bool :=
  bool_decide (nat_of_ascii c ∈ [0; 13; 34; 38; 60]%nat).

Definition plainText (s : string) : bool :=
  forallb (λ c, negb (markupChar c)) (list_ascii_of_string s).

(** Markup assigned through [innerHTML].  The template literals of the
    script interpolate strings between fixed tags and inside quoted
    attribute values.  For strings that are [plainText] the parser reads
    the result back as the elements the literal spells out, with the
    strings as text and as attribute values; that tree is what [Markup]
    describes, and the results about [showToast] and [openPortfolioModal]
    are stated for plain strings.  The white space between the tags of a
    literal is left out. *)
Unset Elimination Schemes.
Inductive html :=
| Markup (tag class : string) (attrs : list (string * string)) (text : string)
         (kids : list html).
Set Elimination Schemes.

Fixpoint build (parent : nat) (e : html) : M unit :=
  match e with
  | Markup tag class attrs text kids =>
      r ← createElement tag;
      write r (λ n, with_textContent text
                      (with_attributes (list_to_map attrs)
                         (with_elementId
                            (default "" ((list_to_map attrs : gmap string string) !! "id"))
                            (with_className class n))));;
      appendChild parent r;;
      (fix buildAll (l : list html) : M unit :=
         match l with
         | [] => mret tt
         | k :: l' => build r k;; buildAll l'
         end) kids
  end.

Definition setInnerHTML (r : nat) (markup : list html) : M unit :=
  clearChildren r;;
  write r (with_textContent "");;
  forEach markup (build r).

Definition preventDefault : M unit := update (with_defaultPrevented true).
Definition stopPropagation : M unit := update (with_propagationStopped true).
Definition consoleLog (s : string) : M unit :=
  update (λ w, with_console (console w ++ [s]) w).

(** * The script *)

(** ** Toasts *)

Definition animateToastOut (toast : nat) : M unit :=
  setStyle toast "animation" "toastSlideOut 0.3s ease-in forwards";;
  setTimeout (RemoveToast toast) 300.

Definition initToastSystem : M unit :=
  toastContainer ← getElementById "toast-container";
  setTimeout SweepToasts 5000;;
  buttons ← querySelectorAll (Class "toast-close");
  forEach buttons (λ button,
    addEventListener (Element button) "click" OnStaticToastClose).

(** ** Navigation and scrolling *)

Definition closeMobileMenu : M unit :=
  b ← gets body;
  write b (classList_remove "nav-open").

Definition toggleMobileMenu : M unit :=
  b ← gets body;
  write b (classList_toggle "nav-open").

Definition initSmoothScroll : M unit :=
  links ← querySelectorAll HashLink;
  forEach links (λ link, addEventListener (Element link) "click" OnAnchorClick).

Definition scrollToElement (element : nat) : M unit :=
  header ← querySelector (Class "main-header");
  header ← nonNull "offsetHeight" header;
  headerHeight ← read header offsetHeight;
  top ← read element pageTop;
  y ← gets scrollY;
  let targetPosition := ((top - y) + y - inject_Z headerHeight)%Q in
  update (λ w, with_scrollRequests (scrollRequests w ++ [targetPosition]) w).

Definition initHeaderScroll : M unit :=
  header ← querySelector (Class "main-header");
  y ← gets scrollY;
  update (with_lastScrollY y);;
  addEventListener Window "scroll" (OnScroll header).

Definition initMobileMenu : M unit :=
  menuToggle ← querySelector (Class "menu-toggle");
  match menuToggle with
  | Some toggle =>
      addEventListener (Element toggle) "click" OnMenuToggle;;
      links ← querySelectorAll (Class "nav-link");
      forEach links (λ link, addEventListener (Element link) "click" OnNavLink)
  | None => mret tt
  end.

(** ** Helpers *)

Definition createToastContainer : M nat :=
  container ← createElement "DIV";
  write container (with_elementId "toast-container");;
  write container (with_className "toast-container");;
  b ← gets body;
  appendChild b container;;
  mret container.

(** [type] is [None] when the caller leaves the argument out.  The tree
    under the toast is the one the parser gives for a [plainText]
    message. *)
Definition showToast (message : string) (type : option string) : M unit :=
  let type := default "success" type in
  found ← getElementById "toast-container";
  toastContainer ← match found with
                   | Some c => mret c
                   | None => createToastContainer
                   end;
  toast ← createElement "DIV";
  write toast (with_className ("toast " ++ type));;
  setInnerHTML toast
    [ Markup "DIV" "toast-message" [] message [];
      Markup "BUTTON" "toast-close" [] "✕" [] ];;
  appendChild toastContainer toast;;
  closeButton ← elementQuerySelector toast (Class "toast-close");
  closeButton ← nonNull "addEventListener" closeButton;
  addEventListener (Element closeButton) "click" (OnToastClose toast);;
  setTimeout (ExpireToast toast) 5000.

(** ** Profile page *)

Definition createModal : M nat :=
  modal ← createElement "DIV";
  write modal (with_className "portfolio-modal");;
  write modal (with_style (list_to_map
    [ ("position", "fixed"); ("top", "0"); ("left", "0");
      ("width", "100%"); ("height", "100%");
      ("background", "rgba(0, 0, 0, 0.8)"); ("display", "flex");
      ("align-items", "center"); ("justify-content", "center");
      ("z-index", "1000"); ("opacity", "0");
      ("transition", "opacity 0.3s ease") ]));;
  mret modal.

(** The tree under the modal is the one the parser gives when the three
    strings are [plainText]. *)
Definition openPortfolioModal (imageSrc title description : string) : M unit :=
  modal ← createModal;
  setInnerHTML modal
    [ Markup "DIV" "modal-content" [] ""
        [ Markup "DIV" "modal-header" [] ""
            [ Markup "H3" "" [] title [];
              Markup "BUTTON" "modal-close" [] "×" [] ];
          Markup "DIV" "modal-body" [] ""
            (Markup "IMG" "" [("src", imageSrc); ("alt", title)] "" [] ::
             if bool_decide (description = "") then []
             else [ Markup "P" "" [] description [] ]) ] ];;
  b ← gets body;
  appendChild b modal;;
  setTimeout (RevealModal modal) 10;;
  closeButton ← elementQuerySelector modal (Class "modal-close");
  closeButton ← nonNull "addEventListener" closeButton;
  addEventListener (Element closeButton) "click" (OnModalClose modal);;
  addEventListener (Element modal) "click" (OnModalBackdrop modal).

Definition closeModal (modal : nat) : M unit :=
  setStyle modal "opacity" "0";;
  content ← elementQuerySelector modal (Class "modal-content");
  content ← nonNull "style" content;
  setStyle content "transform" "scale(0.9)";;
  setTimeout (RemoveModal modal) 300.

Definition animateButtonClick (button : nat) : M unit :=
  setStyle button "transform" "scale(0.95)";;
  setTimeout (ReleaseButton button) 150.

Definition initProfileContactButtons : M unit :=
  contactButton ← querySelector (Class "contact-button");
  disabledButton ← querySelector (Class "contact-disabled");
  match contactButton with
  | Some b => addEventListener (Element b) "click" OnContact
  | None => mret tt
  end;;
  match disabledButton with
  | Some b => addEventListener (Element b) "click" OnContactDisabled
  | None => mret tt
  end.

Definition label_more : string := "عرض المزيد".
Definition label_less : string := "عرض أقل".

Definition createBioToggleButton : M nat :=
  button ← createElement "BUTTON";
  setTextContent button label_more;;
  write button (with_className "bio-toggle");;
  write button (with_style (list_to_map
    [ ("background", "none"); ("border", "none");
      ("color", "var(--primary-600)"); ("cursor", "pointer");
      ("font-size", "0.875rem"); ("margin-top", "0.5rem");
      ("display", "inline-flex"); ("align-items", "center");
      ("gap", "0.25rem") ]));;
  inner ← read button textContent;
  setTextContent button (inner ++ " ↓");;
  mret button.

Definition initBioSection : M unit :=
  bioSection ← querySelector (Class "bio-section");
  match bioSection with
  | None => mret tt
  | Some bioSection =>
      bioContent ← elementQuerySelector bioSection (Class "bio-content");
      bioContent ← nonNull "scrollHeight" bioContent;
      height ← read bioContent scrollHeight;
      if bool_decide (120 < height) then
        setStyle bioContent "max-height" "120px";;
        setStyle bioContent "overflow" "hidden";;
        toggleButton ← createBioToggleButton;
        appendChild bioSection toggleButton;;
        addEventListener (Element toggleButton) "click" (OnBioToggle bioContent)
      else mret tt
  end.

Definition toggleBioContent (bioContent button : nat) : M unit :=
  maxHeight ← getStyle bioContent "max-height";
  if bool_decide (maxHeight = "120px") then
    setStyle bioContent "max-height" "none";;
    setTextContent button label_less;;
    setTextContent button (label_less ++ " ↑")
  else
    setStyle bioContent "max-height" "120px";;
    setTextContent button label_more;;
    setTextContent button (label_more ++ " ↓").

(** ** Grid page *)

Definition initEmployeeCards : M unit :=
  employeeCards ← querySelectorAll (Class "employee-card");
  forEach employeeCards (λ card,
    addEventListener (Element card) "mouseenter" OnCardEnter;;
    addEventListener (Element card) "mouseleave" OnCardLeave;;
    addEventListener (Element card) "click" OnCardClick).

(** A JavaScript number, as far as a comparison with an integer can tell:
    a finite double is a rational. *)
Inductive number :=
| NaN
| Finite (q : Q)
| PosInfinity
| NegInfinity.

Definition truthy (x : number) : bool :=
  match x with
  | NaN => false
  | Finite q => negb (Qeq_bool q 0)
  | PosInfinity | NegInfinity => true
  end.

(** [x || 0] *)
Definition or_zero (x : number) : number :=
  if truthy x then x else Finite 0.

(** [i <= x] for an integer loop counter [i] *)
Definition int_le (i : Z) (x : number) : bool :=
  match x with
  | NaN => false
  | Finite q => Qle_bool (inject_Z i) q
  | PosInfinity => true
  | NegInfinity => false
  end.

(** One turn of the loop [for (let i = 1; i <= 5; i++)]. *)
Definition appendStar (starsContainer : nat) (ratingValue : number) (i : Z)
    : M unit :=
  star ← createElement "SPAN";
  write star (with_className
    (if int_le i ratingValue then "rating-star filled" else "rating-star"));;
  setTextContent star "★";;
  appendChild starsContainer star.

(** The body of the [forEach] in [initRatingStars].  [parseFloat] is the
    host's. *)
Definition renderRating (parseFloat : string → number) (ratingElement : nat)
    : M unit :=
  value ← elementQuerySelector ratingElement (Class "rating-value");
  value ← nonNull "textContent" value;
  text ← getTextContent value;
  let ratingValue := or_zero (parseFloat text) in
  starsContainer ← elementQuerySelector ratingElement (Class "rating-stars");
  match starsContainer with
  | Some starsContainer =>
      setInnerHTML starsContainer [];;
      forEach [1; 2; 3; 4; 5] (appendStar starsContainer ratingValue)
  | None => mret tt
  end.

Definition initRatingStars (parseFloat : string → number) : M unit :=
  ratingElements ← querySelectorAll (Class "employee-rating");
  forEach ratingElements (renderRating parseFloat).

Definition initGridContactButtons : M unit :=
  contactButtons ← querySelectorAll (Class "btn-contact");
  forEach contactButtons (λ button,
    addEventListener (Element button) "click" OnGridContact).

(** * Running closures *)

(** The selector [document.querySelector(targetId)] parses from an anchor's
    [href].  For a [plainFragment], "#" followed by an identifier, it is
    the id selector of that identifier; the results about fragment links
    are stated for such links. *)
Definition hashSelector (targetId : string) : selector :=
  match targetId with
  | String _ name => Id name
  | EmptyString => Id ""
  end.

(** "#" and an identifier of ASCII letters, digits, "-" and "_" that
    starts with a letter or "_". *)
Definition identStart (c : ascii) : bool :=
  let n := nat_of_ascii c in
  bool_decide (65 ≤ n ≤ 90 ∨ 97 ≤ n ≤ 122 ∨ n = 95)%nat.

Definition identChar (c : ascii) : bool :=
  let n := nat_of_ascii c in
  identStart c || bool_decide (48 ≤ n ≤ 57 ∨ n = 45)%nat.

Definition plainFragment (targetId : string) : bool :=
  match targetId with
  | String "#" (String c rest) =>
      identStart c && forallb identChar (list_ascii_of_string rest)
  | _ => false
  end.

Definition Qgtb (a b : Q) : bool := negb (Qle_bool a b).

(** A timer callback. *)
Definition runCallback (cb : callback) : M unit :=
  match cb with
  | SweepToasts =>
      toasts ← querySelectorAll (Class "toast");
      forEach toasts animateToastOut
  | RemoveToast toast =>
      p ← read toast parentNode;
      if p is Some _ then remove toast else mret tt
  | ExpireToast toast =>
      p ← read toast parentNode;
      if p is Some _ then animateToastOut toast else mret tt
  | RevealModal modal =>
      setStyle modal "opacity" "1";;
      content ← elementQuerySelector modal (Class "modal-content");
      content ← nonNull "style" content;
      setStyle content "transform" "scale(1)"
  | RemoveModal modal =>
      p ← read modal parentNode;
      if p is Some _ then remove modal else mret tt
  | ReleaseButton button =>
      setStyle button "transform" "scale(1)"
  end.

(** An event listener, called with [this] (the element it is registered
    on) and the event's target. *)
Definition runListener (l : listener) (this target : nat) : M unit :=
  match l with
  | OnStaticToastClose =>
      toast ← closest this (Class "toast");
      toast ← nonNull "style" toast;
      animateToastOut toast
  | OnAnchorClick =>
      targetId ← getAttribute this "href";
      match targetId with
      | None => throw (TypeError "length")
      | Some targetId =>
          if bool_decide (1 < String.length targetId)%nat then
            found ← querySelector (hashSelector targetId);
            match found with
            | Some element =>
                preventDefault;;
                closeMobileMenu;;
                scrollToElement element
            | None => mret tt
            end
          else mret tt
      end
  | OnScroll header =>
      y ← gets scrollY;
      (if Qgtb y 10 then
         h ← nonNull "classList" header;
         write h (classList_add "header-scrolled")
       else
         h ← nonNull "classList" header;
         write h (classList_remove "header-scrolled"));;
      last ← gets lastScrollY;
      (if Qgtb y last && Qgtb y 100 then
         h ← nonNull "style" header;
         setStyle h "transform" "translateY(-100%)"
       else
         h ← nonNull "style" header;
         setStyle h "transform" "translateY(0)");;
      update (with_lastScrollY y)
  | OnMenuToggle => toggleMobileMenu
  | OnNavLink => closeMobileMenu
  | OnToastClose toast => animateToastOut toast
  | OnModalClose modal => closeModal modal
  | OnModalBackdrop modal =>
      if bool_decide (target = modal) then closeModal modal else mret tt
  | OnContact => animateButtonClick this
  | OnContactDisabled =>
      preventDefault;;
      showToast "التواصل عبر واتساب موقوف مؤقتًا حسب سياسة المنصة" (Some "info")
  | OnBioToggle bioContent => toggleBioContent bioContent this
  | OnCardEnter => setStyle this "transform" "translateY(-8px)"
  | OnCardLeave => setStyle this "transform" "translateY(0)"
  | OnCardClick =>
      link ← closest target (Tag "A");
      button ← closest target (Tag "BUTTON");
      if bool_decide (is_Some link ∨ is_Some button) then mret tt
      else
        profileLink ← elementQuerySelector this (Class "btn-view-profile");
        match profileLink with
        | Some profileLink =>
            url ← read profileLink href;
            update (with_location url)
        | None => mret tt
        end
  | OnGridContact =>
      stopPropagation;;
      animateButtonClick this;;
      consoleLog "فتح نافذة التواصل للتقني"
  end.

(** * The host *)

(** An exception that escapes a listener or a timer callback is reported;
    the host goes on with what the callback had done so far. *)
Definition hostCall (m : M unit) (w : world) : world :=
  match m w with
  | (w', inr _) => w'
  | (w', inl e) => with_uncaught (uncaught w' ++ [e]) w'
  end.

Definition listenersOn (w : world) (t : eventTarget) (type : string)
    : list listener :=
  omap (λ '(t', type', l),
          if bool_decide (t' = t ∧ type' = type) then Some l else None)
       (listeners w).

Fixpoint callListeners (ls : list listener) (this target : nat) (w : world)
    : world :=
  match ls with
  | [] => w
  | l :: ls' => callListeners ls' this target (hostCall (runListener l this target) w)
  end.

(** Bubbling: the listeners of the target run first, then those of each
    ancestor, until one of them has stopped the propagation. *)
Fixpoint bubble (type : string) (path : list nat) (target : nat) (w : world)
    : world :=
  match path with
  | [] => w
  | this :: path' =>
      let w' := callListeners (listenersOn w (Element this) type) this target w in
      if propagationStopped w' then w' else bubble type path' target w'
  end.

Definition dispatch (type : string) (target : nat) (w : world) : world :=
  bubble type (inclusiveAncestors (heap w) target) target
         (with_propagationStopped false (with_defaultPrevented false w)).

(** The user scrolls the window to offset [y]. *)
Definition scrollWindow (y : Q) (w : world) : world :=
  let w' := with_scrollY y w in
  callListeners (listenersOn w' Window "scroll") (body w') (body w') w'.

(** The timer the event loop runs next: the earliest due, the first
    registered among equals. *)
Definition minDue (l : list (Z * callback)) : option Z :=
  match l with
  | [] => None
  | (d, _) :: l' => Some (foldr (λ x m, Z.min x.1 m) d l')
  end.

Definition nextTimer (l : list (Z * callback)) : option (nat * (Z * callback)) :=
  d ← minDue l; list_find (λ x, x.1 = d) l.

(** A timer fires no earlier than its due time. *)
Definition fireNext (w : world) : world :=
  match nextTimer (timers w) with
  | Some (i, (due, cb)) =>
      if bool_decide (due ≤ clock w)%Z
      then hostCall (runCallback cb) (with_timers (delete i (timers w)) w)
      else w
  | None => w
  end.

(** What happens to a page: time passes, the next due timer fires, the
    user clicks an element or scrolls. *)
Inductive event :=
| Wait (ms : N)
| Fire
| Click (target : nat)
| Scroll (y : Q).

Definition step (w : world) (e : event) : world :=
  match e with
  | Wait ms => with_clock (clock w + Z.of_N ms) w
  | Fire => fireNext w
  | Click target => dispatch "click" target w
  | Scroll y => scrollWindow y w
  end.

Definition run (w : world) (es : list event) : world := foldl step w es.

(** ** Observations *)

Definition lookupNode (w : world) (r : nat) : option node := heap w !! r.

(** [r] is in the document: its parent chain reaches [document.body]. *)
Definition isConnected (w : world) (r : nat) : bool :=
  bool_decide (body w ∈ inclusiveAncestors (heap w) r).

(** The nodes matching [sel] that are in the document. *)
Definition connectedMatches (w : world) (sel : selector) : list nat :=
  List.filter (λ r, selects (heap w) sel r && isConnected w r)
              (seq 0 (nextRef w)).

(** ** Pages

    A server-rendered page: the parser builds the body's subtree in
    document order, so a parent is created before its children. *)
Definition emptyPage : world :=
  World {[ 0%nat := blank "BODY" ]} 1 0 [] [] 0 0 0 [] Here [] false false [].

Definition parsePage (markup : list html) : world :=
  exec (forEach markup (build 0)) emptyPage.

(** Layout measures an element. *)
Definition layOut (r : nat) (scrollH offsetH : Z) (top : Q) (w : world) : world :=
  exec (write r (λ n, Node (tagName n) (elementId n) (classList n)
                           (attributes n) (style n) (textContent n)
                           (parentNode n) (childNodes n) scrollH offsetH top)) w.

(** ** Well-formed pages

    Every page the script can run on is shaped as a tree in a store:
    references in use have been handed out, a node's parent was created
    before it, the children of a node exist, and [document.body] is a root.
    [parsePage] builds such pages and every function of the script keeps
    them so. *)
Definition callbackRefs (cb : callback) : list nat :=
  match cb with
  | SweepToasts => []
  | RemoveToast r | ExpireToast r | RevealModal r | RemoveModal r
  | ReleaseButton r => [r]
  end.

Definition listenerRefs (l : listener) : list nat :=
  match l with
  | OnScroll (Some r) | OnToastClose r | OnModalClose r | OnModalBackdrop r
  | OnBioToggle r => [r]
  | _ => []
  end.

Definition targetRefs (t : eventTarget) : list nat :=
  match t with
  | Window => []
  | Element r => [r]
  end.

Definition nodeOK (w : world) (r : nat) (n : node) : Prop :=
  (r < nextRef w)%nat ∧
  match parentNode n with Some p => (p < r)%nat | None => True end ∧
  Forall (λ c, is_Some (heap w !! c)) (childNodes n).

Definition wellFormed (w : world) : Prop :=
  map_Forall (nodeOK w) (heap w) ∧
  (heap w !! body w ≫= parentNode = None ∧ is_Some (heap w !! body w)) ∧
  Forall (λ t, Forall (λ r, (r < nextRef w)%nat) (callbackRefs t.2)) (timers w) ∧
  Forall (λ l, Forall (λ r, (r < nextRef w)%nat)
                      (targetRefs l.1.1 ++ listenerRefs l.2)) (listeners w).

Global Instance nodeOK_dec w r n : Decision (nodeOK w r n).
Proof. unfold nodeOK. destruct (parentNode n); apply _. Defined.

Global Instance wellFormed_dec w : Decision (wellFormed w).
Proof. unfold wellFormed. apply _. Defined.

Definition wellFormedb (w : world) : bool := bool_decide (wellFormed w).

(** Child lists and parent links agree: a node listed as a child names the
    lister as its parent.  [parsePage] builds such pages. *)
Definition linked (w : world) : Prop :=
  map_Forall (λ r n, Forall (λ c, heap w !! c ≫= parentNode = Some r)
                            (childNodes n)) (heap w).

Global Instance linked_dec w : Decision (linked w).
Proof. unfold linked. apply _. Defined.

Definition linkedb (w : world) : bool := bool_decide (linked w).

(** The node [build] makes for one element of a markup literal, once it
    hangs under [parent] with children [kids]. *)
Definition markupNode (tag class : string) (attrs : list (string * string))
    (text : string) (parent : nat) (kids : list nat) : node :=
  Node tag (default "" ((list_to_map attrs : gmap string string) !! "id"))
       (String.words class) (list_to_map attrs) ∅ text (Some parent) kids 0 0 0%Q.

(** No listener for [type] sits on [r] or on an ancestor of [r]. *)
Definition quietFrom (w : world) (r : nat) (type : string) : bool :=
  forallb (λ a, bool_decide (listenersOn w (Element a) type = []))
          (inclusiveAncestors (heap w) r).

(** The biography block as the visitor sees it: the height cap of the
    content and the label of the control. *)
Definition bioState (w : world) (content button : nat) : option (string * string) :=
  nc ← heap w !! content;
  nb ← heap w !! button;
  Some (default "" (style nc !! "max-height"), textContent nb).

(** Parents are older than their children. *)
Definition ordered (h : gmap nat node) : Prop :=
  ∀ x n p, h !! x = Some n → parentNode n = Some p → (p < x)%nat.

(** What matters of a page while the biography control is being clicked:
    [w] is the page before [initBioSection] ran, so [nextRef w] is the
    control it created. *)
Definition bioInv (w : world) (section content : nat) (collapsed : bool)
    (w' : world) : Prop :=
  listeners w' = (listeners w ++
                  [(Element (nextRef w), "click", OnBioToggle content)])%list ∧
  (∀ x, heap w' !! x ≫= parentNode =
        if decide (x = nextRef w) then Some section
        else heap w !! x ≫= parentNode) ∧
  (∃ nc, heap w' !! content = Some nc ∧
         style nc !! "max-height" = Some (if collapsed then "120px" else "none")) ∧
  (∃ nb, heap w' !! nextRef w = Some nb ∧ childNodes nb = [] ∧
         textContent nb = if collapsed then "عرض المزيد ↓" else "عرض أقل ↑").

(** ** Sample pages *)

(** Profile pages whose biography is 300 and 120 units tall. *)
Definition bioPage : world :=
  layOut 2 300 120 0
    (parsePage [ Markup "DIV" "bio-section" [] ""
                   [ Markup "DIV" "bio-content" [] "long text" [] ] ]).

Definition shortBioPage : world :=
  layOut 2 120 120 0
    (parsePage [ Markup "DIV" "bio-section" [] ""
                   [ Markup "DIV" "bio-content" [] "short text" [] ] ]).

(** The header as the visitor sees it: whether it carries the "scrolled"
    style, and its inline transform. *)
Definition headerScrolled (w : world) (header : nat) : bool :=
  match heap w !! header with
  | Some n => has_class "header-scrolled" n
  | None => false
  end.

Definition headerTransform (w : world) (header : nat) : option string :=
  n ← heap w !! header; style n !! "transform".

(** What the scroll listener keeps true between scroll events on a page
    that started as [w0]. *)
Definition scrollInv (header : nat) (previous : Q) (w0 w : world) : Prop :=
  is_Some (heap w !! header) ∧
  listenersOn w Window "scroll" = [OnScroll (Some header)] ∧
  lastScrollY w = previous ∧
  uncaught w = uncaught w0.

(** A page with a header. *)
Definition headerPage : world :=
  parsePage [ Markup "HEADER" "main-header" [] "" [] ].

(** The mobile menu is open when [document.body] carries "nav-open". *)
Definition menuOpen (w : world) : bool :=
  match heap w !! body w with
  | Some n => has_class "nav-open" n
  | None => false
  end.

(** A page with a header that holds a menu button (node 2), a navigation
    link to another page (node 3), a navigation link into the page
    (node 4) and a plain in-page link (node 5), and the section the
    in-page links point to (node 6).  [menuPageReady] is the page once the
    two initialisers of these controls have run, in the order of
    [initCoreFunctions], and [menuPageOpen] that page after a click on the
    menu button. *)
Definition menuPage : world :=
  parsePage
    [ Markup "HEADER" "main-header" [] ""
        [ Markup "BUTTON" "menu-toggle" [] "menu" [];
          Markup "A" "nav-link" [("href", "/services/")] "Services" [];
          Markup "A" "nav-link" [("href", "#about")] "About" [];
          Markup "A" "" [("href", "#about")] "Top" [] ];
      Markup "SECTION" "" [("id", "about")] "About us" [] ].

Definition menuPageReady : world :=
  exec (initSmoothScroll;; initMobileMenu) menuPage.

Definition menuPageOpen : world := step menuPageReady (Click 2).

(** The listeners a [type] event on [target] meets on its way up, each
    with the element it is registered on, in the order they would run. *)
Definition pathListeners (w : world) (target : nat) (type : string)
    : list (nat * listener) :=
  flat_map (λ a, map (pair a) (listenersOn w (Element a) type))
           (inclusiveAncestors (heap w) target).

(** The event as dispatch hands it to the first listener. *)
Definition freshEvent (w : world) : world :=
  with_propagationStopped false (with_defaultPrevented false w).

(** A grid page with one employee card: a name, the view-profile link
    and the contact button; [gridPageReady] is the page once the two
    initialisers of the grid's click behaviour have run. *)
Definition gridPage : world :=
  parsePage
    [ Markup "DIV" "employees-grid" [] ""
        [ Markup "DIV" "employee-card" [] ""
            [ Markup "H3" "employee-name" [] "Sami" [];
              Markup "A" "btn-view-profile" [("href", "/employees/7/")] "Profile" [];
              Markup "BUTTON" "btn-contact" [] "Contact" [] ] ] ].

Definition gridPageReady : world :=
  exec (initEmployeeCards;; initGridContactButtons) gridPage.

(** ** Ratings *)

(** [i <= x] as a proposition. *)
Definition number_le (i : Z) (x : number) : Prop :=
  match x with
  | NaN | NegInfinity => False
  | Finite q => (inject_Z i <= q)%Q
  | PosInfinity => True
  end.

(** The number of stars a rating fills: min(5, max(0, floor x)). *)
Definition starCount (x : number) : nat :=
  match x with
  | NaN | NegInfinity => 0
  | Finite q => Z.to_nat (Z.min 5 (Z.max 0 (Qfloor q)))
  | PosInfinity => 5
  end.

(** The star the loop appends in turn [i]. *)
Definition starNode (container : nat) (ratingValue : number) (i : Z) : node :=
  Node "SPAN" ""
       (if int_le i ratingValue then ["rating-star"; "filled"] else ["rating-star"])
       ∅ ∅ "★" (Some container) [] 0 0 0%Q.

(** The children of [container] that carry the class "filled". *)
Definition filledStars (w : world) (container : nat) : list nat :=
  match heap w !! container with
  | Some n => List.filter (selects (heap w) (Class "filled")) (childNodes n)
  | None => []
  end.

(** A stand-in for the host's [parseFloat], for the sample pages: the
    results about ratings hold for any function from strings to numbers.
    It reads leading ASCII white space, a sign, "Infinity" or decimal
    digits with an optional fraction and exponent, ignores what follows,
    and gives [NaN] for anything else.  The value is kept exact, where the
    host rounds to the nearest double. *)
Definition digitOf (c : ascii) : option Z :=
  let n := Z.of_nat (nat_of_ascii c) in
  if bool_decide (48 ≤ n ≤ 57)%Z then Some (n - 48) else None.

Fixpoint readDigits (s : string) (acc : Z) (count : nat) : Z * nat * string :=
  match s with
  | String c s' =>
      match digitOf c with
      | Some d => readDigits s' (10 * acc + d) (S count)
      | None => (acc, count, s)
      end
  | EmptyString => (acc, count, s)
  end.

Fixpoint skipSpaces (s : string) : string :=
  match s with
  | String c s' => if Ascii.is_space c then skipSpaces s' else s
  | EmptyString => s
  end.

Definition readSign (s : string) : Z * string :=
  match s with
  | String "-" s' => (-1, s')
  | String "+" s' => (1, s')
  | _ => (1, s)
  end.

Definition readExponent (s : string) : Z :=
  match s with
  | String c s' =>
      if bool_decide (c = "e"%char ∨ c = "E"%char) then
        let '(sign, s'') := readSign s' in
        let '(e, count, _) := readDigits s'' 0 0 in
        if bool_decide (count = 0%nat) then 0 else sign * e
      else 0
  | EmptyString => 0
  end.

Definition parseFloat (text : string) : number :=
  let '(sign, s) := readSign (skipSpaces text) in
  if String.prefix "Infinity" s then
    (if bool_decide (sign = 1) then PosInfinity else NegInfinity)
  else
    let '(whole, nw, s1) := readDigits s 0 0 in
    let '(mantissa, nf, s2) :=
      match s1 with
      | String "." s1' =>
          let '(m, n, s2) := readDigits s1' whole 0 in (m, n, s2)
      | _ => (whole, 0%nat, s1)
      end in
    if bool_decide ((nw + nf)%nat = 0%nat) then NaN
    else Finite (inject_Z (sign * mantissa)
                 * Qpower 10 (readExponent s2 - Z.of_nat nf))%Q.

(** [x] is [root] or lies below it. *)
Definition inside (w : world) (root x : nat) : bool :=
  bool_decide (x ∈ root :: descendants (nextRef w) (heap w) root).

(** A page whose ratings can all be rendered: every rating element has its
    value element and its stars container, and no stars container lies
    inside another rating element. *)
Definition ratingsApart (w : world) : bool :=
  let ratings := imap pair (queryAll w (Class "employee-rating")) in
  forallb (λ '(j, e),
    match queryIn w e (Class "rating-value"),
          queryIn w e (Class "rating-stars") with
    | Some _, Some c =>
        forallb (λ '(k, e'), bool_decide (j = k) || negb (inside w e' c)) ratings
    | _, _ => false
    end) ratings.

(** The stars of the rating element at position [k] of a page whose next
    fresh reference was [first] when the rendering began. *)
Definition starsOf (first k : nat) : list nat :=
  map (λ i, (first + 5 * k + i)%nat) [0; 1; 2; 3; 4]%nat.

(** The container [c] of the rating at position [k] holds its five
    stars, star [i + 1] being the node the loop made for the rating [R]. *)
Definition renderedAt (first : nat) (w : world) (k c : nat) (R : number) : Prop :=
  (childNodes <$> heap w !! c) = Some (starsOf first k) ∧
  ∀ i, (i < 5)%nat →
    heap w !! (first + 5 * k + i)%nat = Some (starNode c R (Z.of_nat i + 1)).

(** The page while [initRatingStars] works through the ratings of the page
    [w0], the first [i] of them done: their containers hold their stars;
    every other node of [w0] is as it was, but for the parent link of a
    node that a container held; nothing else was created. *)
Definition ratingsInv (parseFloat : string → number) (w0 : world) (i : nat)
    (w : world) : Prop :=
  let ratings := queryAll w0 (Class "employee-rating") in
  nextRef w = (nextRef w0 + 5 * i)%nat ∧
  (∀ x, (nextRef w ≤ x)%nat → heap w !! x = None) ∧
  (∀ x, is_Some (heap w0 !! x) → is_Some (heap w !! x)) ∧
  (∀ x n, heap w0 !! x = Some n →
     (∀ j e, (j < i)%nat → ratings !! j = Some e →
             queryIn w0 e (Class "rating-stars") ≠ Some x) →
     heap w !! x = Some n ∨ heap w !! x = Some (with_parentNode None n)) ∧
  (∀ j e v c, (j < i)%nat → ratings !! j = Some e →
     queryIn w0 e (Class "rating-value") = Some v →
     queryIn w0 e (Class "rating-stars") = Some c →
     renderedAt (nextRef w0) w j c (or_zero (parseFloat (textOf w0 v)))).

(** A grid page with two ratings: the value 3.7 beside a stars container
    that holds a placeholder, and the value 4 in bold beside an empty
    container.  The rating elements are nodes 1 and 5, their containers
    nodes 3 and 8. *)
Definition ratingsPage : world :=
  parsePage
    [ Markup "DIV" "employee-rating" [] ""
        [ Markup "SPAN" "rating-value" [] "3.7" [];
          Markup "DIV" "rating-stars" [] "" [ Markup "SPAN" "" [] "-" [] ] ];
      Markup "DIV" "employee-rating" [] ""
        [ Markup "SPAN" "rating-value" [] "" [ Markup "B" "" [] "4" [] ];
          Markup "DIV" "rating-stars" [] "" [] ] ].

(** A profile page whose biography section has no content element, and a
    page with an in-page link and its target but no header;
    [headerlessPageReady] is the latter once the scroll handlers are in
    place. *)
Definition bareBioPage : world :=
  parsePage [ Markup "DIV" "bio-section" [] "About me" [] ].

Definition headerlessPage : world :=
  parsePage
    [ Markup "A" "" [("href", "#about")] "About" [];
      Markup "SECTION" "" [("id", "about")] "About us" [] ].

Definition headerlessPageReady : world :=
  exec (initSmoothScroll;; initHeaderScroll) headerlessPage.

(** A profile page with the disabled contact control, as it is once
    [initToastSystem] and [initProfileContactButtons] have run at load. *)
Definition profilePage : world :=
  parsePage
    [ Markup "DIV" "employee-profile" [] ""
        [ Markup "BUTTON" "contact-disabled" [] "WhatsApp" [] ] ].

Definition profilePageReady : world :=
  exec (initToastSystem;; initProfileContactButtons) profilePage.

(** ** The portfolio modal *)

(** The timers whose callback unlinks [r] sooner or later. *)
Definition unlinks (cb : callback) : option nat :=
  match cb with
  | RemoveToast r | ExpireToast r | RemoveModal r => Some r
  | SweepToasts | RevealModal _ | ReleaseButton _ => None
  end.

(** What opening a modal needs of the page: the part of [wellFormed] that
    timers, clicks and the modal itself keep true. *)
Definition sound (w : world) : Prop :=
  (∀ r, (nextRef w ≤ r)%nat → heap w !! r = None) ∧
  ordered (heap w) ∧
  (∃ b, heap w !! body w = Some b ∧ parentNode b = None) ∧
  (∀ r type, (nextRef w ≤ r)%nat → listenersOn w (Element r) type = []) ∧
  Forall (λ t, ∀ r, unlinks t.2 = Some r → (r < nextRef w)%nat) (timers w).

(** Time passing and timers firing: what happens on its own between two
    actions of the visitor. *)
Definition isHostEvent (e : event) : bool :=
  match e with
  | Wait _ | Fire => true
  | Click _ | Scroll _ => false
  end.

Definition pendingRemoval (modal : nat) (w : world) : bool :=
  existsb (λ t, bool_decide (t.2 = RemoveModal modal)) (timers w).

(** How a node may differ from what it was when the modal opened: styles
    are free; a node older than the modal (created before reference
    [modal]) may have lost its parent or children, and so may the modal its
    parent; the nodes inside the modal keep their place. *)
Definition nodeRel (modal r : nat) (n' n : node) : Prop :=
  tagName n' = tagName n ∧ classList n' = classList n ∧
  (parentNode n' = parentNode n ∨
   (parentNode n' = None ∧ (r ≤ modal)%nat)) ∧
  ((modal ≤ r)%nat → childNodes n' = childNodes n).

(** The page while a modal is open ([closing = false]) or on its way out
    ([closing = true]), relative to the page [w1] as [openPortfolioModal]
    left it: [modalCore] is what every timer keeps true, [modalFrame]
    adds the modal's parent and whether its removal is pending, which all
    timers but the removal itself leave as they are. *)
Definition modalCore (w1 : world) (modal : nat) (closing : bool) (w : world)
    : Prop :=
  nextRef w = nextRef w1 ∧ body w = body w1 ∧ listeners w = listeners w1 ∧
  (∀ r, option_Forall2 (nodeRel modal r) (heap w !! r) (heap w1 !! r)) ∧
  Forall (λ t, ∀ r, unlinks t.2 = Some r →
                    (r < modal)%nat ∨ (closing = true ∧ t.2 = RemoveModal modal))
         (timers w).

Definition modalFrame (w1 : world) (modal : nat) (closing : bool)
    (parent : option nat) (pending : bool) (w : world) : Prop :=
  modalCore w1 modal closing w ∧
  heap w !! modal ≫= parentNode = parent ∧
  pendingRemoval modal w = pending.

Definition modalInv (w1 : world) (modal : nat) (closing : bool) (w : world)
    : Prop :=
  modalCore w1 modal closing w ∧
  (if closing
   then pendingRemoval modal w = true ∨ heap w !! modal ≫= parentNode = None
   else heap w !! modal ≫= parentNode = Some (body w1)).

(** A Hoare triple for the script monad: from a page satisfying [P], the
    computation ends in [Q] when it returns and in [E] when it throws. *)
Definition triple {A} (E P : world → Prop) (m : M A) (Q : A → world → Prop)
    : Prop :=
  ∀ w, P w → match m w with
             | (w', inr a) => Q a w'
             | (w', inl _) => E w'
             end.

(** What [openPortfolioModal] leaves on a page [w0]: the modal [m] under
    [document.body] with its content [c] and its close button [x] two
    levels further down (the first ".modal-close" a query from the modal
    finds), the older nodes as they were. *)
Definition opened (w0 w1 : world) : Prop :=
  let m := nextRef w0 in
  let c := S m in
  let hd := S (S m) in
  let x := S (S (S (S m))) in
  (nextRef w0 < nextRef w1)%nat ∧ body w1 = body w0 ∧
  listeners w1 = (listeners w0 ++ [ (Element x, "click", OnModalClose m);
                                    (Element m, "click", OnModalBackdrop m) ])%list ∧
  timers w1 = (timers w0 ++ [ (clock w0 + 10, RevealModal m) ])%list ∧
  (∀ r, (nextRef w1 ≤ r)%nat → heap w1 !! r = None) ∧
  (∀ r, (r < m)%nat →
     option_Forall2 (λ n' n, classList n' = classList n ∧
                             parentNode n' = parentNode n)
                    (heap w1 !! r) (heap w0 !! r)) ∧
  (∀ r n, (m < r)%nat → heap w1 !! r = Some n →
     ¬ "portfolio-modal" ∈ classList n ∧ ¬ "toast" ∈ classList n ∧
     ∃ p, parentNode n = Some p ∧ (m ≤ p < r)%nat) ∧
  queryIn w1 m (Class "modal-close") = Some x ∧
  (∃ n, heap w1 !! m = Some n ∧ classList n = ["portfolio-modal"] ∧
        childNodes n = [c] ∧ parentNode n = Some (body w0)) ∧
  (∃ n, heap w1 !! c = Some n ∧ classList n = ["modal-content"] ∧
        parentNode n = Some m) ∧
  (∃ n, heap w1 !! hd = Some n ∧ parentNode n = Some c) ∧
  (∃ n, heap w1 !! x = Some n ∧ parentNode n = Some hd).

(** The portfolio modals that are in the document. *)
Definition modalNodes (w : world) : list nat :=
  connectedMatches w (Class "portfolio-modal").

(** The timers that are due, whether the removals of [modal] are all due,
    and what a timer callback may add to the queue it finds in [ws]:
    timers that are due later and remove no modal. *)
Definition dueTimers (w : world) : list (Z * callback) :=
  List.filter (λ t, bool_decide (t.1 ≤ clock w)%Z) (timers w).

Definition removalsDue (modal : nat) (w : world) : Prop :=
  Forall (λ t, t.2 = RemoveModal modal → (t.1 ≤ clock w)%Z) (timers w).

Definition laterTimers (modal : nat) (ws w : world) : Prop :=
  clock w = clock ws ∧
  ∃ new, timers w = (timers ws ++ new)%list ∧
         Forall (λ t, (clock ws < t.1)%Z ∧ t.2 ≠ RemoveModal modal) new.

(** Opening the modal: the page calls [openPortfolioModal] with the image
    address, the title and the description of a portfolio item. *)
Definition openModal (w : world) (item : string * string * string) : world :=
  let '(imageSrc, title, description) := item in
  hostCall (openPortfolioModal imageSrc title description) w.

(** An item whose three strings hold no markup. *)
Definition plainItem (item : string * string * string) : bool :=
  let '(imageSrc, title, description) := item in
  plainText imageSrc && plainText title && plainText description.

(** The two ways to close it: a click on the backdrop (the modal element
    itself) or on its close button. *)
Inductive closeAction := Backdrop | CloseButton.

Definition closeTarget (w : world) (modal : nat) (how : closeAction)
    : option nat :=
  match how with
  | Backdrop => Some modal
  | CloseButton => queryIn w modal (Class "modal-close")
  end.

(** At most the node of [modal] is a portfolio modal in the document. *)
Definition atMostModal (modal : nat) (w : world) : Prop :=
  modalNodes w = [modal] ∨ modalNodes w = [].

(** A portfolio page with one item, and two items to show. *)
Definition portfolioPage : world :=
  parsePage
    [ Markup "DIV" "portfolio-item" [] ""
        [ Markup "DIV" "portfolio-image" [] ""
            [ Markup "IMG" "" [("src", "/media/wiring.jpg")] "" [] ];
          Markup "H4" "portfolio-title" [] "Wiring" [] ] ].

Definition wiringItem : string * string * string :=
  ("/media/wiring.jpg", "Wiring", "").

Definition panelItem : string * string * string :=
  ("/media/panel.jpg", "Panel", "A new distribution panel").

(** ** Toast dismissal *)

(** A node with the slide-out animation [animateToastOut] gives it. *)
Definition slideOut (n : node) : node :=
  with_style (<["animation" := "toastSlideOut 0.3s ease-in forwards"]> (style n)) n.

(** An empty page on which one toast has been shown: the container is
    node 1, the toast node 2. *)
Definition savedToastPage : world :=
  exec (showToast "Saved" (Some "success")) emptyPage.

(** A page rendered with one message and a stray close control, once
    [initToastSystem] has run: the message is node 2, its close control
    node 3, the stray control node 4. *)
Definition messagePage : world :=
  exec initToastSystem
    (parsePage
       [ Markup "DIV" "toast-container" [("id", "toast-container")] ""
           [ Markup "DIV" "toast" [] "Welcome"
               [ Markup "BUTTON" "toast-close" [] "✕" [] ] ];
         Markup "BUTTON" "toast-close" [] "✕" [] ]).

(** A grid page with two ratings, the first without its value element. *)
Definition brokenRatingPage : world :=
  parsePage
    [ Markup "DIV" "employee-rating" [] ""
        [ Markup "DIV" "rating-stars" [] "" [] ];
      Markup "DIV" "employee-rating" [] ""
        [ Markup "SPAN" "rating-value" [] "4.5" [];
          Markup "DIV" "rating-stars" [] "" [] ] ].

(** What may happen while a modal is up: time passes, timers fire, and the
    visitor clicks on the modal or on a node inside it.  [w1] is the page as
    [openPortfolioModal] left it and [modal] the modal's node, so the nodes
    inside are the ones created after it. *)
Definition isModalEvent (w1 : world) (modal : nat) (e : event) : bool :=
  match e with
  | Wait _ | Fire => true
  | Click target => bool_decide (modal ≤ target < nextRef w1)%nat
  | Scroll _ => false
  end.

(** A click that closes the modal: on the backdrop or on the close button. *)
Definition isCloseClick (w1 : world) (modal : nat) (e : event) : bool :=
  match e with
  | Click target =>
      bool_decide (closeTarget w1 modal Backdrop = Some target ∨
                   closeTarget w1 modal CloseButton = Some target)
  | Wait _ | Fire | Scroll _ => false
  end.

(** * Reasoning about runs *)

Open Scope Z_scope.
Open Scope list_scope.

Lemma run_bind_assoc {A B C} (m : M C) (f : C → M A) (k : A → M B) w :
  ((m ≫= f) ≫= k) w = (m ≫= (λ c, f c ≫= k)) w.
Proof. unfold mbind, M_bind. by destruct (m w) as [? [|]]. Qed.

Lemma run_bind_ret {A B} (a : A) (k : A → M B) w : (mret a ≫= k) w = k a w.
Proof. done. Qed.

Lemma run_bind_gets {A B} (f : world → A) (k : A → M B) w : (gets f ≫= k) w = k (f w) w.
Proof. done. Qed.

Lemma run_bind_throw {A B} e (k : A → M B) w : (throw e ≫= k) w = (w, inl e).
Proof. done. Qed.

Lemma run_bind_read {A B} r (f : node → A) (k : A → M B) w n :
  heap w !! r = Some n → (read r f ≫= k) w = k (f n) w.
Proof. intros H. unfold read. rewrite run_bind_assoc, run_bind_gets, H. done. Qed.
Lemma run_bind_update {B} (f : world → world) (k : unit → M B) w : (update f ≫= k) w = k tt (f w).
Proof. done. Qed.

Lemma run_bind_write {B} r (f : node → node) (k : unit → M B) w n :
  heap w !! r = Some n →
  (write r f ≫= k) w = k tt (with_heap (<[r := f n]> (heap w)) w).
Proof. intros H. unfold write. rewrite run_bind_assoc, run_bind_gets, H. done. Qed.

Lemma run_bind_setStyle {B} r prop val (k : unit → M B) w n :
  heap w !! r = Some n →
  (setStyle r prop val ≫= k) w =
  k tt (with_heap (<[r := with_style (<[prop := val]> (style n)) n]> (heap w)) w).
Proof. intros H. unfold setStyle. by erewrite run_bind_write. Qed.

Lemma run_bind_setTimeout {B} cb d (k : unit → M B) w :
  (setTimeout cb d ≫= k) w =
  k tt (with_timers (timers w ++ [(clock w + d, cb)]) w).
Proof. done. Qed.

Lemma run_bind_addEventListener {B} t ty l (k : unit → M B) w :
  (addEventListener t ty l ≫= k) w =
  k tt (with_listeners (listeners w ++ [(t, ty, l)]) w).
Proof. done. Qed.

(** Removing a node that has no parent does nothing. *)
Lemma run_bind_remove_detached {B} r (k : unit → M B) w n :
  heap w !! r = Some n → parentNode n = None →
  (remove r ≫= k) w = k tt w.
Proof.
  intros H Hp. unfold remove.
  rewrite run_bind_assoc. erewrite run_bind_read by done. by rewrite Hp.
Qed.

Lemma run_bind_remove_attached {B} r (k : unit → M B) w n p np :
  heap w !! r = Some n → parentNode n = Some p → heap w !! p = Some np →
  p ≠ r →
  (remove r ≫= k) w =
  k tt (with_heap
          (<[r := with_parentNode None n]>
             (<[p := with_childNodes
                       (List.filter (λ c, negb (Nat.eqb c r)) (childNodes np)) np]>
                (heap w))) w).
Proof.
  intros H Hp Hnp Hne. unfold remove.
  rewrite run_bind_assoc. erewrite run_bind_read by done. rewrite Hp.
  rewrite run_bind_assoc. erewrite run_bind_write by done.
  erewrite run_bind_write; [done|]. cbn. by rewrite lookup_insert_ne.
Qed.

Lemma run_bind_appendChild {B} parent child (k : unit → M B) w np nc :
  heap w !! parent = Some np → heap w !! child = Some nc →
  parentNode nc = None → parent ≠ child →
  (appendChild parent child ≫= k) w =
  k tt (with_heap
          (<[child := with_parentNode (Some parent) nc]>
             (<[parent := with_childNodes (childNodes np ++ [child]) np]>
                (heap w))) w).
Proof.
  intros Hp Hc Hd Hne. unfold appendChild.
  rewrite run_bind_assoc. erewrite run_bind_remove_detached by done.
  rewrite run_bind_assoc. erewrite run_bind_write by done.
  erewrite run_bind_write; [done|]. cbn. by rewrite lookup_insert_ne.
Qed.

Lemma run_bind_clearChildren_leaf {B} r (k : unit → M B) w n :
  heap w !! r = Some n → childNodes n = [] →
  (clearChildren r ≫= k) w = k tt w.
Proof.
  intros H Hc. unfold clearChildren.
  rewrite run_bind_assoc. erewrite run_bind_read by done. rewrite Hc. cbn [forEach].
  rewrite run_bind_assoc, run_bind_ret. erewrite run_bind_write by done.
  f_equal. destruct w, n; cbn in *. subst. by rewrite insert_id.
Qed.

Lemma run_bind_setTextContent_leaf {B} r s (k : unit → M B) w n :
  heap w !! r = Some n → childNodes n = [] →
  (setTextContent r s ≫= k) w =
  k tt (with_heap (<[r := with_textContent s n]> (heap w)) w).
Proof.
  intros H Hc. unfold setTextContent.
  rewrite run_bind_assoc. erewrite run_bind_clearChildren_leaf by done.
  by erewrite run_bind_write.
Qed.
Lemma run_bind_createElement {B} tag (k : nat → M B) w :
(createElement tag ≫= k) w =
k (nextRef w)
  (with_nextRef (S (nextRef w))
     (with_heap (<[nextRef w := blank tag]> (heap w)) w)).
Proof. done. Qed.

Lemma build_kids_forEach r kids :
  (fix buildAll (l : list html) : M unit :=
     match l with
     | [] => mret tt
     | k :: l' => build r k;; buildAll l'
     end) kids = forEach kids (build r).
Proof. induction kids as [|k kids IH]; [done|]. cbn [forEach]. by rewrite <- IH. Qed.

Lemma run_bind_build {B} parent tag cls attrs text kids (k : unit → M B) w np :
  heap w !! parent = Some np → heap w !! nextRef w = None →
  (build parent (Markup tag cls attrs text kids) ≫= k) w =
  (forEach kids (build (nextRef w)) ≫= k)
    (with_nextRef (S (nextRef w))
       (with_heap
          (<[nextRef w := markupNode tag cls attrs text parent []]>
             (<[parent := with_childNodes (childNodes np ++ [nextRef w]) np]>
                (heap w))) w)).
Proof.
  intros Hp Hf.
  assert (parent ≠ nextRef w) as Hne by (intros ->; congruence).
  cbn [build].
  rewrite run_bind_assoc, run_bind_createElement.
  rewrite run_bind_assoc. erewrite run_bind_write by apply lookup_insert_eq.
  rewrite run_bind_assoc.
  erewrite run_bind_appendChild;
    [ | cbn; rewrite !lookup_insert_ne by done; exact Hp
      | cbn; apply lookup_insert_eq | done | done ].
  rewrite build_kids_forEach.
  f_equal. destruct w; cbn in *. f_equal.
  rewrite !insert_insert_eq.
  rewrite (insert_insert_ne _ parent) by done. by rewrite insert_insert_eq.
Qed.

(** ** Facts about well-formed pages *)

Lemma wf_lt w r n : wellFormed w → heap w !! r = Some n → (r < nextRef w)%nat.
Proof. intros (Hn & _) H. by apply Hn in H as [? _]. Qed.

Lemma wf_fresh w r : wellFormed w → (nextRef w ≤ r)%nat → heap w !! r = None.
Proof.
  intros Hw Hr. destruct (heap w !! r) eqn:E; [|done].
  apply (wf_lt _ _ _ Hw) in E. lia.
Qed.

Lemma wf_body w : wellFormed w → ∃ b, heap w !! body w = Some b ∧ parentNode b = None.
Proof.
  intros (_ & [Hp [b Hb]] & _). exists b. split; [done|].
  rewrite Hb in Hp. done.
Qed.

Lemma wellFormedb_true w : wellFormedb w = true → wellFormed w.
Proof. apply bool_decide_eq_true_1. Qed.

Lemma selects_Some h sel r n : h !! r = Some n → selects h sel r = matches sel n.
Proof. unfold selects. by intros ->. Qed.

Lemma selects_true h sel r :
  selects h sel r = true → ∃ n, h !! r = Some n ∧ matches sel n = true.
Proof. unfold selects. destruct (h !! r); [eauto|done]. Qed.

Lemma head_filter_selects h sel l r :
  head (List.filter (selects h sel) l) = Some r →
  r ∈ l ∧ ∃ n, h !! r = Some n ∧ matches sel n = true.
Proof.
  intros H. apply head_Some_elem_of, list_elem_of_In, filter_In in H as [Hin H].
  split; [by apply list_elem_of_In|]. by apply selects_true.
Qed.

Lemma query_Some w sel r :
  query w sel = Some r → ∃ n, heap w !! r = Some n ∧ matches sel n = true.
Proof. intros H. by apply head_filter_selects in H as [_ H]. Qed.

Lemma queryIn_Some w root sel r :
  queryIn w root sel = Some r → ∃ n, heap w !! r = Some n ∧ matches sel n = true.
Proof. intros H. by apply head_filter_selects in H as [_ H]. Qed.

Lemma queryAll_elem w sel r :
  r ∈ queryAll w sel → ∃ n, heap w !! r = Some n ∧ matches sel n = true.
Proof. intros H. apply list_elem_of_In, filter_In in H as [_ H]. by apply selects_true. Qed.

Lemma descendants_S f h r n :
  h !! r = Some n →
  descendants (S f) h r = flat_map (λ c, c :: descendants f h c) (childNodes n).
Proof. intros H. cbn. by rewrite H. Qed.

(** ** Symbolic execution *)

Ltac is_closed t :=
  match t with
  | context [?x] => is_var x; fail 1
  | _ => idtac
  end.

Ltac eval_closed :=
  repeat match goal with
  | |- context [String.words ?s] =>
      is_closed s;
      let r := eval vm_compute in (String.words s) in
      change (String.words s) with r
  | |- context [bool_decide ?P] =>
      is_closed P;
      let r := eval vm_compute in (bool_decide P) in
      change (bool_decide P) with r
  | |- context [@lookup ?K ?V ?M ?L ?k ?m] =>
      is_closed (@lookup K V M L k m);
      let r := eval vm_compute in (@lookup K V M L k m) in
      change (@lookup K V M L k m) with r
  end.

Ltac wsimpl :=
  repeat (progress (
    unfold with_heap, with_nextRef, with_listeners, with_timers, with_clock,
      with_scrollY, with_lastScrollY, with_scrollRequests, with_location,
      with_console, with_propagationStopped, with_defaultPrevented,
      with_uncaught, with_className, with_classList, with_elementId,
      with_attributes, with_style, with_textContent, with_parentNode,
      with_childNodes, blank, markupNode;
    cbn [heap nextRef body listeners timers clock scrollY lastScrollY
         scrollRequests location console propagationStopped defaultPrevented
         uncaught tagName elementId classList attributes style textContent
         parentNode childNodes scrollHeight offsetHeight pageTop
         forEach nonNull default from_option fst snd list_to_map foldr
         app flat_map List.filter head matches];
    eval_closed)).

Ltac hlookup :=
  wsimpl;
  repeat first [ rewrite lookup_insert_eq | rewrite lookup_insert_ne by lia ];
  first [ eassumption | reflexivity ].

Ltac mstep :=
  first
  [ rewrite run_bind_assoc
  | rewrite run_bind_ret
  | rewrite run_bind_gets
  | rewrite run_bind_update
  | rewrite run_bind_createElement
  | rewrite run_bind_setTimeout
  | rewrite run_bind_addEventListener
  | erewrite run_bind_read by hlookup
  | erewrite run_bind_write by hlookup
  | erewrite run_bind_setStyle by hlookup
  | erewrite run_bind_build by hlookup
  | erewrite run_bind_clearChildren_leaf by hlookup
  | erewrite run_bind_setTextContent_leaf by hlookup
  | erewrite run_bind_appendChild by first [ hlookup | lia ]
  | erewrite run_bind_remove_detached by hlookup ]; wsimpl.

Ltac qstep :=
  first
  [ erewrite descendants_S by hlookup
  | erewrite selects_Some by hlookup ]; unfold has_class; wsimpl.
Ltac qeval := unfold queryIn, queryAllIn, query, queryAll; wsimpl; repeat qstep.

Ltac fresh_refs w Hw :=
  pose proof (wf_fresh w _ Hw (le_n _));
  pose proof (wf_fresh w (S (nextRef w)) Hw ltac:(lia));
  pose proof (wf_fresh w (S (S (nextRef w))) Hw ltac:(lia));
  pose proof (wf_fresh w (S (S (S (nextRef w)))) Hw ltac:(lia)).

(** * Toasts *)

(** C10 — a call [showToast(message)] that leaves the severity out creates
    a banner whose class list is exactly "toast success", whatever the
    message: the class is assigned before the message is looked at.  The
    banner did not exist before the call.  When the message holds no
    markup the call returns, and the banner is the node it has armed its
    five-second timer for. *)
Theorem showToast_default_severity w message :
  wellFormedb w = true →
  ∃ toast n,
    heap w !! toast = None ∧
    heap (exec (showToast message None) w) !! toast = Some n ∧
    classList n = ["toast"; "success"] ∧
    className n = "toast success" ∧
    (plainText message = true →
     outcome (showToast message None) w = inr tt ∧
     timers (exec (showToast message None) w) =
       (timers w ++ [(clock w + 5000, ExpireToast toast)])%list).
Proof.
  intros Hw%wellFormedb_true. destruct (wf_body _ Hw) as (b & Hb & Hbp).
  fresh_refs w Hw. pose proof (wf_lt _ _ _ Hw Hb).
  assert (∃ w' toast n,
    showToast message None w = (w', inr tt) ∧
    timers w' = (timers w ++ [(clock w + 5000, ExpireToast toast)])%list ∧
    heap w !! toast = None ∧
    heap w' !! toast = Some n ∧
    classList n = ["toast"; "success"] ∧
    className n = "toast success") as (w' & toast & n & Hrun & Ht & Hf & Hn & Hc & Hcn).
  { unfold showToast, getElementById, querySelector, setInnerHTML,
      elementQuerySelector.
    repeat mstep.
    destruct (query w _) as [c|] eqn:E.
    - destruct (query_Some _ _ _ E) as (nc & Hc & _).
      pose proof (wf_lt _ _ _ Hw Hc).
      eexists _, (nextRef w), _. split.
      { repeat mstep. qeval. repeat mstep. reflexivity. }
      wsimpl. split; [reflexivity|]. split; [assumption|].
      split; [hlookup|]. split; reflexivity.
    - eexists _, (S (nextRef w)), _. split.
      { unfold createToastContainer. repeat mstep. qeval. repeat mstep.
        reflexivity. }
      wsimpl. split; [reflexivity|]. split; [assumption|].
      split; [hlookup|]. split; reflexivity. }
  exists toast, n. unfold exec, outcome. rewrite Hrun. cbn [fst snd].
  split; [exact Hf|]. split; [exact Hn|]. split; [exact Hc|].
  split; [exact Hcn|]. intros _. by split.
Qed.

Lemma showToast_default_severity_witness :
  ∃ toast n,
    heap emptyPage !! toast = None ∧
    heap (exec (showToast "saved" None) emptyPage) !! toast = Some n ∧
    classList n = ["toast"; "success"] ∧
    className n = "toast success" ∧
    outcome (showToast "saved" None) emptyPage = inr tt ∧
    timers (exec (showToast "saved" None) emptyPage) =
      (timers emptyPage ++ [(clock emptyPage + 5000, ExpireToast toast)])%list.
Proof.
  destruct (showToast_default_severity emptyPage "saved"
              ltac:(vm_compute; reflexivity))
    as (toast & n & Hf & Hn & Hc & Hcn & Hplain).
  exists toast, n.
  exact (conj Hf (conj Hn (conj Hc (conj Hcn
           (Hplain ltac:(vm_compute; reflexivity)))))).
Defined.

(** ** Walking up the tree *)

Lemma ancestorsWithin_ext f h h' r :
  (∀ x, h !! x ≫= parentNode = h' !! x ≫= parentNode) →
  ancestorsWithin f h r = ancestorsWithin f h' r.
Proof.
  intros Hext. revert r. induction f as [|f IH]; intros r; [done|].
  cbn [ancestorsWithin]. rewrite <- Hext.
  destruct (h !! r ≫= parentNode); [|done]. by rewrite IH.
Qed.

Lemma wf_ordered w : wellFormed w → ordered (heap w).
Proof.
  intros (Hn & _) x n p Hx Hp. apply Hn in Hx as (_ & Ho & _).
  by rewrite Hp in Ho.
Qed.

Lemma ancestorsWithin_fuel h f r :
  ordered h → (r ≤ f)%nat → ancestorsWithin f h r = ancestorsWithin r h r.
Proof.
  intros Ho. revert f. induction r as [r IH] using lt_wf_ind. intros f Hf.
  destruct (h !! r ≫= parentNode) as [p|] eqn:Hp.
  - destruct (h !! r) as [n|] eqn:Hr; [|done]. cbn in Hp.
    pose proof (Ho _ _ _ Hr Hp) as Hlt.
    destruct f as [|f]; [lia|]. destruct r as [|r]; [lia|].
    cbn [ancestorsWithin]. rewrite Hr. cbn. rewrite Hp.
    f_equal. rewrite (IH p) by lia. symmetry. apply IH; lia.
  - destruct f, r; cbn [ancestorsWithin]; by rewrite ?Hp.
Qed.

Lemma inclusiveAncestors_cons h r n p :
  ordered h → h !! r = Some n → parentNode n = Some p →
  inclusiveAncestors h r = r :: inclusiveAncestors h p.
Proof.
  intros Ho Hr Hp. unfold inclusiveAncestors.
  pose proof (Ho _ _ _ Hr Hp). destruct r as [|r]; [lia|].
  cbn [ancestorsWithin]. rewrite Hr. cbn. rewrite Hp.
  f_equal. apply ancestorsWithin_fuel; [done|lia].
Qed.

Lemma inclusiveAncestors_root h r n :
  h !! r = Some n → parentNode n = None → inclusiveAncestors h r = [r].
Proof.
  intros Hr Hp. unfold inclusiveAncestors.
  destruct r; cbn [ancestorsWithin]; [done|]. rewrite Hr. cbn. by rewrite Hp.
Qed.

(** ** Dispatch *)

Lemma bubble_quiet type path target w :
  (∀ a, a ∈ path → listenersOn w (Element a) type = []) →
  bubble type path target w = w.
Proof.
  induction path as [|a path IH]; intros Hq; [done|].
  cbn [bubble]. rewrite Hq by left. cbn [callListeners].
  rewrite IH; [by destruct (propagationStopped w)|].
  intros b Hb. apply Hq. by right.
Qed.

Lemma listenersOn_app w t type l :
  listenersOn (with_listeners (listeners w ++ l) w) t type =
  (listenersOn w t type ++
   omap (λ '(t', type', l),
           if bool_decide (t' = t ∧ type' = type) then Some l else None) l)%list.
Proof. unfold listenersOn. cbn. by rewrite omap_app. Qed.

Lemma wf_listenersOn_fresh w r type :
  wellFormed w → (nextRef w ≤ r)%nat → listenersOn w (Element r) type = [].
Proof.
  intros (_ & _ & _ & Hl) Hr. unfold listenersOn.
  induction Hl as [|[[t ty] l] ls Ht _ IH]; [done|].
  cbn [omap list_omap]. rewrite IH.
  rewrite bool_decide_eq_false_2; [done|].
  intros [-> _]. cbn in Ht. apply Forall_cons in Ht as [Ht _]. lia.
Qed.
Lemma ancestorsWithin_le h f r a :
  ordered h → a ∈ ancestorsWithin f h r → (a ≤ r)%nat.
Proof.
  intros Ho. revert r. induction f as [|f IH]; intros r; cbn [ancestorsWithin].
  - intros ->%list_elem_of_singleton. done.
  - intros [->|Ha]%elem_of_cons; [done|].
    destruct (h !! r) as [n|] eqn:Hr; cbn in Ha; [|by apply elem_of_nil in Ha].
    destruct (parentNode n) as [p|] eqn:Hp; [|by apply elem_of_nil in Ha].
    apply IH in Ha. pose proof (Ho _ _ _ Hr Hp). lia.
Qed.

Lemma ancestorsWithin_ext_below f h h' r :
  ordered h →
  (∀ x, (x ≤ r)%nat → h !! x ≫= parentNode = h' !! x ≫= parentNode) →
  ancestorsWithin f h r = ancestorsWithin f h' r.
Proof.
  intros Ho. revert r. induction f as [|f IH]; intros r Hext; [done|].
  cbn [ancestorsWithin]. rewrite <- Hext by done.
  destruct (h !! r) as [n|] eqn:Hr; [|done]. cbn.
  destruct (parentNode n) as [p|] eqn:Hp; [|done].
  pose proof (Ho _ _ _ Hr Hp). rewrite IH; [done|].
  intros x Hx. apply Hext. lia.
Qed.

Lemma quietFrom_elem w r type a :
  quietFrom w r type = true → a ∈ inclusiveAncestors (heap w) r →
  listenersOn w (Element a) type = [].
Proof.
  unfold quietFrom. rewrite forallb_forall. intros H Ha%list_elem_of_In.
  apply H in Ha. by apply bool_decide_eq_true_1 in Ha.
Qed.

Lemma hostCall_ok m w w' : m w = (w', inr tt) → hostCall m w = w'.
Proof. unfold hostCall. by intros ->. Qed.

Lemma run_bind_last {A} (m : M A) w : m w = (m ≫= mret) w.
Proof. unfold mbind, M_bind, mret, M_ret. by destruct (m w) as [? [|]]. Qed.

Ltac mrun :=
  repeat mstep;
  try (lazymatch goal with
       | |- ?m ?w = _ => rewrite (run_bind_last m w)
       end; repeat mstep);
  try reflexivity.


(** * The biography block *)

(** C9 — when the biography's content is at most 120 units tall,
    [initBioSection] changes nothing at all: no height cap, no clipping,
    no control appended. *)
Theorem initBioSection_short_bio w section content n :
  query w (Class "bio-section") = Some section →
  queryIn w section (Class "bio-content") = Some content →
  heap w !! content = Some n →
  scrollHeight n ≤ 120 →
  initBioSection w = (w, inr tt).
Proof.
  intros Hs Hc Hn Hh. unfold initBioSection, querySelector, elementQuerySelector.
  rewrite run_bind_gets, Hs, run_bind_gets, Hc. wsimpl.
  rewrite run_bind_ret. erewrite run_bind_read by done.
  rewrite bool_decide_eq_false_2 by lia. done.
Qed.

Lemma initBioSection_short_bio_witness :
  initBioSection shortBioPage = (shortBioPage, inr tt).
Proof.
  apply (initBioSection_short_bio shortBioPage 1%nat 2%nat
           (Node "DIV" "" ["bio-content"] ∅ ∅ "short text" (Some 1%nat) [] 120 120 0));
    [reflexivity | reflexivity | reflexivity | cbn; lia].
Defined.

Section bio.
Variables (w : world) (section content : nat) (n : node).
Hypothesis Hw : wellFormed w.
Hypothesis Hs : query w (Class "bio-section") = Some section.
Hypothesis Hc : queryIn w section (Class "bio-content") = Some content.
Hypothesis Hn : heap w !! content = Some n.
Hypothesis Hh : 120 < scrollHeight n.
Hypothesis Hq : quietFrom w section "click" = true.

Local Abbreviation button := (nextRef w).
Local Abbreviation w1 := (exec initBioSection w).

Lemma initBioSection_clipped :
  initBioSection w = (w1, inr tt) ∧ bioInv w section content true w1.
Proof.
  destruct (query_Some _ _ _ Hs) as (ns & Hns & _).
  fresh_refs w Hw. pose proof (wf_lt _ _ _ Hw Hn). pose proof (wf_lt _ _ _ Hw Hns).
  assert (∃ w', initBioSection w = (w', inr tt) ∧ bioInv w section content true w') as (w' & Hrun & Hinv).
  { unfold initBioSection, querySelector, elementQuerySelector, createBioToggleButton.
    rewrite run_bind_gets, Hs, run_bind_gets, Hc. wsimpl.
    rewrite run_bind_ret. erewrite run_bind_read by done.
    rewrite bool_decide_eq_true_2 by lia.
    destruct (decide (section = content)) as [->|Hne].
    all: eexists; split; [mrun|].
    all: unfold bioInv; wsimpl.
    all: split; [reflexivity|]; split; [|split].
    all: try (eexists; split; [hlookup|wsimpl; try apply lookup_insert_eq; try done]).
    all: try (intros x; rewrite !lookup_insert; repeat case_decide; simplify_eq; try done; try lia).
    all: try (cbn; by rewrite ?Hn, ?Hns).
    all: by simplify_map_eq. }
  unfold exec. rewrite Hrun. done.
Qed.

Lemma bioInv_ancestors b w' :
  bioInv w section content b w' →
  inclusiveAncestors (heap w') button = button :: inclusiveAncestors (heap w) section.
Proof.
  intros (_ & Hp & _ & nb & Hnb & _).
  pose proof (wf_ordered _ Hw) as Ho.
  destruct (query_Some _ _ _ Hs) as (ns & Hns & _).
  pose proof (wf_lt _ _ _ Hw Hns) as Hlt.
  assert (ordered (heap w')) as Ho'.
  { intros x nx p Hx Hxp. specialize (Hp x). rewrite Hx in Hp. cbn in Hp.
    rewrite Hxp in Hp. case_decide; simplify_eq; [done|].
    destruct (heap w !! x) as [nx'|] eqn:Hx'; [|done]. by eapply Ho. }
  pose proof (Hp button) as Hb. rewrite decide_True, Hnb in Hb by done. cbn in Hb.
  erewrite inclusiveAncestors_cons by done. f_equal.
  unfold inclusiveAncestors. symmetry. apply ancestorsWithin_ext_below; [done|].
  intros x Hx. rewrite Hp, decide_False by lia. done.
Qed.

Lemma bioInv_click b w' :
  bioInv w section content b w' → bioInv w section content (negb b) (step w' (Click button)).
Proof.
  intros Hinv. pose proof (bioInv_ancestors _ _ Hinv) as Hpath.
  destruct Hinv as (Hl & Hp & (nc & Hnc & Hst) & nb & Hnb & Hkids & Htext).
  pose proof (wf_ordered _ Hw) as Ho.
  cbn [step]. unfold dispatch. rewrite Hpath. cbn [bubble].
  set (w0 := with_propagationStopped false (with_defaultPrevented false w')).
  assert (listenersOn w0 (Element button) "click" = [OnBioToggle content]) as ->.
  { unfold listenersOn. subst w0. cbn [listeners with_propagationStopped with_defaultPrevented].
    rewrite Hl, omap_app. fold (listenersOn w (Element button) "click").
    rewrite wf_listenersOn_fresh by done. cbn. by rewrite bool_decide_eq_true_2. }
  cbn [callListeners runListener].
  assert (∃ w2, toggleBioContent content button w0 = (w2, inr tt) ∧
                propagationStopped w2 = false ∧ bioInv w section content (negb b) w2)
    as (w2 & Hrun & Hps & Hinv2).
  { assert (content ≠ button) by (pose proof (wf_lt _ _ _ Hw Hn); lia).
    unfold toggleBioContent, getStyle. subst w0.
    erewrite run_bind_read by (wsimpl; done). rewrite Hst. wsimpl.
    destruct b; wsimpl.
    all: eexists; split; [mrun|].
    all: split; [reflexivity|].
    all: unfold bioInv; wsimpl; split; [done|]; split; [|split].
    all: try (eexists; split; [hlookup|wsimpl; by simplify_map_eq]).
    all: intros x; rewrite <- Hp, !lookup_insert.
    all: repeat case_decide; simplify_eq; by rewrite ?Hnb, ?Hnc. }
  rewrite (hostCall_ok _ _ _ Hrun), Hps.
  rewrite bubble_quiet; [done|].
  intros a Ha. unfold listenersOn.
  destruct Hinv2 as (Hl2 & _). rewrite Hl2, omap_app.
  fold (listenersOn w (Element a) "click").
  rewrite (quietFrom_elem _ _ _ _ Hq Ha). cbn.
  rewrite bool_decide_eq_false_2; [done|]. intros [[= Hab] _].
  apply ancestorsWithin_le in Ha; [|done].
  destruct (query_Some _ _ _ Hs) as (ns & Hns & _).
  pose proof (wf_lt _ _ _ Hw Hns). lia.
Qed.

Lemma bioInv_clicks b k w' :
  bioInv w section content b w' →
  bioInv w section content b (run w' (repeat (Click button) (2 * k))) ∧
  bioInv w section content (negb b) (run w' (repeat (Click button) (2 * k + 1))).
Proof.
  revert w'. induction k as [|k IH]; intros w' Hinv.
  - split; [done|]. by apply bioInv_click.
  - replace (2 * S k)%nat with (S (S (2 * k))) by lia.
    replace (S (S (2 * k)) + 1)%nat with (S (S (2 * k + 1))) by lia.
    cbn [repeat]. unfold run in *. cbn [foldl].
    apply bioInv_click, bioInv_click in Hinv.
    rewrite negb_involutive in Hinv. by apply IH.
Qed.

Lemma bioInv_state b w' :
  bioInv w section content b w' →
  bioState w' content button =
  Some (if b then ("120px", "عرض المزيد ↓") else ("none", "عرض أقل ↑")).
Proof.
  intros (_ & _ & (nc & Hnc & Hst) & nb & Hnb & _ & Htext).
  unfold bioState. rewrite Hnc, Hnb. cbn. rewrite Hst, Htext. by destruct b.
Qed.
End bio.


(** C5 — for a biography clipped at load (content taller than 120
    units), clicking its control an even number of times gives back the
    state [initBioSection] left: the 120px cap and the "show more" label.
    An odd number of clicks leaves it uncapped with the "show less" label. *)
Theorem bio_toggle_even w section content n k :
  wellFormedb w = true →
  query w (Class "bio-section") = Some section →
  queryIn w section (Class "bio-content") = Some content →
  heap w !! content = Some n →
  120 < scrollHeight n →
  quietFrom w section "click" = true →
  let w1 := exec initBioSection w in
  let button := nextRef w in
  listenersOn w1 (Element button) "click" = [OnBioToggle content] ∧
  bioState w1 content button = Some ("120px", "عرض المزيد ↓") ∧
  bioState (run w1 (repeat (Click button) (2 * k))) content button =
    bioState w1 content button ∧
  bioState (run w1 (repeat (Click button) (2 * k + 1))) content button =
    Some ("none", "عرض أقل ↑").
Proof.
  intros Hw%wellFormedb_true Hs Hc Hn Hh Hq. cbv zeta.
  pose proof (proj2 (initBioSection_clipped w section content n Hw Hs Hc Hn Hh Hq)) as Hinv.
  destruct (bioInv_clicks w section content n Hw Hs Hc Hn Hq true k _ Hinv) as [He Hodd].
  apply bioInv_state in He, Hodd. pose proof (bioInv_state _ _ _ _ _ Hinv) as H1.
  split; [|by rewrite He, H1].
  destruct Hinv as (Hl & _). unfold listenersOn. rewrite Hl, omap_app.
  fold (listenersOn w (Element (nextRef w)) "click").
  rewrite wf_listenersOn_fresh by done. cbn. by rewrite bool_decide_eq_true_2.
Qed.

Lemma bio_toggle_even_witness :
  let w1 := exec initBioSection bioPage in
  let button := nextRef bioPage in
  listenersOn w1 (Element button) "click" = [OnBioToggle 2%nat] ∧
  bioState w1 2%nat button = Some ("120px", "عرض المزيد ↓") ∧
  bioState (run w1 (repeat (Click button) (2 * 3))) 2%nat button =
    bioState w1 2%nat button ∧
  bioState (run w1 (repeat (Click button) (2 * 3 + 1))) 2%nat button =
    Some ("none", "عرض أقل ↑").
Proof.
  apply (bio_toggle_even bioPage 1%nat 2%nat
           (Node "DIV" "" ["bio-content"] ∅ ∅ "long text" (Some 1%nat) [] 300 120 0)).
  all: try reflexivity. 
Defined.

(** * The header on scroll *)


Lemma has_class_add c n : has_class c (classList_add c n) = true.
Proof.
  unfold classList_add. destruct (has_class c n) eqn:E; [done|].
  unfold has_class. cbn. apply bool_decide_eq_true_2, elem_of_app. right. by left.
Qed.

Lemma has_class_remove c n : has_class c (classList_remove c n) = false.
Proof.
  unfold has_class, classList_remove. cbn. apply bool_decide_eq_false_2.
  intros [_ H]%list_elem_of_In%filter_In.
  by rewrite bool_decide_eq_true_2 in H.
Qed.

Lemma Qgtb_true a b : Qgtb a b = true ↔ (b < a)%Q.
Proof.
  unfold Qgtb. rewrite negb_true_iff, <- not_true_iff_false, Qle_bool_iff.
  split; [apply Qnot_le_lt|apply Qlt_not_le].
Qed.

Lemma Qgtb_false a b : Qgtb a b = false ↔ (a <= b)%Q.
Proof. unfold Qgtb. by rewrite negb_false_iff, Qle_bool_iff. Qed.

Lemma onScroll_run w header n y :
  heap w !! header = Some n → scrollY w = y →
  ∃ w', runListener (OnScroll (Some header)) (body w) (body w) w = (w', inr tt) ∧
    listeners w' = listeners w ∧ body w' = body w ∧ uncaught w' = uncaught w ∧
    lastScrollY w' = y ∧ scrollY w' = y ∧
    headerScrolled w' header = Qgtb y 10 ∧
    headerTransform w' header =
      Some (if Qgtb y (lastScrollY w) && Qgtb y 100
            then "translateY(-100%)" else "translateY(0)").
Proof.
  intros Hn <-. cbn [runListener]. rewrite run_bind_gets.
  unfold headerScrolled, headerTransform.
  destruct (Qgtb (scrollY w) 10) eqn:E1;
    destruct (Qgtb (scrollY w) (lastScrollY w) && Qgtb (scrollY w) 100) eqn:E2.
  all: eexists; split; [repeat mstep; rewrite E2; mrun|].
  all: wsimpl; repeat (split; [reflexivity|]).
  all: rewrite !lookup_insert_eq; cbn; rewrite ?lookup_insert_eq.
  all: split; [|done].
  all: first [apply has_class_add | apply has_class_remove].
Qed.

Lemma scroll_step w header n y :
  heap w !! header = Some n →
  listenersOn w Window "scroll" = [OnScroll (Some header)] →
  ∃ n', heap (step w (Scroll y)) !! header = Some n' ∧
    listenersOn (step w (Scroll y)) Window "scroll" = [OnScroll (Some header)] ∧
    uncaught (step w (Scroll y)) = uncaught w ∧
    lastScrollY (step w (Scroll y)) = y ∧
    headerScrolled (step w (Scroll y)) header = Qgtb y 10 ∧
    headerTransform (step w (Scroll y)) header =
      Some (if Qgtb y (lastScrollY w) && Qgtb y 100
            then "translateY(-100%)" else "translateY(0)").
Proof.
  intros Hn Hl. cbn [step]. unfold scrollWindow.
  assert (listenersOn (with_scrollY y w) Window "scroll" = [OnScroll (Some header)]) as -> by done.
  cbn [callListeners].
  destruct (onScroll_run (with_scrollY y w) header n y) as (w' & Hrun & Hl' & _ & Hu & Hlast & _ & Hsc & Htr);
    [done|done|].
  cbn [body with_scrollY] in *. rewrite (hostCall_ok _ _ _ Hrun).
  unfold headerScrolled in Hsc. destruct (heap w' !! header) as [n'|] eqn:Hn'.
  2:{ unfold headerTransform in Htr. by rewrite Hn' in Htr. }
  exists n'. unfold headerScrolled. rewrite Hn'. repeat split; try done.
  unfold listenersOn. by rewrite Hl'.
Qed.


Lemma last_cons_default {A} (a d : A) l : List.last (a :: l) d = List.last l a.
Proof.
  revert a d. induction l as [|b l IH]; intros a d; [done|].
  change (List.last (a :: b :: l) d) with (List.last (b :: l) d).
  by rewrite !IH.
Qed.

Lemma scrollInv_run header w0 ys : ∀ previous w,
  scrollInv header previous w0 w →
  scrollInv header (List.last ys previous) w0 (run w (map Scroll ys)).
Proof.
  induction ys as [|y ys IH]; intros previous w Hinv; [done|].
  unfold run. cbn [map foldl]. 
  rewrite last_cons_default.
  apply IH. destruct Hinv as ([n Hn] & Hl & _ & Hu).
  destruct (scroll_step w header n y Hn Hl) as (n' & Hn' & Hl' & Hu' & Hlast & _).
  split; [by eexists|]. split; [done|]. split; [done|congruence].
Qed.

Lemma initHeaderScroll_inv w0 header :
  query w0 (Class "main-header") = Some header →
  listenersOn w0 Window "scroll" = [] →
  scrollInv header (scrollY w0) w0 (exec initHeaderScroll w0).
Proof.
  intros Hq Hl. destruct (query_Some _ _ _ Hq) as (n & Hn & _).
  unfold exec, initHeaderScroll, querySelector.
  rewrite run_bind_gets, Hq, run_bind_gets, run_bind_update.
  unfold addEventListener, update. cbn [fst].
  split; [by eexists|]. split; [|done].
  unfold listenersOn in *. cbn. rewrite omap_app, Hl. done.
Qed.

(** C6 — on every scroll event the header carries the "scrolled" style
    exactly when the offset exceeds 10; it is translated off screen when
    the offset exceeds both the previous offset and 100; it is shown when
    the offset did not increase (and whenever it is at most 100).  The
    previous offset is the one of the preceding scroll event, or the
    offset at load for the first. *)
Theorem header_follows_scroll w0 header ys y :
  query w0 (Class "main-header") = Some header →
  listenersOn w0 Window "scroll" = [] →
  let w := run (exec initHeaderScroll w0) (map Scroll ys) in
  let previous := List.last ys (scrollY w0) in
  let w' := step w (Scroll y) in
  (headerScrolled w' header = true ↔ (10 < y)%Q) ∧
  ((previous < y)%Q → (100 < y)%Q →
     headerTransform w' header = Some "translateY(-100%)") ∧
  ((y <= previous)%Q → headerTransform w' header = Some "translateY(0)") ∧
  ((y <= 100)%Q → headerTransform w' header = Some "translateY(0)") ∧
  lastScrollY w' = y ∧
  uncaught w' = uncaught w0.
Proof.
  intros Hq Hl. cbv zeta.
  pose proof (scrollInv_run header w0 ys _ _ (initHeaderScroll_inv _ _ Hq Hl))
    as ([n Hn] & Hl' & Hlast & Hu).
  destruct (scroll_step _ header n y Hn Hl') as (n' & Hn' & _ & Hu' & Hlast' & Hsc & Htr).
  rewrite Hsc, Htr, Hlast, Qgtb_true.
  split; [done|]. split; [|split; [|split]].
  - intros H1%Qgtb_true H2%Qgtb_true. by rewrite H1, H2.
  - intros H1%Qgtb_false. by rewrite H1.
  - intros H2%Qgtb_false. by rewrite H2, andb_false_r.
  - split; [done|congruence].
Qed.

Lemma header_follows_scroll_witness :
  let w := run (exec initHeaderScroll headerPage) (map Scroll [50; 150]%Q) in
  let previous := List.last [50; 150]%Q (scrollY headerPage) in
  let w' := step w (Scroll 120%Q) in
  (headerScrolled w' 1 = true ↔ (10 < 120)%Q) ∧
  ((previous < 120)%Q → (100 < 120)%Q →
     headerTransform w' 1 = Some "translateY(-100%)") ∧
  ((120 <= previous)%Q → headerTransform w' 1 = Some "translateY(0)") ∧
  ((120 <= 100)%Q → headerTransform w' 1 = Some "translateY(0)") ∧
  lastScrollY w' = 120%Q ∧
  uncaught w' = uncaught headerPage.
Proof. apply (header_follows_scroll headerPage 1%nat); reflexivity. Defined.

(** * The mobile menu *)

Lemma forEach_addEventListener type l (links : list nat) w :
  forEach links (λ link, addEventListener (Element link) type l) w =
  (with_listeners (listeners w ++ map (λ link, (Element link, type, l)) links) w,
   inr tt).
Proof.
  revert w. induction links as [|link links IH]; intros w.
  - cbn. rewrite app_nil_r. by destruct w.
  - cbn [forEach map]. rewrite run_bind_addEventListener, IH. cbn.
    by rewrite <- app_assoc.
Qed.

Lemma closeMobileMenu_run w b :
  heap w !! body w = Some b →
  closeMobileMenu w =
  (with_heap (<[body w := classList_remove "nav-open" b]> (heap w)) w, inr tt).
Proof.
  intros Hb. unfold closeMobileMenu. rewrite run_bind_gets.
  rewrite run_bind_last. erewrite run_bind_write by done. done.
Qed.

Lemma toggleMobileMenu_run w b :
  heap w !! body w = Some b →
  toggleMobileMenu w =
  (with_heap (<[body w := classList_toggle "nav-open" b]> (heap w)) w, inr tt).
Proof.
  intros Hb. unfold toggleMobileMenu. rewrite run_bind_gets.
  rewrite run_bind_last. erewrite run_bind_write by done. done.
Qed.

Lemma menuOpen_closed w b :
  menuOpen (with_heap (<[body w := classList_remove "nav-open" b]> (heap w)) w) = false.
Proof.
  unfold menuOpen. cbn. rewrite lookup_insert_eq. apply has_class_remove.
Qed.

Lemma menuOpen_toggled w b :
  heap w !! body w = Some b →
  menuOpen (with_heap (<[body w := classList_toggle "nav-open" b]> (heap w)) w) =
  negb (menuOpen w).
Proof.
  intros Hb. unfold menuOpen. cbn. rewrite lookup_insert_eq, Hb.
  unfold classList_toggle. destruct (has_class "nav-open" b) eqn:E.
  - apply has_class_remove.
  - apply has_class_add.
Qed.

(** [scrollToElement] leaves the nodes alone, whether it throws or not. *)
Lemma scrollToElement_heap element w :
  heap (exec (scrollToElement element) w) = heap w ∧
  body (exec (scrollToElement element) w) = body w.
Proof.
  unfold exec, scrollToElement, querySelector, read.
  rewrite run_bind_gets. destruct (query w _) as [h|]; [|done].
  cbn [nonNull]. rewrite run_bind_ret, run_bind_assoc, run_bind_gets.
  destruct (heap w !! h); [|done]. rewrite run_bind_ret.
  rewrite run_bind_assoc, run_bind_gets.
  destruct (heap w !! element); [|done]. done.
Qed.

Lemma exec_bind_ok {A B} (m : M A) (k : A → M B) w w' a :
  m w = (w', inr a) → exec (m ≫= k) w = exec (k a) w'.
Proof. intros H. unfold exec, mbind, M_bind. by rewrite H. Qed.

(** ** Dispatch through one listener *)

Lemma listenersOn_listeners w w' t type :
  listeners w' = listeners w → listenersOn w' t type = listenersOn w t type.
Proof. unfold listenersOn. by intros ->. Qed.

(** Up to and including the first element that has a listener, a
    dispatch is that element's listeners. *)
Lemma bubble_first type target below this above ls w :
  (∀ a, a ∈ below → listenersOn w (Element a) type = []) →
  listenersOn w (Element this) type = ls →
  propagationStopped w = false →
  let w' := callListeners ls this target w in
  bubble type (below ++ this :: above) target w =
  if propagationStopped w' then w' else bubble type above target w'.
Proof.
  intros Hq Hl Hp. induction below as [|a below IH]; cbn [app bubble].
  - by rewrite Hl.
  - rewrite Hq by left. cbn [callListeners]. rewrite Hp. apply IH.
    intros b Hb. apply Hq. by right.
Qed.

Lemma pathListeners_single w target type this l :
  pathListeners w target type = [(this, l)] →
  ∃ below above,
    inclusiveAncestors (heap w) target = below ++ this :: above ∧
    (∀ a, a ∈ below ++ above → listenersOn w (Element a) type = []) ∧
    listenersOn w (Element this) type = [l].
Proof.
  unfold pathListeners. generalize (inclusiveAncestors (heap w) target).
  intros path. induction path as [|a path IH]; [done|]. cbn [flat_map].
  destruct (listenersOn w (Element a) type) as [|l1 ls] eqn:E.
  - cbn. intros (below & above & -> & Hq & Hl)%IH.
    exists (a :: below), above. split; [done|]. split; [|done].
    intros b [->|Hb]%elem_of_cons; [done|]. by apply Hq.
  - cbn. intros [= -> -> Hnil].
    apply app_eq_nil in Hnil as [Hls Hrest].
    destruct ls; [|done]. exists [], path. split; [done|]. split; [|done].
    cbn. intros b Hb.
    destruct (listenersOn w (Element b) type) as [|l2 ls2] eqn:E2; [done|].
    exfalso. apply list_elem_of_In in Hb.
    assert (In (b, l2) (flat_map (λ a, map (pair a) (listenersOn w (Element a) type)) path)).
    { apply in_flat_map. exists b. split; [done|]. rewrite E2. by left. }
    by rewrite Hrest in H.
Qed.

Lemma dispatch_single w target type this l :
  pathListeners w target type = [(this, l)] →
  listeners (hostCall (runListener l this target) (freshEvent w)) = listeners w →
  dispatch type target w = hostCall (runListener l this target) (freshEvent w).
Proof.
  intros (below & above & Hpath & Hq & Hl)%pathListeners_single Hsame.
  unfold dispatch. fold (freshEvent w). rewrite Hpath.
  rewrite (bubble_first type target below this above [l]); [| |done|done].
  2:{ intros a Ha. rewrite <- (Hq a) by (apply elem_of_app; by left). done. }
  cbn [callListeners].
  destruct (propagationStopped _); [done|].
  apply bubble_quiet. intros a Ha.
  rewrite (listenersOn_listeners w) by done.
  apply Hq, elem_of_app. by right.
Qed.

(** What a call by the host leaves of the page is what the computation
    left, whether it threw or not. *)
Lemma hostCall_exec m w :
  heap (hostCall m w) = heap (exec m w) ∧ body (hostCall m w) = body (exec m w) ∧
  listeners (hostCall m w) = listeners (exec m w) ∧
  propagationStopped (hostCall m w) = propagationStopped (exec m w).
Proof. unfold hostCall, exec. by destruct (m w) as [w' [e|[]]]. Qed.

Lemma scrollToElement_propagation element w :
  propagationStopped (exec (scrollToElement element) w) = propagationStopped w.
Proof.
  unfold exec, scrollToElement, querySelector, read.
  rewrite run_bind_gets. destruct (query w _) as [h|]; [|done].
  cbn [nonNull]. rewrite run_bind_ret, run_bind_assoc, run_bind_gets.
  destruct (heap w !! h); [|done]. rewrite run_bind_ret.
  rewrite run_bind_assoc, run_bind_gets.
  destruct (heap w !! element); [|done]. done.
Qed.

Lemma scrollToElement_listeners element w :
  listeners (exec (scrollToElement element) w) = listeners w.
Proof.
  unfold exec, scrollToElement, querySelector, read.
  rewrite run_bind_gets. destruct (query w _) as [h|]; [|done].
  cbn [nonNull]. rewrite run_bind_ret, run_bind_assoc, run_bind_gets.
  destruct (heap w !! h); [|done]. rewrite run_bind_ret.
  rewrite run_bind_assoc, run_bind_gets.
  destruct (heap w !! element); [|done]. done.
Qed.

Lemma plainFragment_length href :
  plainFragment href = true → (1 < String.length href)%nat.
Proof.
  destruct href as [|a [|c rest]]; [done| |cbn; lia].
  by destruct a as [[] [] [] [] [] [] [] []].
Qed.

(** The listener of an in-page link whose target exists closes the menu,
    also when the scrolling that follows throws. *)
Lemma anchor_closes_menu w link n href target element b :
  heap w !! body w = Some b →
  heap w !! link = Some n → attributes n !! "href" = Some href →
  (1 < String.length href)%nat →
  query w (hashSelector href) = Some element →
  let w' := hostCall (runListener OnAnchorClick link target) w in
  menuOpen w' = false ∧ listeners w' = listeners w.
Proof.
  intros Hb Hl Hh Hlen Hq w'.
  destruct (hostCall_exec (runListener OnAnchorClick link target) w)
    as (Hheap & Hbody & Hlist & _).
  unfold menuOpen. subst w'. rewrite Hheap, Hbody, Hlist. clear Hheap Hbody Hlist.
  cbn [runListener].
  unfold exec, getAttribute. erewrite run_bind_read by done. rewrite Hh.
  rewrite bool_decide_eq_true_2 by done.
  unfold querySelector, preventDefault, closeMobileMenu.
  rewrite run_bind_gets, Hq, run_bind_update, run_bind_assoc, run_bind_gets.
  erewrite run_bind_write by (cbn; done).
  match goal with |- context [(scrollToElement ?e ?W).1] =>
    fold (exec (scrollToElement e) W);
    pose proof (scrollToElement_heap e W) as [Hh' Hb'];
    pose proof (scrollToElement_listeners e W) as Hl'
  end.
  rewrite Hh', Hb', Hl'. cbn. rewrite lookup_insert_eq.
  split; [apply has_class_remove|done].
Qed.

(** Whatever its link and its target, the listener of an in-page link
    leaves the listeners and the propagation alone and does nothing to the
    nodes but remove "nav-open" from [document.body]. *)
Lemma anchor_click_fields w this target :
  let w' := hostCall (runListener OnAnchorClick this target) w in
  listeners w' = listeners w ∧ propagationStopped w' = propagationStopped w ∧
  body w' = body w ∧
  (heap w' = heap w ∨
   ∃ b, heap w !! body w = Some b ∧
        heap w' = <[body w := classList_remove "nav-open" b]> (heap w)).
Proof.
  intros w'.
  destruct (hostCall_exec (runListener OnAnchorClick this target) w)
    as (Hheap & Hbody & Hlist & Hstop).
  subst w'. rewrite Hheap, Hbody, Hlist, Hstop. clear Hheap Hbody Hlist Hstop.
  cbn [runListener]. unfold exec, getAttribute.
  destruct (heap w !! this) as [n|] eqn:Hn.
  2:{ unfold read. rewrite run_bind_assoc, run_bind_gets, Hn, run_bind_throw.
      repeat split. by left. }
  erewrite run_bind_read by done.
  destruct (attributes n !! "href") as [href|]; [|repeat split; by left].
  case_bool_decide; [|repeat split; by left].
  unfold querySelector. rewrite run_bind_gets.
  destruct (query w (hashSelector href)) as [element|];
    [|repeat split; by left].
  unfold preventDefault, closeMobileMenu.
  rewrite run_bind_update, run_bind_assoc, run_bind_gets.
  cbn [body with_defaultPrevented].
  destruct (heap w !! body w) as [b|] eqn:Hb.
  2:{ unfold write. rewrite run_bind_assoc, run_bind_gets.
      cbn [heap with_defaultPrevented]. rewrite Hb, run_bind_throw.
      repeat split. by left. }
  erewrite run_bind_write by (cbn; done).
  match goal with |- context [(scrollToElement ?e ?W).1] =>
    fold (exec (scrollToElement e) W);
    pose proof (scrollToElement_heap e W) as [Hh' Hb'];
    pose proof (scrollToElement_listeners e W) as Hl';
    pose proof (scrollToElement_propagation e W) as Hp'
  end.
  rewrite Hh', Hb', Hl', Hp'. repeat split. right. by exists b.
Qed.

(** A click on a page [w0] whose path meets only listeners of navigation
    links and of in-page links. *)
Section closing.
Variables (w0 : world) (target : nat).

Local Abbreviation allowed l := (l = OnNavLink ∨ l = OnAnchorClick).
Local Abbreviation I w :=
  (listeners w = listeners w0 ∧ propagationStopped w = false ∧
   body w = body w0 ∧ is_Some (heap w !! body w0)).
Local Abbreviation call p w := (hostCall (runListener p.2 p.1 target) w).

Lemma call_keeps p w :
  allowed p.2 → I w →
  I (call p w) ∧
  (menuOpen w = false ∨ p.2 = OnNavLink → menuOpen (call p w) = false).
Proof.
  intros Hallowed (Hl & Hp & Hb & [b Hbody]). rewrite <- Hb in Hbody.
  destruct Hallowed as [Hnav|Hanchor].
  - rewrite Hnav. cbn [runListener].
    rewrite (hostCall_ok _ _ _ (closeMobileMenu_run _ _ Hbody)).
    split; [|intros _; apply menuOpen_closed].
    cbn. rewrite <- Hb, lookup_insert_eq. eauto.
  - rewrite Hanchor.
    destruct (anchor_click_fields w p.1 target) as (Hl' & Hp' & Hb' & Hheap).
    cbv zeta in *. split.
    + rewrite Hl', Hp', Hb'. repeat split; try done. rewrite <- Hb.
      destruct Hheap as [->|(b' & _ & ->)]; [eauto|].
      rewrite lookup_insert_eq. eauto.
    + intros [Hclosed|Hnav]; [|done].
      unfold menuOpen in *. rewrite Hb'.
      destruct Hheap as [->|(b' & _ & ->)]; [done|].
      rewrite lookup_insert_eq. apply has_class_remove.
Qed.

Lemma calls_keep ps : ∀ w,
  Forall (λ p, allowed p.2) ps → I w →
  I (foldl (λ w' p, call p w') w ps) ∧
  (menuOpen w = false ∨ Exists (λ p, p.2 = OnNavLink) ps →
   menuOpen (foldl (λ w' p, call p w') w ps) = false).
Proof.
  induction ps as [|p ps IH]; intros w Hall Hw.
  - split; [done|]. intros [H|H%Exists_nil]; done.
  - apply Forall_cons in Hall as [Hp Hall]. cbn [foldl].
    destruct (call_keeps p w Hp Hw) as [Hw' Hclosed].
    destruct (IH _ Hall Hw') as [Hend Hclosed']. split; [done|].
    intros [H|[H|H]%Exists_cons]; apply Hclosed'; auto.
Qed.

Lemma callListeners_foldl ls this w :
  callListeners ls this target w =
  foldl (λ w' p, call p w') w (map (pair this) ls).
Proof. revert w. induction ls as [|l ls IH]; intros w; [done|]. apply IH. Qed.

Lemma bubble_calls path : ∀ w,
  I w →
  Forall (λ p, allowed p.2)
    (flat_map (λ a, map (pair a) (listenersOn w0 (Element a) "click")) path) →
  bubble "click" path target w =
  foldl (λ w' p, call p w') w
    (flat_map (λ a, map (pair a) (listenersOn w0 (Element a) "click")) path).
Proof.
  induction path as [|a path IH]; intros w Hw Hall; [done|].
  cbn [bubble flat_map] in *. apply Forall_app in Hall as [Ha Hall].
  rewrite foldl_app.
  rewrite (listenersOn_listeners w0 w) by apply Hw.
  rewrite callListeners_foldl.
  destruct (calls_keep _ w Ha Hw) as [Hw' _].
  pose proof Hw' as (_ & -> & _). by apply IH.
Qed.

Lemma nav_click_closes :
  is_Some (heap w0 !! body w0) →
  Forall (λ p, allowed p.2) (pathListeners w0 target "click") →
  Exists (λ p, p.2 = OnNavLink) (pathListeners w0 target "click") →
  menuOpen (dispatch "click" target w0) = false.
Proof.
  intros Hb Hall Hnav. unfold dispatch. fold (freshEvent w0).
  assert (I (freshEvent w0)) as Hw by done.
  rewrite (bubble_calls _ _ Hw Hall).
  destruct (calls_keep _ _ Hall Hw) as [_ Hclosed]. apply Hclosed. by right.
Qed.
End closing.

(** C8 — the menu's state is the class "nav-open" on [document.body]:
    toggling flips that class and touches nothing else.  [initMobileMenu]
    puts the toggle listener on the menu button and the closing listener
    on every navigation link, [initSmoothScroll] its listener on every
    in-page anchor.  A click that meets the toggle listener flips the
    menu, so it closes an open one; the menu is closed after a click that
    meets the listener of a navigation link, also when the link is an
    in-page anchor as well or lies inside one; and it is closed after a
    click that meets the listener of an in-page anchor whose href is "#"
    and an identifier naming an element of the document. *)
Theorem mobile_menu_closing w b :
  heap w !! body w = Some b →
  exec toggleMobileMenu w =
    with_heap (<[body w := classList_toggle "nav-open" b]> (heap w)) w ∧
  menuOpen (exec toggleMobileMenu w) = negb (menuOpen w) ∧
  (∀ toggle, query w (Class "menu-toggle") = Some toggle →
     listeners (exec initMobileMenu w) =
     listeners w ++ (Element toggle, "click", OnMenuToggle) ::
       map (λ link, (Element link, "click", OnNavLink))
           (queryAll w (Class "nav-link"))) ∧
  listeners (exec initSmoothScroll w) =
    listeners w ++ map (λ link, (Element link, "click", OnAnchorClick))
                       (queryAll w HashLink) ∧
  (∀ toggle target,
     pathListeners w target "click" = [(toggle, OnMenuToggle)] →
     menuOpen (step w (Click target)) = negb (menuOpen w)) ∧
  (∀ target,
     Forall (λ p, p.2 = OnNavLink ∨ p.2 = OnAnchorClick)
            (pathListeners w target "click") →
     Exists (λ p, p.2 = OnNavLink) (pathListeners w target "click") →
     menuOpen (step w (Click target)) = false) ∧
  (∀ link n href target element,
     pathListeners w target "click" = [(link, OnAnchorClick)] →
     heap w !! link = Some n → attributes n !! "href" = Some href →
     plainFragment href = true →
     query w (hashSelector href) = Some element →
     menuOpen (step w (Click target)) = false).
Proof.
  intros Hb.
  split. { unfold exec. by rewrite (toggleMobileMenu_run _ _ Hb). }
  split. { unfold exec. rewrite (toggleMobileMenu_run _ _ Hb). by apply menuOpen_toggled. }
  split.
  { intros toggle Ht. unfold exec, initMobileMenu, querySelector, querySelectorAll.
    rewrite run_bind_gets, Ht, run_bind_addEventListener, run_bind_gets.
    rewrite forEach_addEventListener. cbn. by rewrite <- app_assoc. }
  split.
  { unfold exec, initSmoothScroll, querySelectorAll.
    rewrite run_bind_gets, forEach_addEventListener. done. }
  assert (heap (freshEvent w) !! body (freshEvent w) = Some b) as Hb' by done.
  split.
  { intros toggle target Hpath. cbn [step].
    assert (runListener OnMenuToggle toggle target (freshEvent w) =
            (with_heap (<[body w := classList_toggle "nav-open" b]> (heap w))
               (freshEvent w), inr tt)) as Hrun
      by (cbn [runListener]; by rewrite (toggleMobileMenu_run _ _ Hb')).
    rewrite (dispatch_single w target "click" toggle OnMenuToggle Hpath);
      rewrite (hostCall_ok _ _ _ Hrun); [|done].
    by apply (menuOpen_toggled (freshEvent w)). }
  split.
  { intros target Hall Hnav. cbn [step]. by apply nav_click_closes. }
  intros link n href target element Hpath Hl Hh Hplain Hq. cbn [step].
  destruct (anchor_closes_menu (freshEvent w) link n href target element b
              Hb' Hl Hh (plainFragment_length _ Hplain) Hq) as [Hclosed Hsame].
  by rewrite (dispatch_single w target "click" link OnAnchorClick Hpath).
Qed.

Lemma mobile_menu_closing_witness :
  menuOpen menuPageReady = false ∧
  menuOpen menuPageOpen = true ∧
  menuOpen (step menuPageOpen (Click 2)) = false ∧
  menuOpen (step menuPageOpen (Click 3)) = false ∧
  menuOpen (step menuPageOpen (Click 4)) = false ∧
  menuOpen (step menuPageOpen (Click 5)) = false.
Proof.
  assert (heap menuPageReady !! body menuPageReady =
          Some (Node "BODY" "" [] ∅ ∅ "" None [1; 6]%nat 0 0 0)) as Hb0
    by (vm_compute; reflexivity).
  assert (heap menuPageOpen !! body menuPageOpen =
          Some (Node "BODY" "" ["nav-open"] ∅ ∅ "" None [1; 6]%nat 0 0 0)) as Hb
    by (vm_compute; reflexivity).
  pose proof (mobile_menu_closing menuPageReady _ Hb0)
    as (_ & _ & _ & _ & Hopen & _).
  pose proof (mobile_menu_closing menuPageOpen _ Hb)
    as (_ & _ & _ & _ & Htoggle & Hnav & Hanchor).
  split; [vm_compute; reflexivity|].
  split; [exact (Hopen 2%nat 2%nat ltac:(vm_compute; reflexivity))|].
  split; [exact (Htoggle 2%nat 2%nat ltac:(vm_compute; reflexivity))|].
  split; [exact (Hnav 3%nat
                   ltac:(apply (bool_decide_eq_true_1 _); vm_compute; reflexivity)
                   ltac:(apply (bool_decide_eq_true_1 _); vm_compute; reflexivity))|].
  split; [exact (Hnav 4%nat
                   ltac:(apply (bool_decide_eq_true_1 _); vm_compute; reflexivity)
                   ltac:(apply (bool_decide_eq_true_1 _); vm_compute; reflexivity))|].
  exact (Hanchor 5%nat
           (markupNode "A" "" [("href", "#about")] "Top" 1 []) "#about"
           5%nat 6%nat ltac:(vm_compute; reflexivity)
           ltac:(vm_compute; reflexivity) ltac:(vm_compute; reflexivity)
           ltac:(vm_compute; reflexivity) ltac:(vm_compute; reflexivity)).
Defined.

(** * Employee cards *)

Lemma forEach_card_listeners (cards : list nat) w :
  forEach cards (λ card,
    addEventListener (Element card) "mouseenter" OnCardEnter;;
    addEventListener (Element card) "mouseleave" OnCardLeave;;
    addEventListener (Element card) "click" OnCardClick) w =
  (with_listeners
     (listeners w ++
      flat_map (λ card, [ (Element card, "mouseenter", OnCardEnter);
                          (Element card, "mouseleave", OnCardLeave);
                          (Element card, "click", OnCardClick) ]) cards) w,
   inr tt).
Proof.
  revert w. induction cards as [|card cards IH]; intros w.
  - cbn. rewrite app_nil_r. by destruct w.
  - cbn [forEach flat_map].
    rewrite run_bind_assoc, run_bind_addEventListener.
    rewrite run_bind_assoc, run_bind_addEventListener.
    rewrite run_bind_addEventListener, IH. cbn.
    by rewrite <- !app_assoc.
Qed.

(** C7 — a click inside an employee card whose target has no link and no
    button around it sends the browser to the address the [href] of the
    card's view-profile anchor resolves to; a click on the card's contact
    button runs that
    button's listener, which stops the propagation, and nothing else: the
    card's listener does not run and the address stays.  The two [init]
    functions register these listeners on every card and on every
    contact button. *)
Theorem employee_card_click w :
  (∀ card target link n reference,
     pathListeners w target "click" = [(card, OnCardClick)] →
     closestTo w target (Tag "A") = None →
     closestTo w target (Tag "BUTTON") = None →
     queryIn w card (Class "btn-view-profile") = Some link →
     heap w !! link = Some n → tagName n = "A" →
     attributes n !! "href" = Some reference →
     localReference reference = true →
     location (step w (Click target)) = Resolved reference) ∧
  (∀ button target below above n,
     inclusiveAncestors (heap w) target = below ++ button :: above →
     Forall (λ a, listenersOn w (Element a) "click" = []) below →
     listenersOn w (Element button) "click" = [OnGridContact] →
     heap w !! button = Some n →
     step w (Click target) =
       hostCall (runListener OnGridContact button target) (freshEvent w) ∧
     propagationStopped (step w (Click target)) = true ∧
     location (step w (Click target)) = location w) ∧
  listeners (exec initEmployeeCards w) =
    listeners w ++
    flat_map (λ card, [ (Element card, "mouseenter", OnCardEnter);
                        (Element card, "mouseleave", OnCardLeave);
                        (Element card, "click", OnCardClick) ])
             (queryAll w (Class "employee-card")) ∧
  listeners (exec initGridContactButtons w) =
    listeners w ++ map (λ button, (Element button, "click", OnGridContact))
                       (queryAll w (Class "btn-contact")).
Proof.
  split; [|split; [|split]].
  - intros card target link n reference Hpath Ha Hb Hl Hn Htag Hattr _.
    cbn [step].
    assert (runListener OnCardClick card target (freshEvent w) =
            (with_location (Resolved reference) (freshEvent w), inr tt)) as Hrun.
    { cbn [runListener]. unfold closest, elementQuerySelector.
      rewrite !run_bind_gets.
      change (closestTo (freshEvent w) target) with (closestTo w target).
      rewrite Ha, Hb.
      rewrite bool_decide_eq_false_2 by (intros [[? [=]]|[? [=]]]).
      rewrite run_bind_gets.
      change (queryIn (freshEvent w) card) with (queryIn w card). rewrite Hl.
      erewrite run_bind_read by (cbn; done).
      unfold href. by rewrite Htag, Hattr. }
    rewrite (dispatch_single w target "click" card OnCardClick Hpath);
      by rewrite (hostCall_ok _ _ _ Hrun).
  - intros button target below above n Hpath Hq Hl Hn. cbn [step].
    assert (∃ w', runListener OnGridContact button target (freshEvent w) = (w', inr tt) ∧
                  propagationStopped w' = true ∧ location w' = location w)
      as (w' & Hrun & Hs & Hloc).
    { cbn [runListener]. unfold stopPropagation, animateButtonClick, consoleLog.
      eexists. split; [mrun|]. done. }
    rewrite (hostCall_ok _ _ _ Hrun).
    assert (dispatch "click" target w = w') as ->; [|done].
    unfold dispatch. fold (freshEvent w). rewrite Hpath.
    rewrite (bubble_first "click" target below button above [OnGridContact]);
      [| |done|done].
    2:{ intros a Ha. by eapply Forall_forall in Hq. }
    cbn [callListeners]. by rewrite (hostCall_ok _ _ _ Hrun), Hs.
  - unfold exec, initEmployeeCards, querySelectorAll.
    by rewrite run_bind_gets, forEach_card_listeners.
  - unfold exec, initGridContactButtons, querySelectorAll.
    by rewrite run_bind_gets, forEach_addEventListener.
Qed.
Lemma employee_card_click_witness :
  location (step gridPageReady (Click 3)) = Resolved "/employees/7/" ∧
  location (step gridPageReady (Click 5)) = location gridPageReady.
Proof.
  destruct (employee_card_click gridPageReady) as (Hcard & Hcontact & _).
  split.
  - etrans.
    + apply (Hcard 2%nat 3%nat 4%nat
               (Node "A" "" ["btn-view-profile"] {[ "href" := "/employees/7/" ]} ∅
                     "Profile" (Some 2%nat) [] 0 0 0) "/employees/7/");
        vm_compute; reflexivity.
    + reflexivity.
  - eapply (Hcontact 5%nat 5%nat [] [2; 1; 0]%nat);
      [vm_compute; reflexivity | constructor | vm_compute; reflexivity
      | vm_compute; reflexivity].
Defined.

(** * Rating stars *)

(** ** Walking down the tree *)

Lemma elem_of_flat_map {A B} (f : A → list B) l y :
  y ∈ flat_map f l ↔ ∃ x, x ∈ l ∧ y ∈ f x.
Proof.
  rewrite list_elem_of_In, in_flat_map. split.
  - intros (x & Hx & Hy). exists x. by rewrite !list_elem_of_In.
  - intros (x & Hx & Hy). exists x. by rewrite <- !list_elem_of_In.
Qed.

Lemma flat_map_ext_elem {A B} (f g : A → list B) l :
  (∀ x, x ∈ l → f x = g x) → flat_map f l = flat_map g l.
Proof.
  induction l as [|a l IH]; intros H; [done|]. cbn [flat_map].
  rewrite (H a) by left. rewrite IH; [done|]. intros x Hx. apply H. by right.
Qed.

Lemma foldr_ext_elem {A} (f g : A → string) l :
  (∀ x, x ∈ l → f x = g x) →
  foldr (λ c s, f c ++ s)%string "" l = foldr (λ c s, g c ++ s)%string "" l.
Proof.
  induction l as [|a l IH]; intros H; [done|]. cbn [foldr].
  rewrite (H a) by left. rewrite IH; [done|]. intros x Hx. apply H. by right.
Qed.

Lemma filter_ext_elem {A} (f g : A → bool) l :
  (∀ x, x ∈ l → f x = g x) → List.filter f l = List.filter g l.
Proof.
  induction l as [|a l IH]; intros H; [done|]. cbn [List.filter].
  rewrite (H a) by left. rewrite IH; [done|]. intros x Hx. apply H. by right.
Qed.

Lemma descendants_child f h r n c x :
  h !! r = Some n → c ∈ childNodes n → x ∈ c :: descendants f h c →
  x ∈ descendants (S f) h r.
Proof.
  intros Hr Hc Hx. cbn [descendants]. rewrite Hr.
  apply elem_of_flat_map. by exists c.
Qed.

(** The walk sees a node only through its list of children. *)
Lemma descendants_frame f : ∀ h h' r,
  (∀ x, x ∈ r :: descendants f h r →
        childNodes <$> h' !! x = childNodes <$> h !! x) →
  descendants f h' r = descendants f h r.
Proof.
  induction f as [|f IH]; intros h h' r Hsame; [done|].
  pose proof (Hsame r ltac:(left)) as Hr. cbn [descendants].
  destruct (h !! r) as [n|] eqn:E, (h' !! r) as [n'|] eqn:E';
    cbn in Hr; try done.
  injection Hr as Hr. rewrite Hr.
  apply flat_map_ext_elem. intros c Hc. f_equal. apply IH.
  intros x Hx. apply Hsame. right. by eapply descendants_child.
Qed.

Lemma descendants_mono f : ∀ h r x k,
  x ∈ descendants f h r → x ∈ descendants (f + k) h r.
Proof.
  induction f as [|f IH]; intros h r x k Hx; [by apply elem_of_nil in Hx|].
  cbn [descendants Nat.add] in *.
  destruct (h !! r) as [n|]; [|by apply elem_of_nil in Hx].
  apply elem_of_flat_map in Hx as (c & Hc & Hx).
  apply elem_of_flat_map. exists c. split; [done|].
  apply elem_of_cons in Hx as [->|Hx]; [by left|right]. by apply IH.
Qed.

Lemma descendants_trans f : ∀ h r x g y,
  x ∈ descendants f h r → y ∈ descendants g h x →
  y ∈ descendants (f + g) h r.
Proof.
  induction f as [|f IH]; intros h r x g y Hx Hy; [by apply elem_of_nil in Hx|].
  cbn [descendants Nat.add] in *.
  destruct (h !! r) as [n|]; [|by apply elem_of_nil in Hx].
  apply elem_of_flat_map in Hx as (c & Hc & Hx).
  apply elem_of_flat_map. exists c. split; [done|]. right.
  apply elem_of_cons in Hx as [->|Hx].
  - rewrite Nat.add_comm. by apply descendants_mono.
  - by eapply IH.
Qed.

(** The text read back depends on the own text and the children of the
    nodes below. *)
Lemma textWithin_frame f : ∀ h h' r,
  (∀ x, x ∈ r :: descendants f h r →
        (λ n, (textContent n, childNodes n)) <$> h' !! x =
        (λ n, (textContent n, childNodes n)) <$> h !! x) →
  textWithin f h' r = textWithin f h r.
Proof.
  induction f as [|f IH]; intros h h' r Hsame;
    pose proof (Hsame r ltac:(left)) as Hr; cbn [textWithin].
  - destruct (h !! r) as [n|], (h' !! r) as [n'|]; cbn in Hr; try done.
    injection Hr as Ht _. by rewrite Ht.
  - destruct (h !! r) as [n|] eqn:E, (h' !! r) as [n'|] eqn:E';
      cbn in Hr; try done.
    injection Hr as Ht Hk. rewrite Ht, Hk. f_equal.
    apply foldr_ext_elem. intros c Hc. apply IH.
    intros x Hx. apply Hsame. right. by eapply descendants_child.
Qed.

(** On a page whose children are younger than their parents, no walk is
    deeper than the number of nodes, so the fuel the queries pass is
    enough and more changes nothing. *)
Section tree.
Variables (h : gmap nat node) (N : nat).
Hypothesis Hdown :
  ∀ r n c, h !! r = Some n → c ∈ childNodes n → (r < c < N)%nat.

Lemma descendants_depth d : ∀ f r,
  (N - r ≤ d)%nat → (d ≤ f)%nat → descendants f h r = descendants d h r.
Proof.
  induction d as [|d IH]; intros f r Hr Hf.
  - destruct f as [|f]; [done|]. cbn [descendants].
    destruct (h !! r) as [n|] eqn:E; [|done].
    destruct (childNodes n) as [|c l] eqn:Ek; [done|].
    assert (c ∈ childNodes n) as Hc by (rewrite Ek; left).
    pose proof (Hdown _ _ _ E Hc). lia.
  - destruct f as [|f]; [lia|]. cbn [descendants].
    destruct (h !! r) as [n|] eqn:E; [|done].
    apply flat_map_ext_elem. intros c Hc. f_equal.
    pose proof (Hdown _ _ _ E Hc). apply IH; lia.
Qed.

Lemma descendants_fuel f f' r :
  (N ≤ f)%nat → (N ≤ f')%nat → descendants f h r = descendants f' h r.
Proof.
  intros Hf Hf'. rewrite (descendants_depth N f) by lia.
  symmetry. apply descendants_depth; lia.
Qed.

Lemma textWithin_depth d : ∀ f r,
  (N ≤ r + S d)%nat → (d ≤ f)%nat → textWithin f h r = textWithin d h r.
Proof.
  induction d as [|d IH]; intros f r Hr Hf.
  - destruct f as [|f]; [done|]. cbn [textWithin].
    destruct (h !! r) as [n|] eqn:E; [|done]. f_equal.
    destruct (childNodes n) as [|c l] eqn:Ek; [done|].
    assert (c ∈ childNodes n) as Hc by (rewrite Ek; left).
    pose proof (Hdown _ _ _ E Hc). lia.
  - destruct f as [|f]; [lia|]. cbn [textWithin].
    destruct (h !! r) as [n|] eqn:E; [|done]. f_equal.
    apply foldr_ext_elem. intros c Hc.
    pose proof (Hdown _ _ _ E Hc). apply IH; lia.
Qed.

Lemma textWithin_fuel f f' r :
  (N ≤ f)%nat → (N ≤ f')%nat → textWithin f h r = textWithin f' h r.
Proof.
  intros Hf Hf'. rewrite (textWithin_depth N f) by lia.
  symmetry. apply textWithin_depth; lia.
Qed.
End tree.

Lemma linked_downward w r n c :
  wellFormed w → linked w → heap w !! r = Some n → c ∈ childNodes n →
  (r < c < nextRef w)%nat.
Proof.
  intros Hw Hl Hr Hc. apply Hl in Hr. rewrite Forall_forall in Hr.
  apply Hr in Hc. destruct (heap w !! c) as [nc|] eqn:E; [|done]. cbn in Hc.
  split; [by eapply (wf_ordered _ Hw)|by eapply wf_lt].
Qed.

(** ** One rating element *)

Lemma detach_idemp n :
  with_parentNode None (with_parentNode None n) = with_parentNode None n.
Proof. done. Qed.

(** Detaching a list of nodes: only the parent links of these nodes
    change, nothing is created and nothing disappears. *)
Lemma forEach_detach (kids : list nat) w :
  Forall (λ c, is_Some (heap w !! c)) kids →
  ∃ h', forEach kids (λ c, write c (with_parentNode None)) w =
          (with_heap h' w, inr tt) ∧
        ∀ r, h' !! r = heap w !! r ∨
             (r ∈ kids ∧
              ∃ n, heap w !! r = Some n ∧ h' !! r = Some (with_parentNode None n)).
Proof.
  revert w. induction kids as [|k kids IH]; intros w Hk.
  - exists (heap w). split; [by destruct w|]. by left.
  - apply Forall_cons in Hk as [[n Hn] Hk]. cbn [forEach].
    erewrite run_bind_write by done.
    destruct (IH (with_heap (<[k := with_parentNode None n]> (heap w)) w))
      as (h' & Hrun & Hh').
    { cbn. eapply Forall_impl; [exact Hk|]. intros c [nc Hc]. cbn.
      rewrite lookup_insert. case_decide; eauto. }
    exists h'. split; [by rewrite Hrun|].
    intros r. destruct (Hh' r) as [Hr|(Hin & n' & Hr & Hr')]; cbn in *.
    + rewrite lookup_insert in Hr. case_decide; simplify_eq; [|by left].
      right. split; [left|]. eauto.
    + rewrite lookup_insert in Hr. case_decide; simplify_eq.
      * right. split; [left|]. eauto.
      * right. split; [by right|]. eauto.
Qed.

Lemma clearChildren_run r w n :
  heap w !! r = Some n →
  Forall (λ c, is_Some (heap w !! c)) (childNodes n) →
  ∃ h' n', clearChildren r w = (with_heap h' w, inr tt) ∧
    h' !! r = Some n' ∧ childNodes n' = [] ∧
    (∀ x, x ≠ r →
       h' !! x = heap w !! x ∨
       (x ∈ childNodes n ∧
        ∃ nx, heap w !! x = Some nx ∧ h' !! x = Some (with_parentNode None nx))).
Proof.
  intros Hn Hkids. unfold clearChildren. erewrite run_bind_read by done.
  destruct (forEach_detach (childNodes n) w Hkids) as (h1 & Hrun & Hh1).
  unfold mbind at 1, M_bind at 1. rewrite Hrun.
  assert (∃ n1, h1 !! r = Some n1) as [n1 Hn1].
  { destruct (Hh1 r) as [Hr|(_ & ? & _ & Hr)]; rewrite Hr; eauto. }
  rewrite run_bind_last. erewrite run_bind_write by (cbn; done).
  eexists _, _. split; [by destruct w|]. cbn.
  split; [apply lookup_insert_eq|]. split; [done|].
  intros x Hx. rewrite lookup_insert_ne by congruence. apply Hh1.
Qed.

Lemma words_if (b : bool) s1 s2 :
  String.words (if b then s1 else s2) =
  if b then String.words s1 else String.words s2.
Proof. by destruct b. Qed.

(** What rendering one rating element does to the page: five fresh stars
    under the container, the container's former children detached, every
    other node as it was. *)
Lemma renderRating_step parseFloat w e v c nc :
  (∀ x, (nextRef w ≤ x)%nat → heap w !! x = None) →
  queryIn w e (Class "rating-value") = Some v →
  queryIn w e (Class "rating-stars") = Some c →
  heap w !! c = Some nc →
  Forall (λ k, is_Some (heap w !! k)) (childNodes nc) →
  let R := or_zero (parseFloat (textOf w v)) in
  ∃ w', renderRating parseFloat e w = (w', inr tt) ∧
    nextRef w' = (nextRef w + 5)%nat ∧
    (∀ x, (nextRef w + 5 ≤ x)%nat → heap w' !! x = None) ∧
    (∀ x, x ≠ c → (x < nextRef w)%nat →
       heap w' !! x = heap w !! x ∨
       (x ∈ childNodes nc ∧
        ∃ n, heap w !! x = Some n ∧
             heap w' !! x = Some (with_parentNode None n))) ∧
    renderedAt (nextRef w) w' 0 c R.
Proof.
  intros Hfresh Hv Hc Hnc Hkids R.
  destruct (queryIn_Some _ _ _ _ Hv) as (nv & Hnv & _).
  assert (c < nextRef w)%nat as Hlt.
  { destruct (decide (nextRef w ≤ c)%nat) as [Hle|]; [|lia].
    by rewrite (Hfresh _ Hle) in Hnc. }
  destruct (clearChildren_run c w nc Hnc Hkids)
    as (h' & nc' & Hclear & Hnc' & Hnone & Hframe).
  assert (∀ x, (nextRef w ≤ x)%nat → h' !! x = None) as Hf.
  { intros x Hx. destruct (Hframe x ltac:(lia)) as [->|(_ & n & Hn & _)].
    - by apply Hfresh.
    - by rewrite (Hfresh _ Hx) in Hn. }
  pose proof (Hf (nextRef w) ltac:(lia)) as Hf0.
  pose proof (Hf (S (nextRef w)) ltac:(lia)) as Hf1.
  pose proof (Hf (S (S (nextRef w))) ltac:(lia)) as Hf2.
  pose proof (Hf (S (S (S (nextRef w)))) ltac:(lia)) as Hf3.
  pose proof (Hf (S (S (S (S (nextRef w))))) ltac:(lia)) as Hf4.
  unfold renderedAt, starsOf. cbn [map].
  replace (nextRef w + 5 * 0 + 0)%nat with (nextRef w) by lia.
  replace (nextRef w + 5 * 0 + 1)%nat with (S (nextRef w)) by lia.
  replace (nextRef w + 5 * 0 + 2)%nat with (S (S (nextRef w))) by lia.
  replace (nextRef w + 5 * 0 + 3)%nat with (S (S (S (nextRef w)))) by lia.
  replace (nextRef w + 5 * 0 + 4)%nat with (S (S (S (S (nextRef w))))) by lia.
  eexists. split.
  { unfold renderRating, elementQuerySelector, getTextContent, setInnerHTML,
      appendStar.
    rewrite run_bind_gets, Hv. wsimpl. rewrite run_bind_ret.
    rewrite run_bind_assoc. erewrite run_bind_read by done.
    rewrite run_bind_gets. fold R. rewrite run_bind_gets, Hc.
    rewrite !run_bind_assoc. unfold mbind at 1, M_bind at 1. rewrite Hclear.
    mrun. }
  wsimpl. split; [lia|]. split.
  { intros x Hx. rewrite !lookup_insert_ne by lia. apply Hf. lia. }
  split.
  { intros x Hx Hlt'. rewrite !lookup_insert_ne by lia. by apply Hframe. }
  split.
  { repeat first [ rewrite lookup_insert_eq | rewrite lookup_insert_ne by lia ].
    cbn. by rewrite Hnone. }
  unfold starNode. rewrite !words_if.
  intros i Hi. replace (nextRef w + 5 * 0 + i)%nat with (i + nextRef w)%nat by lia.
  destruct i as [|[|[|[|[|i]]]]]; [| | | | |lia]; cbn [Nat.add]; hlookup.
Qed.

Lemma int_le_spec i x : int_le i x = true ↔ number_le i x.
Proof. destruct x; cbn; [done| apply Qle_bool_iff |done|done]. Qed.

Lemma int_le_floor i q : int_le i (Finite q) = (i <=? Qfloor q).
Proof.
  cbn. apply eq_true_iff_eq. rewrite Qle_bool_iff, Z.leb_le. split.
  - intros H%Qfloor_resp_le. by rewrite Qfloor_Z in H.
  - intros H. eapply Qle_trans; [|apply Qfloor_le]. by rewrite <- Zle_Qle.
Qed.

Lemma has_class_filled c x i :
  has_class "filled" (starNode c x i) = int_le i x.
Proof. unfold starNode, has_class. cbn. by destruct (int_le i x). Qed.

(** Stars are filled from the left: the filled ones are the first
    [starCount x]. *)
Lemma filled_prefix {A} (x : number) (r1 r2 r3 r4 r5 : A) :
  map snd (List.filter (λ p, int_le p.1 x)
             [(1, r1); (2, r2); (3, r3); (4, r4); (5, r5)]) =
  take (starCount x) [r1; r2; r3; r4; r5].
Proof.
  destruct x as [|q| |]; try reflexivity.
  cbn [List.filter fst]. rewrite !int_le_floor. unfold starCount.
  destruct (Z.leb_spec 1 (Qfloor q)), (Z.leb_spec 2 (Qfloor q)),
    (Z.leb_spec 3 (Qfloor q)), (Z.leb_spec 4 (Qfloor q)),
    (Z.leb_spec 5 (Qfloor q)); try lia.
  - replace (Z.to_nat _) with 5%nat by lia. done.
  - replace (Z.to_nat _) with 4%nat by lia. done.
  - replace (Z.to_nat _) with 3%nat by lia. done.
  - replace (Z.to_nat _) with 2%nat by lia. done.
  - replace (Z.to_nat _) with 1%nat by lia. done.
  - replace (Z.to_nat _) with 0%nat by lia. done.
Qed.


(** ** All the ratings of a page *)

Lemma descendants_heap w f : ∀ r x,
  wellFormed w → x ∈ descendants f (heap w) r → is_Some (heap w !! x).
Proof.
  induction f as [|f IH]; intros r x Hw Hx; [by apply elem_of_nil in Hx|].
  cbn [descendants] in Hx.
  destruct (heap w !! r) as [n|] eqn:E; [|by apply elem_of_nil in Hx].
  apply elem_of_flat_map in Hx as (c & Hc & Hx).
  apply elem_of_cons in Hx as [->|Hx]; [|by eapply IH].
  destruct Hw as (Hn & _). apply Hn in E as (_ & _ & Hk).
  rewrite Forall_forall in Hk. by apply Hk.
Qed.

Lemma queryIn_descendant w root sel r :
  queryIn w root sel = Some r → r ∈ descendants (nextRef w) (heap w) root.
Proof. intros H. by apply head_filter_selects in H as [H _]. Qed.

Lemma matches_detach sel n : matches sel (with_parentNode None n) = matches sel n.
Proof. by destruct sel. Qed.

Lemma starsOf_shift first i : starsOf (first + 5 * i) 0 = starsOf first i.
Proof. unfold starsOf. apply map_ext. intros a. lia. Qed.

Section ratings.
Variables (parseFloat : string → number) (w0 : world).
Hypothesis Hw : wellFormed w0.
Hypothesis Hl : linked w0.
Hypothesis Hapart : ratingsApart w0 = true.

Local Abbreviation N := (nextRef w0).
Local Abbreviation ratings := (queryAll w0 (Class "employee-rating")).
Local Abbreviation Inv := (ratingsInv parseFloat w0).

Lemma apart_spec j e :
  ratings !! j = Some e →
  ∃ v c,
    queryIn w0 e (Class "rating-value") = Some v ∧
    queryIn w0 e (Class "rating-stars") = Some c ∧
    ∀ k e', ratings !! k = Some e' → j ≠ k →
            c ∉ e' :: descendants N (heap w0) e'.
Proof.
  intros Hj. pose proof Hapart as H. unfold ratingsApart in H.
  rewrite forallb_forall in H.
  assert (In (j, e) (imap pair ratings)) as Hin.
  { apply list_elem_of_In, elem_of_lookup_imap. by exists j, e. }
  apply H in Hin. cbn beta iota in Hin.
  destruct (queryIn w0 e (Class "rating-value")) as [v|]; [|done].
  destruct (queryIn w0 e (Class "rating-stars")) as [c|]; [|done].
  exists v, c. split; [done|]. split; [done|]. intros k e' Hk Hne.
  rewrite forallb_forall in Hin.
  assert (In (k, e') (imap pair ratings)) as Hin'.
  { apply list_elem_of_In, elem_of_lookup_imap. by exists k, e'. }
  apply Hin in Hin'. cbn beta iota in Hin'.
  rewrite bool_decide_eq_false_2 in Hin' by done. cbn in Hin'.
  apply negb_true_iff in Hin'. unfold inside in Hin'.
  by apply bool_decide_eq_false_1 in Hin'.
Qed.

Lemma down0 r n c :
  heap w0 !! r = Some n → c ∈ childNodes n → (r < c < N)%nat.
Proof. by apply linked_downward. Qed.

Lemma inv_start : Inv 0%nat w0.
Proof.
  split; [lia|]. split; [intros x Hx; by apply wf_fresh|]. split; [done|].
  split; [intros x n Hx _; by left|]. intros j e v c Hj. lia.
Qed.

(** The subtree of a rating element that is still to be rendered is as
    it was when the loop began. *)
Lemma region_same i w k e x :
  Inv i w → ratings !! k = Some e → (i ≤ k)%nat →
  x ∈ e :: descendants N (heap w0) e →
  ∃ n, heap w0 !! x = Some n ∧
       (heap w !! x = Some n ∨ heap w !! x = Some (with_parentNode None n)).
Proof.
  intros (_ & _ & _ & Hold & _) Hk Hik Hx.
  assert (is_Some (heap w0 !! x)) as [n Hn].
  { apply elem_of_cons in Hx as [->|Hx]; [|by eapply descendants_heap].
    apply list_elem_of_lookup_2 in Hk.
    apply queryAll_elem in Hk as (n & Hn & _). eauto. }
  exists n. split; [done|]. apply Hold; [done|].
  intros j e' Hj He' Hc.
  destruct (apart_spec j e' He') as (v & c & _ & Hc' & Hout).
  rewrite Hc in Hc'. injection Hc' as <-.
  apply (Hout k e Hk); [lia|done].
Qed.

Lemma region_descendants i w k e :
  Inv i w → ratings !! k = Some e → (i ≤ k)%nat →
  descendants (nextRef w) (heap w) e = descendants N (heap w0) e.
Proof.
  intros Hinv Hk Hik.
  assert (N ≤ nextRef w)%nat as HN by (destruct Hinv as (-> & _); lia).
  rewrite <- (descendants_fuel (heap w0) N down0 (nextRef w) N e) by lia.
  apply descendants_frame. intros x Hx.
  rewrite (descendants_fuel (heap w0) N down0 (nextRef w) N e) in Hx by lia.
  destruct (region_same i w k e x Hinv Hk Hik Hx) as (n & -> & [->| ->]); done.
Qed.

Lemma region_queries i w k e sel :
  Inv i w → ratings !! k = Some e → (i ≤ k)%nat →
  queryIn w e sel = queryIn w0 e sel.
Proof.
  intros Hinv Hk Hik. unfold queryIn, queryAllIn.
  rewrite (region_descendants i w k e Hinv Hk Hik). f_equal.
  apply filter_ext_elem. intros x Hx. unfold selects.
  destruct (region_same i w k e x Hinv Hk Hik ltac:(by right))
    as (n & -> & [->| ->]); [done|]. apply matches_detach.
Qed.

Lemma region_text i w k e v :
  Inv i w → ratings !! k = Some e → (i ≤ k)%nat →
  v ∈ descendants N (heap w0) e →
  textOf w v = textOf w0 v.
Proof.
  intros Hinv Hk Hik Hv. unfold textOf.
  assert (N ≤ nextRef w)%nat as HN by (destruct Hinv as (-> & _); lia).
  rewrite <- (textWithin_fuel (heap w0) N down0 (nextRef w) N v) by lia.
  apply textWithin_frame. intros x Hx.
  assert (x ∈ e :: descendants N (heap w0) e) as Hx'.
  { right. apply elem_of_cons in Hx as [->|Hx]; [done|].
    rewrite (descendants_fuel (heap w0) N down0 N (N + nextRef w) e) by lia.
    by eapply descendants_trans. }
  destruct (region_same i w k e x Hinv Hk Hik Hx') as (n & -> & [->| ->]); done.
Qed.

Lemma inv_step i w e :
  Inv i w → ratings !! i = Some e →
  ∃ w', renderRating parseFloat e w = (w', inr tt) ∧ Inv (S i) w'.
Proof.
  intros Hinv Hi.
  destruct (apart_spec i e Hi) as (v & c & Hv & Hc & Hout).
  pose proof (region_queries i w i e (Class "rating-value") Hinv Hi (le_n _)) as Hqv.
  pose proof (region_queries i w i e (Class "rating-stars") Hinv Hi (le_n _)) as Hqc.
  rewrite Hv in Hqv. rewrite Hc in Hqc.
  pose proof (queryIn_descendant _ _ _ _ Hv) as Hvd.
  pose proof (queryIn_descendant _ _ _ _ Hc) as Hcd.
  pose proof (region_text i w i e v Hinv Hi (le_n _) Hvd) as Htext.
  destruct (region_same i w i e c Hinv Hi (le_n _) ltac:(by right))
    as (n & Hn & Hcw).
  pose proof Hinv as (Hnext & Hfresh & Hkeep & Hold & Hdone).
  assert (∃ nc, heap w !! c = Some nc ∧ childNodes nc = childNodes n)
    as (nc & Hnc & Hkn) by (destruct Hcw; eauto).
  assert (Forall (λ k, is_Some (heap w !! k)) (childNodes nc)) as Hkids.
  { rewrite Hkn. destruct Hw as (Hnodes & _).
    apply Hnodes in Hn as (_ & _ & Hk).
    eapply Forall_impl; [exact Hk|]. intros x Hx. by apply Hkeep. }
  destruct (renderRating_step parseFloat w e v c nc Hfresh Hqv Hqc Hnc Hkids)
    as (w' & Hrun & Hnext' & Hfresh' & Hframe & Hstars).
  pose proof (wf_lt _ _ _ Hw Hn) as HcN.
  assert (∀ x, is_Some (heap w !! x) → (x < nextRef w)%nat) as Hlt.
  { intros x [nx Hx]. destruct (decide (nextRef w ≤ x)%nat) as [Hle|]; [|lia].
    by rewrite (Hfresh _ Hle) in Hx. }
  exists w'. split; [done|].
  split; [lia|]. split; [intros x Hx; apply Hfresh'; lia|]. split.
  { intros x Hx%Hkeep. destruct (decide (x = c)) as [->|Hne].
    - destruct Hstars as [Hs _]. destruct (heap w' !! c); [eauto|done].
    - destruct (Hframe x Hne (Hlt _ Hx)) as [->|(_ & nx & _ & ->)]; eauto. }
  split.
  { intros x nx Hx Hnot.
    assert (x ≠ c) as Hne.
    { intros ->. by apply (Hnot i e (le_n _) Hi). }
    assert (heap w !! x = Some nx ∨ heap w !! x = Some (with_parentNode None nx))
      as Hxw.
    { apply Hold; [done|]. intros j e' Hj. apply Hnot. lia. }
    assert (is_Some (heap w !! x)) as Hsome by (destruct Hxw as [->| ->]; eauto).
    destruct (Hframe x Hne (Hlt _ Hsome)) as [->|(_ & nx' & Hnx' & ->)];
      [done|].
    right. destruct Hxw as [Hxw|Hxw]; rewrite Hxw in Hnx'; by injection Hnx' as <-. }
  intros j e' v' c' Hj He' Hv' Hc'.
  destruct (decide (j = i)) as [->|Hji].
  - rewrite Hi in He'. injection He' as <-.
    rewrite Hv in Hv'. injection Hv' as <-.
    rewrite Hc in Hc'. injection Hc' as <-.
    destruct Hstars as [Hs1 Hs2]. rewrite Htext in Hs2. split.
    + rewrite Hs1, Hnext. f_equal. apply starsOf_shift.
    + intros a Ha. specialize (Hs2 a Ha). rewrite Hnext in Hs2.
      by replace (N + 5 * i + 5 * 0 + a)%nat with (N + 5 * i + a)%nat in Hs2 by lia.
  - destruct (Hdone j e' v' c' ltac:(lia) He' Hv' Hc') as [Hd1 Hd2].
    assert (c' ≠ c) as Hne.
    { intros ->. destruct (apart_spec j e' He') as (? & c2 & _ & Hc2 & Hout').
      rewrite Hc' in Hc2. injection Hc2 as <-.
      apply (Hout' i e Hi Hji). by right. }
    assert (is_Some (heap w !! c')) as Hsome
      by (destruct (heap w !! c'); [eauto|done]).
    split.
    + destruct (Hframe c' Hne (Hlt _ Hsome)) as [->|(_ & nx & Hnx & ->)];
        [done|]. by rewrite Hnx in Hd1.
    + intros a Ha. specialize (Hd2 a Ha).
      destruct (Hframe (N + 5 * j + a)%nat ltac:(lia) ltac:(lia))
        as [->|(Hin & _)]; [done|].
      rewrite Hkn in Hin. destruct Hw as (Hnodes & _).
      pose proof (Hnodes _ _ Hn) as (_ & _ & Hk).
      rewrite Forall_forall in Hk. apply Hk in Hin as [ns Hns].
      apply Hnodes in Hns as (? & _). lia.
Qed.

Lemma inv_loop n : ∀ i w,
  length ratings = (i + n)%nat → Inv i w →
  ∃ w', forEach (drop i ratings) (renderRating parseFloat) w = (w', inr tt) ∧
        Inv (length ratings) w'.
Proof.
  induction n as [|n IH]; intros i w Hlen Hinv.
  - rewrite drop_ge by lia. exists w. split; [done|].
    by replace (length ratings) with i by lia.
  - destruct (lookup_lt_is_Some_2 ratings i ltac:(lia)) as [e He].
    rewrite (drop_S _ _ _ He). cbn [forEach].
    destruct (inv_step i w e Hinv He) as (w1 & Hrun & Hinv1).
    unfold mbind, M_bind. rewrite Hrun.
    apply IH; [lia|done].
Qed.
End ratings.



(** * Missing elements *)

(** Where the script guards a lookup, a missing element is skipped. *)
Lemma initBioSection_no_section w :
  query w (Class "bio-section") = None → initBioSection w = (w, inr tt).
Proof.
  intros Hq. unfold initBioSection, querySelector. by rewrite run_bind_gets, Hq.
Qed.

Lemma initMobileMenu_no_toggle w :
  query w (Class "menu-toggle") = None → initMobileMenu w = (w, inr tt).
Proof.
  intros Hq. unfold initMobileMenu, querySelector. by rewrite run_bind_gets, Hq.
Qed.

(** Where it does not, the property access on [null] throws. *)
Lemma initBioSection_no_content w section :
  query w (Class "bio-section") = Some section →
  queryIn w section (Class "bio-content") = None →
  initBioSection w = (w, inl (TypeError "scrollHeight")).
Proof.
  intros Hs Hc. unfold initBioSection, querySelector, elementQuerySelector.
  by rewrite run_bind_gets, Hs, run_bind_gets, Hc.
Qed.

Lemma scrollToElement_no_header w element :
  query w (Class "main-header") = None →
  scrollToElement element w = (w, inl (TypeError "offsetHeight")).
Proof.
  intros Hq. unfold scrollToElement, querySelector. by rewrite run_bind_gets, Hq.
Qed.

Lemma onScroll_no_header w this target :
  ∃ what, runListener (OnScroll None) this target w = (w, inl (TypeError what)).
Proof.
  cbn [runListener]. rewrite run_bind_gets.
  destruct (Qgtb (scrollY w) 10); by eexists.
Qed.

(** C2 — the claim fails on the code.  On a page whose biography section
    has no content element [initBioSection] throws; on a page without the
    header element every scroll event and every smooth-scroll click ends
    in an uncaught TypeError. *)
Theorem missing_element_throws :
  initBioSection bareBioPage = (bareBioPage, inl (TypeError "scrollHeight")) ∧
  query headerlessPage (Class "main-header") = None ∧
  uncaught (step headerlessPageReady (Scroll 50)) = [TypeError "classList"] ∧
  uncaught (step headerlessPageReady (Click 1)) = [TypeError "offsetHeight"].
Proof. repeat split; vm_compute; reflexivity. Qed.

(** * Toasts and the sweep at load *)

(** C3 — the claim fails on the code.  The visitor clicks the disabled
    contact control 4.9s after load; the toast this shows (node 4) is then
    caught by the sweep [initToastSystem] armed at load, which fires at 5s,
    and is gone at 5.3s: 400ms after it was created, its close control
    untouched and its own five-second timer still pending. *)
Theorem toast_swept_early :
  let shown := run profilePageReady [Wait 4900; Click 2] in
  let swept := run shown [Wait 100; Fire; Wait 300; Fire] in
  clock shown = 4900 ∧
  (classList <$> heap shown !! 4%nat) = Some ["toast"; "info"] ∧
  isConnected shown 4 = true ∧
  timers shown = [(5000, SweepToasts); (9900, ExpireToast 4)] ∧
  clock swept = 5300 ∧
  isConnected swept 4 = false ∧
  timers swept = [(9900, ExpireToast 4)] ∧
  uncaught swept = [].
Proof. repeat split; vm_compute; reflexivity. Qed.

(** The same click once the sweep has passed: the toast stays for its five
    seconds and leaves 300ms after its own timer fired. *)
Example toast_lifetime_after_sweep :
  let shown := run profilePageReady [Wait 5000; Fire; Wait 1000; Click 2] in
  let kept := run shown [Wait 4999; Fire] in
  let expired := run kept [Wait 1; Fire] in
  let removed := run expired [Wait 300; Fire] in
  clock shown = 6000 ∧ isConnected shown 4 = true ∧
  clock kept = 10999 ∧ isConnected kept 4 = true ∧
  timers kept = [(11000, ExpireToast 4)] ∧
  clock expired = 11000 ∧ isConnected expired 4 = true ∧
  timers expired = [(11300, RemoveToast 4)] ∧
  clock removed = 11300 ∧ isConnected removed 4 = false.
Proof. repeat split; vm_compute; reflexivity. Qed.

(** * The portfolio modal *)

Lemma wf_sound w : wellFormed w → sound w.
Proof.
  intros Hw. split; [intros r; by apply wf_fresh|].
  split; [by apply wf_ordered|]. split; [by apply wf_body|].
  split; [intros r type; by apply wf_listenersOn_fresh|].
  destruct Hw as (_ & _ & Ht & _). eapply Forall_impl; [exact Ht|].
  intros [due cb] Hcb r Hr. cbn in *.
  destruct cb; simplify_eq/=; by apply Forall_cons in Hcb as [? _].
Qed.

Lemma queryIn_first_child w r n c rest nc sel :
  heap w !! r = Some n → childNodes n = c :: rest →
  heap w !! c = Some nc → matches sel nc = true → (0 < nextRef w)%nat →
  queryIn w r sel = Some c.
Proof.
  intros Hr Hkids Hc Hm Hf. unfold queryIn, queryAllIn.
  destruct (nextRef w) as [|f]; [lia|].
  erewrite descendants_S by done. rewrite Hkids. cbn [flat_map app List.filter].
  by rewrite (selects_Some _ _ _ _ Hc), Hm.
Qed.

(** The close button is the first ".modal-close" under the modal: it
    comes after the content, the header and the title, none of which
    carries that class. *)
Lemma queryIn_modal_close w m c hd t x nm nc nhd nt nx rest :
  heap w !! m = Some nm → childNodes nm = [c] →
  heap w !! c = Some nc → childNodes nc = hd :: rest →
  heap w !! hd = Some nhd → childNodes nhd = [t; x] →
  heap w !! t = Some nt → childNodes nt = [] →
  heap w !! x = Some nx →
  classList nc = ["modal-content"] → classList nhd = ["modal-header"] →
  classList nt = [] → classList nx = ["modal-close"] →
  (4 ≤ nextRef w)%nat →
  queryIn w m (Class "modal-close") = Some x.
Proof.
  intros Hm Hmk Hc Hck Hhd Hhdk Ht Htk Hx Hcc Hhc Htc Hxc Hf.
  unfold queryIn, queryAllIn.
  destruct (nextRef w) as [|[|[|[|f]]]]; try lia.
  erewrite descendants_S by done. rewrite Hmk. cbn [flat_map app].
  erewrite descendants_S by done. rewrite Hck. cbn [flat_map app].
  erewrite descendants_S by done. rewrite Hhdk. cbn [flat_map app].
  erewrite descendants_S by done. rewrite Htk. cbn [flat_map app List.filter].
  rewrite (selects_Some _ _ _ _ Hc), (selects_Some _ _ _ _ Hhd),
    (selects_Some _ _ _ _ Ht), (selects_Some _ _ _ _ Hx).
  cbn [matches]. unfold has_class. rewrite Hcc, Hhc, Htc, Hxc. done.
Qed.

Lemma openPortfolioModal_opened w0 imageSrc title description :
  sound w0 →
  ∃ w1, openPortfolioModal imageSrc title description w0 = (w1, inr tt) ∧
        opened w0 w1.
Proof.
  intros (Hfresh & Ho & (b & Hb & Hbp) & Hl & Ht).
  assert (body w0 < nextRef w0)%nat as Hblt.
  { destruct (decide (body w0 < nextRef w0)%nat); [done|].
    rewrite Hfresh in Hb by lia. done. }
  pose proof (Hfresh (nextRef w0) (le_n _)) as H0.
  pose proof (Hfresh (S (nextRef w0)) ltac:(lia)) as H1.
  pose proof (Hfresh (S (S (nextRef w0))) ltac:(lia)) as H2.
  pose proof (Hfresh (S (S (S (nextRef w0)))) ltac:(lia)) as H3.
  pose proof (Hfresh (S (S (S (S (nextRef w0))))) ltac:(lia)) as H4.
  pose proof (Hfresh (S (S (S (S (S (nextRef w0)))))) ltac:(lia)) as H5.
  pose proof (Hfresh (S (S (S (S (S (S (nextRef w0))))))) ltac:(lia)) as H6.
  pose proof (Hfresh (S (S (S (S (S (S (S (nextRef w0)))))))) ltac:(lia)) as H7.
  set (Q := λ r : world * (exn + unit), r.2 = inr tt ∧ opened w0 r.1).
  enough (Q (openPortfolioModal imageSrc title description w0)) as HQ.
  { destruct (openPortfolioModal _ _ _ _) as [w1 [e|[]]]; destruct HQ as [? ?];
      [done|by exists w1]. }
  unfold openPortfolioModal, createModal, setInnerHTML, elementQuerySelector.
  repeat mstep.
  destruct (bool_decide (description = "")); wsimpl; repeat mstep.
  all: erewrite queryIn_modal_close;
    [| hlookup | reflexivity | hlookup | reflexivity | hlookup | reflexivity
     | hlookup | reflexivity | hlookup | reflexivity | reflexivity
     | reflexivity | reflexivity | cbn; lia ].
  all: wsimpl; repeat mstep.
  all: unfold addEventListener, update; cbn beta; wsimpl.
  all: subst Q; cbn beta; split; [reflexivity|]; cbn [fst].
  all: unfold opened; cbn [nextRef body listeners timers heap].
  all: split; [lia|]; split; [reflexivity|].
  all: split; [by rewrite <- app_assoc|]; split; [reflexivity|].
  all: split; [intros r Hr; rewrite !lookup_insert_ne by lia;
               apply Hfresh; lia|].
  all: split.
  1,3: intros r Hr; rewrite !lookup_insert; repeat case_decide; try lia;
       [subst r; rewrite Hb; by constructor
       |destruct (heap w0 !! r); by constructor].
  all: split.
  1,3: intros r n Hr Hn; rewrite !lookup_insert in Hn;
       repeat case_decide; try lia; simplify_eq;
       try (rewrite Hfresh in Hn by lia; discriminate);
       cbn [classList parentNode];
       (split; [intros Hin%list_elem_of_In; cbn in Hin; intuition discriminate|]);
       (split; [intros Hin%list_elem_of_In; cbn in Hin; intuition discriminate|]);
       eexists; (split; [reflexivity|lia]).
  all: split;
    [erewrite queryIn_modal_close;
     [ reflexivity | hlookup | reflexivity | hlookup | reflexivity | hlookup
     | reflexivity | hlookup | reflexivity | hlookup | reflexivity | reflexivity
     | reflexivity | reflexivity | cbn; lia ]|].
  all: repeat split; eexists; (split; [hlookup|done]).
Qed.

(** ** Hoare rules *)

Lemma triple_ret {A} E (P : world → Prop) (a : A) (Q : A → world → Prop) :
  (∀ w, P w → Q a w) → triple E P (mret a) Q.
Proof. intros H w Hw. by apply H. Qed.

Lemma triple_bind {A B} E P (m : M A) (k : A → M B) Q R :
  triple E P m Q → (∀ a, triple E (Q a) (k a) R) → triple E P (m ≫= k) R.
Proof.
  intros Hm Hk w Hw. specialize (Hm w Hw). unfold mbind, M_bind.
  destruct (m w) as [w' [e|a]]; [done|]. by apply Hk.
Qed.

Lemma triple_gets {A} E P (f : world → A) (Q : A → world → Prop) :
  (∀ w, P w → Q (f w) w) → triple E P (gets f) Q.
Proof. intros H w Hw. by apply H. Qed.

Lemma triple_update E P (f : world → world) (Q : unit → world → Prop) :
  (∀ w, P w → Q tt (f w)) → triple E P (update f) Q.
Proof. intros H w Hw. by apply H. Qed.

Lemma triple_throw {A} (E P : world → Prop) e (Q : A → world → Prop) :
  (∀ w, P w → E w) → triple E P (throw e) Q.
Proof. intros H w Hw. by apply H. Qed.

Lemma triple_read {A} (E P : world → Prop) r (f : node → A) (Q : A → world → Prop) :
  (∀ w, P w → E w) →
  (∀ w n, P w → heap w !! r = Some n → Q (f n) w) →
  triple E P (read r f) Q.
Proof.
  intros HE HQ w Hw. unfold read. rewrite run_bind_gets.
  destruct (heap w !! r) as [n|] eqn:Hn; [by eapply HQ|by apply HE].
Qed.

Lemma triple_write (E P : world → Prop) r (f : node → node) (Q : unit → world → Prop) :
  (∀ w, P w → E w) →
  (∀ w n, P w → heap w !! r = Some n →
          Q tt (with_heap (<[r := f n]> (heap w)) w)) →
  triple E P (write r f) Q.
Proof.
  intros HE HQ w Hw. unfold write. rewrite run_bind_gets.
  destruct (heap w !! r) as [n|] eqn:Hn; [by eapply HQ|by apply HE].
Qed.

Lemma triple_forEach {A} (I : world → Prop) (l : list A) (f : A → M unit)
    (ok : A → Prop) :
  Forall ok l →
  (∀ a, ok a → triple I I (f a) (λ _, I)) →
  triple I I (forEach l f) (λ _, I).
Proof.
  intros Hl Hf. induction Hl as [|a l Ha _ IH]; cbn [forEach].
  - by apply triple_ret.
  - eapply triple_bind; [by apply Hf|]. intros ?. exact IH.
Qed.

Lemma triple_hostCall (I P : world → Prop) m w :
  triple I P m (λ _, I) → (∀ w e, I w → I (with_uncaught (uncaught w ++ [e]) w)) →
  P w → I (hostCall m w).
Proof.
  intros Hm Hu Hw. specialize (Hm w Hw). unfold hostCall.
  destruct (m w) as [w' [e|[]]]; [by apply Hu|done].
Qed.

Lemma triple_pure {A} (E P : world → Prop) (φ : Prop) (m : M A) Q :
  (φ → triple E P m Q) → triple E (λ w, P w ∧ φ) m Q.
Proof. intros H w [Hw Hφ]. by apply H. Qed.

Lemma triple_weaken {A} (E P P' : world → Prop) (m : M A) (Q Q' : A → world → Prop) :
  triple E P' m Q' → (∀ w, P w → P' w) → (∀ a w, Q' a w → Q a w) →
  triple E P m Q.
Proof.
  intros H HP HQ w Hw. specialize (H w (HP w Hw)).
  destruct (m w) as [w' [e|a]]; [done|by apply HQ].
Qed.

Lemma triple_ret_bind {A B} E P (a : A) (k : A → M B) Q :
  triple E P (k a) Q → triple E P (mret a ≫= k) Q.
Proof. intros H w Hw. rewrite run_bind_ret. by apply H. Qed.

Lemma triple_throw_bind {A B} (E P : world → Prop) e (k : A → M B) Q :
  (∀ w, P w → E w) → triple E P (throw e ≫= k) Q.
Proof. intros H w Hw. rewrite run_bind_throw. by apply H. Qed.

(** ** Nodes across the life of a modal *)

Lemma nodeRel_refl m r n : nodeRel m r n n.
Proof. repeat split; auto. Qed.

Lemma nodeRel_trans m r a b c :
  nodeRel m r a b → nodeRel m r b c → nodeRel m r a c.
Proof.
  intros (Ht1 & Hc1 & Hp1 & Hk1) (Ht2 & Hc2 & Hp2 & Hk2).
  split; [congruence|]. split; [congruence|]. split.
  - destruct Hp1 as [Hp1|[Hp1 ?]]; [|by right].
    rewrite Hp1. destruct Hp2 as [?|[? ?]]; [by left|by right].
  - intros Hr. rewrite Hk1, Hk2; done.
Qed.

Lemma nodeRel_style m r s n : nodeRel m r (with_style s n) n.
Proof. repeat split; auto. Qed.

Lemma nodeRel_detach m r n :
  (r ≤ m)%nat → nodeRel m r (with_parentNode None n) n.
Proof. intros Hr. split; [done|]. split; [done|]. split; [by right|done]. Qed.

Lemma nodeRel_children m r l n :
  (r < m)%nat → nodeRel m r (with_childNodes l n) n.
Proof.
  intros Hr. split; [done|]. split; [done|]. split; [by left|]. cbn. lia.
Qed.

Lemma pendingRemoval_app m w t :
  t.2 ≠ RemoveModal m →
  pendingRemoval m (with_timers (timers w ++ [t]) w) = pendingRemoval m w.
Proof.
  intros Ht. unfold pendingRemoval. cbn. rewrite existsb_app. cbn.
  rewrite bool_decide_eq_false_2 by done. by rewrite !orb_false_r.
Qed.

Lemma pendingRemoval_delete m w i t :
  timers w !! i = Some t → t.2 ≠ RemoveModal m →
  pendingRemoval m (with_timers (delete i (timers w)) w) = pendingRemoval m w.
Proof.
  intros Hi Ht. unfold pendingRemoval. cbn.
  rewrite <- (take_drop_middle _ _ _ Hi) at 2. rewrite delete_take_drop.
  rewrite !existsb_app. cbn. by rewrite bool_decide_eq_false_2.
Qed.

Ltac opened_facts H :=
  let H' := fresh in
  pose proof H as H'; unfold opened in H'; cbv zeta in H';
  destruct H' as (Hnx & Hbd & Hls & Hts & Hfr & Hold & Hnew & Hqx &
                  (nm & Hm & Hmc & Hmk & Hmp) & (nc & Hc & Hcc & Hcp) &
                  (nhd & Hhd & Hhdp) & (nx & Hx & Hxp)).

Section modal.
Variables (w0 w1 : world).
Hypothesis Hs : sound w0.
Hypothesis Hop : opened w0 w1.

Local Abbreviation m := (nextRef w0).

Lemma body_old : (body w0 < m)%nat.
Proof.
  destruct Hs as (Hfresh & _ & (b & Hb & _) & _).
  destruct (decide (body w0 < m)%nat); [done|].
  rewrite Hfresh in Hb by lia. done.
Qed.

(** In [w1] parents are older than their children, and the parent of a
    node that is not inside the modal was there before the modal. *)
Lemma opened_parent r n p :
  heap w1 !! r = Some n → parentNode n = Some p →
  (p < r)%nat ∧ ((r ≤ m)%nat → (p < m)%nat).
Proof.
  intros Hr Hp.
  opened_facts Hop.
  destruct Hs as (_ & Ho & _).
  destruct (lt_eq_lt_dec r m) as [[Hlt| ->]|Hgt].
  - specialize (Hold r Hlt). rewrite Hr in Hold.
    inversion Hold as [? n0 [_ Hpp] Heq1 Heq0|]; subst.
    symmetry in Heq0. rewrite Hp in Hpp. symmetry in Hpp.
    pose proof (Ho _ _ _ Heq0 Hpp). lia.
  - assert (n = nm) as -> by congruence.
    assert (p = body w0) as -> by congruence.
    pose proof body_old. lia.
  - destruct (Hnew r n Hgt Hr) as (_ & _ & p' & Hp' & ?).
    assert (p = p') as -> by congruence. lia.
Qed.

Section invariant.
Variables (closing : bool) (w : world).
Hypothesis Hcore : modalCore w1 m closing w.

Lemma core_lookup r n' :
  heap w !! r = Some n' →
  ∃ n1, heap w1 !! r = Some n1 ∧ nodeRel m r n' n1.
Proof.
  intros Hr. destruct Hcore as (_ & _ & _ & Hh & _).
  specialize (Hh r). rewrite Hr in Hh. inversion Hh; subst; eauto.
Qed.

Lemma core_lookup_inv r n1 :
  heap w1 !! r = Some n1 →
  ∃ n', heap w !! r = Some n' ∧ nodeRel m r n' n1.
Proof.
  intros Hr. destruct Hcore as (_ & _ & _ & Hh & _).
  specialize (Hh r). rewrite Hr in Hh. inversion Hh; subst; eauto.
Qed.

Lemma core_parent r n' p :
  heap w !! r = Some n' → parentNode n' = Some p →
  (p < r)%nat ∧ ((r ≤ m)%nat → (p < m)%nat).
Proof.
  intros Hr Hp. destruct (core_lookup _ _ Hr) as (n1 & Hr1 & _ & _ & Hpp & _).
  destruct Hpp as [Hpp|[Hpp _]]; [|congruence].
  rewrite Hp in Hpp. by eapply opened_parent.
Qed.

Lemma core_ordered : ordered (heap w).
Proof. intros r n p Hr Hp. by eapply core_parent. Qed.

Lemma core_fresh r : (nextRef w ≤ r)%nat → heap w !! r = None.
Proof.
  intros Hr. opened_facts Hop. destruct Hcore as (Hn & _ & _ & Hh & _).
  specialize (Hh r). rewrite Hfr in Hh by lia. by inversion Hh.
Qed.

Lemma core_not_toast r n' :
  heap w !! r = Some n' → "toast" ∈ classList n' → (r < m)%nat.
Proof.
  intros Hr Hin. opened_facts Hop.
  destruct (core_lookup _ _ Hr) as (n1 & Hr1 & _ & Hcl & _).
  rewrite Hcl in Hin.
  destruct (lt_eq_lt_dec r m) as [[Hlt|Heq]|Hgt]; [done| |].
  - subst r. assert (n1 = nm) as -> by congruence. rewrite Hmc in Hin.
    apply list_elem_of_In in Hin. cbn in Hin. intuition discriminate.
  - by destruct (Hnew r n1 Hgt Hr1) as (_ & Hnt & _).
Qed.

Lemma core_modal :
  ∃ n', heap w !! m = Some n' ∧ classList n' = ["portfolio-modal"] ∧
        childNodes n' = [S m] ∧
        (parentNode n' = Some (body w0) ∨ parentNode n' = None).
Proof.
  opened_facts Hop.
  destruct (core_lookup_inv _ _ Hm) as (n' & Hn' & _ & Hcl & Hp & Hk).
  exists n'. split; [done|]. split; [congruence|].
  split; [rewrite Hk by done; congruence|].
  destruct Hp as [Hp|[Hp _]]; [left; congruence|by right].
Qed.

Lemma core_content :
  ∃ n', heap w !! S m = Some n' ∧ classList n' = ["modal-content"] ∧
        parentNode n' = Some m.
Proof.
  opened_facts Hop.
  destruct (core_lookup_inv _ _ Hc) as (n' & Hn' & _ & Hcl & Hp & _).
  exists n'. split; [done|]. split; [congruence|].
  destruct Hp as [Hp|[_ ?]]; [congruence|lia].
Qed.

Lemma core_body :
  ∃ b, heap w !! body w = Some b ∧ parentNode b = None.
Proof.
  opened_facts Hop. destruct Hcore as (_ & Hb & _).
  destruct Hs as (_ & _ & (b & Hb0 & Hbp) & _).
  pose proof (Hold _ body_old) as Hrel. rewrite Hb0 in Hrel.
  inversion Hrel as [n1 ? [_ Hp1] Heq1|]; subst. symmetry in Heq1.
  destruct (core_lookup_inv _ _ Heq1) as (n' & Hn' & _ & _ & Hp & _).
  exists n'. rewrite Hb, Hbd. split; [done|].
  destruct Hp as [Hp|[Hp _]]; congruence.
Qed.

(** Replacing a node by a related one keeps the invariant. *)
Lemma core_insert r n n' :
  heap w !! r = Some n → nodeRel m r n' n →
  modalCore w1 m closing (with_heap (<[r := n']> (heap w)) w).
Proof.
  intros Hr Hrel. destruct Hcore as (Hn & Hb & Hl & Hh & Ht).
  repeat split; try done. intros q. cbn.
  destruct (decide (r = q)) as [->|Hne].
  - rewrite lookup_insert_eq. specialize (Hh q). rewrite Hr in Hh.
    inversion Hh; subst. constructor. by eapply nodeRel_trans.
  - rewrite lookup_insert_ne by done. apply Hh.
Qed.
End invariant.

(** ** What timers keep true *)
Section frame.
Variables (closing : bool) (pm : option nat) (pr : bool).

Local Abbreviation F := (modalFrame w1 m closing pm pr).
Local Abbreviation keeps c := (triple F F c (λ _, F)).

Lemma frame_insert w r n n' :
  F w → heap w !! r = Some n → nodeRel m r n' n →
  (r = m → parentNode n' = parentNode n) →
  F (with_heap (<[r := n']> (heap w)) w).
Proof.
  intros (Hcore & Hpm & Hpr) Hr Hrel Hp.
  split; [by eapply core_insert|]. split; [|done]. cbn.
  destruct (decide (r = m)) as [->|Hne].
  - rewrite lookup_insert_eq. cbn. rewrite Hp by done.
    by rewrite Hr in Hpm.
  - by rewrite lookup_insert_ne.
Qed.

Lemma frame_timer w t :
  F w → (∀ r, unlinks t.2 = Some r → (r < m)%nat) →
  F (with_timers (timers w ++ [t]) w).
Proof.
  intros ((Hn & Hb & Hl & Hh & Ht) & Hpm & Hpr) Hok.
  split; [|split; [done|]].
  - repeat split; try done. cbn. apply Forall_app. split; [done|].
    apply Forall_singleton. intros r Hr. left. by apply Hok.
  - rewrite pendingRemoval_app; [done|]. intros Heq.
    specialize (Hok m). rewrite Heq in Hok. specialize (Hok eq_refl). lia.
Qed.

Lemma frame_uncaught w e : F w → F (with_uncaught (uncaught w ++ [e]) w).
Proof. by intros ((Hn & Hb & Hl & Hh & Ht) & Hpm & Hpr). Qed.

Lemma keeps_setStyle r prop val : keeps (setStyle r prop val).
Proof.
  apply triple_write; [done|]. intros w n Hw Hr.
  eapply frame_insert; [done|done|apply nodeRel_style|done].
Qed.

Lemma keeps_remove r : (r < m)%nat → keeps (remove r).
Proof.
  intros Hr. unfold remove.
  eapply triple_bind.
  { apply (triple_read F F r parentNode
             (λ p w, F w ∧ ∀ q, p = Some q → (q < m)%nat)); [done|].
    intros w n Hw Hn. split; [done|]. intros q Hq.
    destruct Hw as (Hcore & _).
    destruct (core_parent _ _ Hcore _ _ _ Hn Hq) as [_ Hold].
    apply Hold. lia. }
  intros [p|]; [|apply triple_ret; by intros w [Hw _]].
  apply triple_pure. intros Hp. specialize (Hp p eq_refl).
  eapply triple_bind.
  - apply (triple_write F F p _ (λ _, F)); [done|]. intros w n Hw Hn.
    eapply frame_insert; [done|done|by apply nodeRel_children|lia].
  - intros ?. apply triple_write; [done|]. intros w n Hw Hn.
    eapply frame_insert; [done|done|apply nodeRel_detach; lia|lia].
Qed.

Lemma keeps_animateToastOut r : (r < m)%nat → keeps (animateToastOut r).
Proof.
  intros Hr. unfold animateToastOut.
  eapply triple_bind; [apply keeps_setStyle|]. intros ?.
  apply triple_update. intros w Hw. apply frame_timer; [done|].
  cbn. intros ? [= <-]. done.
Qed.
Lemma frame_toasts_old w :
  F w → Forall (λ r, (r < m)%nat) (queryAll w (Class "toast")).
Proof.
  intros (Hcore & _). apply Forall_forall. intros r Hr.
  apply queryAll_elem in Hr as (n & Hn & Hc).
  unfold matches, has_class in Hc.
  apply bool_decide_eq_true_1 in Hc.
  exact (core_not_toast _ _ Hcore _ _ Hn Hc).
Qed.

Lemma keeps_nonNull_setStyle what o prop val :
  keeps (r ← nonNull what o; setStyle r prop val).
Proof.
  destruct o as [r|]; cbn [nonNull].
  - apply triple_ret_bind, keeps_setStyle.
  - by apply triple_throw_bind.
Qed.

(** Every timer callback but the removal of this modal. *)
Lemma keeps_callback cb :
  (∀ r, unlinks cb = Some r → (r < m)%nat) → keeps (runCallback cb).
Proof.
  intros Hcb. destruct cb as [|r|r|r|r|r]; cbn [runCallback].
  - eapply triple_bind.
    + apply (triple_gets F F _
               (λ l w, F w ∧ Forall (λ r, (r < m)%nat) l)).
      intros w Hw. split; [done|]. by apply frame_toasts_old.
    + intros l. apply triple_pure. intros Hl.
      eapply triple_forEach; [exact Hl|]. intros r Hr.
      by apply keeps_animateToastOut.
  - eapply triple_bind; [by apply (triple_read F F r _ (λ _, F))|].
    intros [p|]; [apply keeps_remove; by apply Hcb|by apply triple_ret].
  - eapply triple_bind; [by apply (triple_read F F r _ (λ _, F))|].
    intros [p|]; [apply keeps_animateToastOut; by apply Hcb|by apply triple_ret].
  - eapply triple_bind; [apply keeps_setStyle|]. intros ?.
    eapply triple_bind; [by apply (triple_gets F F _ (λ _, F))|].
    intros o. apply keeps_nonNull_setStyle.
  - eapply triple_bind; [by apply (triple_read F F r _ (λ _, F))|].
    intros [p|]; [apply keeps_remove; by apply Hcb|by apply triple_ret].
  - apply keeps_setStyle.
Qed.
End frame.

Lemma core_delete_timer closing w i :
  modalCore w1 m closing w →
  modalCore w1 m closing (with_timers (delete i (timers w)) w).
Proof.
  intros (Hn & Hb & Hl & Hh & Ht). repeat split; try done. cbn.
  by apply Forall_delete.
Qed.

Lemma core_uncaught closing w e :
  modalCore w1 m closing w →
  modalCore w1 m closing (with_uncaught (uncaught w ++ [e]) w).
Proof. by intros (Hn & Hb & Hl & Hh & Ht). Qed.

Lemma core_clock closing w t :
  modalCore w1 m closing w → modalCore w1 m closing (with_clock t w).
Proof. by intros (Hn & Hb & Hl & Hh & Ht). Qed.

(** The removal timer of the modal: after it the modal has no parent. *)
Lemma removeModal_fires w :
  modalCore w1 m true w →
  modalCore w1 m true (hostCall (runCallback (RemoveModal m)) w) ∧
  heap (hostCall (runCallback (RemoveModal m)) w) !! m ≫= parentNode = None.
Proof.
  intros Hcore. cbn [runCallback].
  destruct (core_modal _ _ Hcore) as (n' & Hn' & _ & _ & [Hp|Hp]).
  - destruct (core_body _ _ Hcore) as (b & Hb & _).
    assert (body w = body w0) as Hbw.
    { opened_facts Hop. destruct Hcore as (_ & Hbb & _). congruence. }
    rewrite Hbw in Hb. pose proof body_old as Hlt.
    erewrite hostCall_ok.
    2:{ erewrite run_bind_read by done. rewrite Hp.
        rewrite run_bind_last.
        erewrite run_bind_remove_attached; [reflexivity|done|done|done|lia]. }
    split; [|cbn; by rewrite lookup_insert_eq].
    set (b' := with_childNodes
                 (List.filter (λ c, negb (c =? m)%nat) (childNodes b)) b).
    assert (modalCore w1 m true (with_heap (<[body w0 := b']> (heap w)) w))
      as Hcore' by (eapply core_insert; [done|done|apply nodeRel_children; lia]).
    refine (core_insert true _ Hcore' m n' _ _ _).
    * cbn. rewrite lookup_insert_ne by lia. done.
    * apply nodeRel_detach. lia.
  - erewrite hostCall_ok.
    2:{ erewrite run_bind_read by done. by rewrite Hp. }
    split; [done|]. by rewrite Hn'.
Qed.

Lemma nextTimer_Some l i t :
  nextTimer l = Some (i, t) → l !! i = Some t.
Proof.
  unfold nextTimer. destruct (minDue l) as [d|]; [|done]. cbn.
  by intros (? & _)%list_find_Some.
Qed.

Lemma modalInv_fire closing w :
  modalInv w1 m closing w → modalInv w1 m closing (fireNext w).
Proof.
  intros [Hcore Hphase]. unfold fireNext.
  destruct (nextTimer (timers w)) as [[i [due cb]]|] eqn:Hnext; [|done].
  case_bool_decide; [|done].
  apply nextTimer_Some in Hnext.
  assert (∀ r, unlinks cb = Some r →
               (r < m)%nat ∨ closing = true ∧ cb = RemoveModal m) as Hcb.
  { destruct Hcore as (_ & _ & _ & _ & Ht).
    eapply Forall_lookup_1 in Ht; [|exact Hnext]. exact Ht. }
  pose proof (core_delete_timer _ _ i Hcore) as Hcore'.
  destruct (decide (cb = RemoveModal m)) as [->|Hne].
  - destruct (Hcb m eq_refl) as [?|[-> _]]; [lia|].
    destruct (removeModal_fires _ Hcore') as [Hc Hp]. split; [done|by right].
  - set (pm := heap w !! m ≫= parentNode). set (pr := pendingRemoval m w).
    assert (modalFrame w1 m closing pm pr
              (hostCall (runCallback cb) (with_timers (delete i (timers w)) w)))
      as (Hc & Hpm & Hpr).
    { eapply triple_hostCall.
      - apply keeps_callback. intros r Hr.
        destruct (Hcb r Hr) as [?|[_ ?]]; [done|congruence].
      - intros ???. by apply frame_uncaught.
      - split; [done|]. split; [done|].
        by apply (pendingRemoval_delete m w i (due, cb)). }
    split; [done|]. by rewrite Hpm, Hpr.
Qed.

Lemma modalInv_host closing w e :
  isHostEvent e = true → modalInv w1 m closing w →
  modalInv w1 m closing (step w e).
Proof.
  destruct e as [ms| | |]; try done. intros _ Hinv. by apply modalInv_fire.
Qed.

Lemma modalInv_run closing idle : ∀ w,
  forallb isHostEvent idle = true → modalInv w1 m closing w →
  modalInv w1 m closing (run w idle).
Proof.
  induction idle as [|e idle IH]; intros w Hidle Hinv; [done|].
  cbn in Hidle. apply andb_true_iff in Hidle as [He Hidle].
  unfold run. cbn [foldl]. apply IH; [done|]. by apply modalInv_host.
Qed.
End modal.

(** ** Lists of references *)

Lemma filter_none {A} (f : A → bool) l :
  (∀ a, In a l → f a = false) → List.filter f l = [].
Proof.
  induction l as [|a l IH]; intros Hf; [done|]. cbn [List.filter].
  rewrite (Hf a) by (by left). apply IH. intros b Hb. apply Hf. by right.
Qed.

Lemma filter_seq_at (f : nat → bool) n k :
  (k < n)%nat → (∀ r, (r < n)%nat → r ≠ k → f r = false) →
  List.filter f (seq 0 n) = if f k then [k] else [].
Proof.
  intros Hk Hf.
  replace n with (k + S (n - S k))%nat by lia.
  rewrite seq_app, List.filter_app. cbn [seq List.filter Nat.add].
  rewrite (filter_none f (seq 0 k)), (filter_none f (seq (S k) _)).
  - by destruct (f k).
  - intros r [? ?]%in_seq. apply Hf; lia.
  - intros r [? ?]%in_seq. apply Hf; lia.
Qed.

Lemma inclusiveAncestors_head h r : r ∈ inclusiveAncestors h r.
Proof. unfold inclusiveAncestors. destruct r; cbn [ancestorsWithin]; by left. Qed.

Lemma inclusiveAncestors_None h r :
  h !! r ≫= parentNode = None → inclusiveAncestors h r = [r].
Proof.
  intros Hp. unfold inclusiveAncestors.
  destruct r; cbn [ancestorsWithin]; [done|]. by rewrite Hp.
Qed.

Lemma listenersOn_eq w w' t type :
  listeners w = listeners w' → listenersOn w t type = listenersOn w' t type.
Proof. unfold listenersOn. by intros ->. Qed.

Lemma forallb_take {A} (f : A → bool) k l :
  forallb f l = true → forallb f (take k l) = true.
Proof.
  revert k. induction l as [|a l IH]; intros [|k]; cbn; try done.
  intros [-> ?]%andb_true_iff. by apply IH.
Qed.

Lemma run_app w es es' : run w (es ++ es') = run (run w es) es'.
Proof. unfold run. apply foldl_app. Qed.

(** ** The removal timer fires *)

Section timers.
Variables (modal : nat) (ws : world).

Local Abbreviation K := (laterTimers modal ws).
Local Abbreviation keepsK c := (triple K K c (λ _, K)).

Lemma later_refl : K ws.
Proof. split; [done|]. exists []. by rewrite app_nil_r. Qed.

Lemma keepsK_write r f : keepsK (write r f).
Proof. apply triple_write; [done|]. by intros w n Hw _. Qed.

Lemma keepsK_read {A} r (f : node → A) : triple K K (read r f) (λ _, K).
Proof. by apply triple_read. Qed.

Lemma keepsK_remove r : keepsK (remove r).
Proof.
  unfold remove. eapply triple_bind; [apply keepsK_read|].
  intros [p|]; [|by apply triple_ret].
  eapply triple_bind; [apply keepsK_write|]. intros ?. apply keepsK_write.
Qed.

Lemma keepsK_animateToastOut r : keepsK (animateToastOut r).
Proof.
  unfold animateToastOut, setStyle.
  eapply triple_bind; [apply keepsK_write|]. intros ?.
  apply triple_update. intros w (Hclk & new & Hts & Hnew).
  split; [done|]. exists (new ++ [(clock w + 300, RemoveToast r)]). cbn.
  split; [by rewrite Hts, app_assoc|].
  apply Forall_app. split; [done|]. apply Forall_singleton. cbn.
  split; [lia|done].
Qed.

Lemma keepsK_callback cb : keepsK (runCallback cb).
Proof.
  destruct cb as [|r|r|r|r|r]; cbn [runCallback].
  - eapply triple_bind; [by apply (triple_gets K K _ (λ _, K))|].
    intros l. apply (triple_forEach K l _ (λ _, True)).
    + by apply Forall_forall.
    + intros r _. apply keepsK_animateToastOut.
  - eapply triple_bind; [apply keepsK_read|].
    intros [p|]; [apply keepsK_remove|by apply triple_ret].
  - eapply triple_bind; [apply keepsK_read|].
    intros [p|]; [apply keepsK_animateToastOut|by apply triple_ret].
  - eapply triple_bind; [apply keepsK_write|]. intros ?.
    eapply triple_bind; [by apply (triple_gets K K _ (λ _, K))|].
    intros [c|]; cbn [nonNull].
    + apply triple_ret_bind, keepsK_write.
    + by apply triple_throw_bind.
  - eapply triple_bind; [apply keepsK_read|].
    intros [p|]; [apply keepsK_remove|by apply triple_ret].
  - apply keepsK_write.
Qed.

Lemma later_hostCall cb : K (hostCall (runCallback cb) ws).
Proof.
  eapply triple_hostCall; [apply keepsK_callback| |apply later_refl].
  by intros w e Hw.
Qed.
End timers.

Lemma minDue_spec l d :
  minDue l = Some d → (∀ t, t ∈ l → d ≤ t.1) ∧ ∃ t, t ∈ l ∧ t.1 = d.
Proof.
  destruct l as [|[d0 cb0] l]; [done|]. cbn [minDue]. intros [= <-].
  induction l as [|[d1 cb1] l [IHle (tm & Htm & Heq)]]; cbn [foldr fst].
  - split; [|exists (d0, cb0); split; [by left|done]].
    by intros t ->%list_elem_of_singleton.
  - split.
    + intros t [->|[->|Ht']%elem_of_cons]%elem_of_cons; cbn.
      * specialize (IHle (d0, cb0) ltac:(by left)). cbn in IHle. lia.
      * lia.
      * specialize (IHle t ltac:(by right)). lia.
    + destruct (Z.min_spec d1 (foldr (λ x m, Z.min x.1 m) d0 l)) as [[? ->]|[? ->]].
      * exists (d1, cb1). split; [right; by left|done].
      * exists tm. split; [|done].
        apply elem_of_cons in Htm as [->|Htm]; [by left|]. right. by right.
Qed.

Lemma nextTimer_spec l :
  match nextTimer l with
  | Some (i, t) => l !! i = Some t ∧ ∀ t', t' ∈ l → t.1 ≤ t'.1
  | None => l = []
  end.
Proof.
  unfold nextTimer. destruct (minDue l) as [d|] eqn:Hd; cbn.
  - destruct (minDue_spec _ _ Hd) as [Hle (t & Ht & Heq)].
    destruct (list_find _ l) as [[i t']|] eqn:Hf.
    + apply list_find_Some in Hf as (Hi & <- & _). done.
    + apply list_find_None in Hf. rewrite Forall_forall in Hf. by destruct (Hf t Ht).
  - by destruct l as [|[??] ?].
Qed.

Lemma filter_delete_length {A} (f : A → bool) l i a :
  l !! i = Some a → f a = true →
  length (List.filter f (delete i l)) = pred (length (List.filter f l)).
Proof.
  intros Hi Ha. rewrite <- (take_drop_middle _ _ _ Hi) at 2.
  rewrite delete_take_drop, !List.filter_app. cbn [List.filter]. rewrite Ha.
  rewrite !length_app. cbn [length]. lia.
Qed.

(** Firing a timer takes one off the timers that are due. *)
Lemma fireNext_progress modal w :
  removalsDue modal w →
  removalsDue modal (fireNext w) ∧ clock (fireNext w) = clock w ∧
  length (dueTimers (fireNext w)) = pred (length (dueTimers w)).
Proof.
  intros HJ. unfold fireNext.
  pose proof (nextTimer_spec (timers w)) as Hnext.
  destruct (nextTimer (timers w)) as [[i [due cb]]|].
  - destruct Hnext as [Hi Hmin]. case_bool_decide as Hdue.
    + set (wd := with_timers (delete i (timers w)) w).
      destruct (later_hostCall modal wd cb) as (Hclk & new & Hts & Hnew).
      split; [|split; [done|]].
      * unfold removalsDue. rewrite Hts, Hclk. apply Forall_app. split.
        -- by apply Forall_delete.
        -- eapply Forall_impl; [exact Hnew|]. by intros t [_ ?] ?.
      * unfold dueTimers. rewrite Hts, Hclk, List.filter_app.
        rewrite (filter_none _ new).
        2:{ intros t Ht%list_elem_of_In. rewrite Forall_forall in Hnew.
            destruct (Hnew t Ht) as [Hlt _]. apply bool_decide_eq_false_2.
            lia. }
        rewrite app_nil_r. cbn [clock timers wd with_timers].
        apply (filter_delete_length _ _ _ (due, cb)); [done|].
        by apply bool_decide_eq_true_2.
    + split; [done|]. split; [done|]. unfold dueTimers.
      rewrite filter_none; [done|]. intros t Ht%list_elem_of_In.
      apply bool_decide_eq_false_2. specialize (Hmin t Ht). cbn in Hmin. lia.
  - split; [done|]. split; [done|]. unfold dueTimers. by rewrite Hnext.
Qed.

Lemma fire_drains modal n : ∀ w,
  removalsDue modal w → (length (dueTimers w) ≤ n)%nat →
  pendingRemoval modal (run w (repeat Fire n)) = false.
Proof.
  induction n as [|n IH]; intros w HJ Hn.
  - cbn. unfold pendingRemoval. apply not_true_is_false.
    intros (t & Ht & Heq)%existsb_exists. apply bool_decide_eq_true_1 in Heq.
    assert (In t (dueTimers w)) as Hin.
    { apply List.filter_In. split; [done|]. apply bool_decide_eq_true_2.
      apply list_elem_of_In in Ht. unfold removalsDue in HJ.
      rewrite Forall_forall in HJ. by apply HJ. }
    destruct (dueTimers w); [done|]. cbn in Hn. lia.
  - cbn [repeat]. change (run w (Fire :: ?l)) with (run (fireNext w) l).
    destruct (fireNext_progress _ _ HJ) as (HJ' & _ & Hlen).
    apply IH; [done|lia].
Qed.

(** ** One round: the modal from its opening to its removal *)

Section round.
Variables (w0 w1 : world).
Hypothesis Hs : sound w0.
Hypothesis Hop : opened w0 w1.
Hypothesis Hquiet : listenersOn w0 (Element (body w0)) "click" = [].
Hypothesis Hnone : modalNodes w0 = [].

Local Abbreviation m := (nextRef w0).
Local Abbreviation x := (S (S (S (S (nextRef w0))))).

Lemma opened_inv : modalInv w1 m false w1.
Proof.
  opened_facts Hop. destruct Hs as (_ & _ & _ & _ & Ht).
  split; [|by rewrite Hm; cbn; rewrite Hmp, Hbd].
  repeat split; try done.
  - intros r. destruct (heap w1 !! r); constructor. apply nodeRel_refl.
  - rewrite Hts. apply Forall_app. split.
    + eapply Forall_impl; [exact Ht|]. intros t Hr r Hu. left. by apply Hr.
    + by apply Forall_singleton.
Qed.

Lemma core_closing closing w : modalCore w1 m closing w → modalCore w1 m true w.
Proof.
  intros (Hn & Hb & Hl & Hh & Ht). repeat split; try done.
  eapply Forall_impl; [exact Ht|]. intros t Hr r Hu.
  destruct (Hr r Hu) as [?|[_ ?]]; [by left|by right].
Qed.

(** The listeners a click meets on the modal's nodes. *)
Lemma modal_listeners closing w r :
  modalCore w1 m closing w →
  listenersOn w (Element r) "click" =
    if decide (r = x) then [OnModalClose m]
    else if decide (r = m) then [OnModalBackdrop m]
    else listenersOn w0 (Element r) "click".
Proof.
  intros (_ & _ & Hl & _). opened_facts Hop.
  destruct Hs as (_ & _ & _ & Hfresh & _).
  unfold listenersOn at 1. rewrite Hl, Hls, omap_app. cbn [omap list_omap].
  fold (listenersOn w0 (Element r) "click").
  destruct (decide (r = x)) as [->|Hrx]; [|destruct (decide (r = m)) as [->|Hrm]].
  - rewrite Hfresh by lia. rewrite bool_decide_eq_true_2 by done.
    rewrite bool_decide_eq_false_2; [done|]. intros [[=] _]. lia.
  - rewrite Hfresh by lia. rewrite bool_decide_eq_false_2.
    2:{ intros [[=] _]. lia. }
    by rewrite bool_decide_eq_true_2.
  - rewrite !bool_decide_eq_false_2; [by rewrite app_nil_r| |];
      intros [[=] _]; congruence.
Qed.

(** [closeModal] on the open modal: it returns, the removal is pending
    and nothing else of the invariant has moved. *)
Lemma closeModal_closing w :
  modalInv w1 m false w →
  ∃ w', closeModal m w = (w', inr tt) ∧ modalInv w1 m true w' ∧
        pendingRemoval m w' = true ∧
        timers w' = timers w ++ [(clock w + 300, RemoveModal m)] ∧
        clock w' = clock w ∧
        propagationStopped w' = propagationStopped w ∧
        uncaught w' = uncaught w.
Proof.
  intros [Hcore Hphase].
  destruct (core_modal _ _ Hop _ _ Hcore) as (nm' & Hm' & Hmc' & Hmk' & _).
  destruct (core_content _ _ Hop _ _ Hcore) as (nc' & Hc' & Hcc' & _).
  assert (0 < nextRef w)%nat as Hpos.
  { destruct Hcore as (Hn & _). opened_facts Hop. lia. }
  set (w2 := with_heap (<[m := with_style (<["opacity" := "0"]> (style nm')) nm']>
                          (heap w)) w).
  assert (modalCore w1 m false w2) as Hcore2.
  { eapply core_insert; [exact Hcore|done|apply nodeRel_style]. }
  assert (heap w2 !! S m = Some nc') as Hc2.
  { subst w2. cbn. by rewrite lookup_insert_ne by lia. }
  set (w3 := with_heap (<[S m := with_style (<["transform" := "scale(0.9)"]>
                                              (style nc')) nc']> (heap w2)) w2).
  assert (modalCore w1 m false w3) as Hcore3.
  { eapply core_insert; [exact Hcore2|exact Hc2|apply nodeRel_style]. }
  exists (with_timers (timers w3 ++ [(clock w3 + 300, RemoveModal m)]) w3).
  split.
  { unfold closeModal, elementQuerySelector.
    erewrite run_bind_setStyle by done. fold w2.
    rewrite run_bind_gets.
    erewrite (queryIn_first_child w2 m _ (S m) [] nc').
    - cbn [nonNull]. rewrite run_bind_ret.
      erewrite run_bind_setStyle by done. fold w3. done.
    - subst w2. cbn. by rewrite lookup_insert_eq.
    - done.
    - done.
    - cbn [matches]. unfold has_class. rewrite Hcc'.
      by apply bool_decide_eq_true_2, list_elem_of_singleton.
    - done. }
  split; [split|].
  - destruct (core_closing _ _ Hcore3) as (Hn & Hb & Hl & Hh & Ht).
    repeat split; try done. cbn. apply Forall_app. split; [done|].
    apply Forall_singleton. intros r Hr. right. done.
  - left. unfold pendingRemoval. cbn. rewrite existsb_app. cbn.
    rewrite bool_decide_eq_true_2 by done. by rewrite orb_true_r.
  - repeat split; try done.
    unfold pendingRemoval. cbn. rewrite existsb_app. cbn.
    rewrite bool_decide_eq_true_2 by done. by rewrite orb_true_r.
Qed.

Lemma quiet_after closing w r :
  modalCore w1 m closing w → r ≠ x → r ≠ m →
  (r = body w0 ∨ (m ≤ r)%nat) →
  listenersOn w (Element r) "click" = [].
Proof.
  intros Hcore Hrx Hrm Hr. rewrite (modal_listeners _ _ _ Hcore).
  rewrite !decide_False by done.
  destruct Hr as [->|Hr]; [done|].
  destruct Hs as (_ & _ & _ & Hfresh & _). by apply Hfresh.
Qed.

(** A click on the backdrop or on the close button of the open modal
    runs [closeModal] once, and nothing else. *)
Lemma click_runs_closeModal w tgt :
  modalInv w1 m false w → tgt = m ∨ tgt = x →
  closeModal m (freshEvent w) = (step w (Click tgt), inr tt).
Proof.
  intros Hinv Htgt.
  assert (modalInv w1 m false (freshEvent w)) as Hinv' by exact Hinv.
  destruct (closeModal_closing _ Hinv')
    as (w' & Hrun & [Hcore' _] & _ & _ & _ & Hstop & _).
  rewrite Hrun. f_equal. symmetry. cbn [step]. unfold dispatch.
  fold (freshEvent w).
  destruct Hinv as [Hcore Hphase].
  pose proof (core_ordered _ _ Hs Hop _ _ Hcore) as Hord.
  pose proof (body_old _ Hs) as Hblt.
  destruct (core_body _ _ Hs Hop _ _ Hcore) as (b & Hb & Hbp).
  assert (body w = body w0) as Hbw.
  { opened_facts Hop. destruct Hcore as (_ & Hbb & _). congruence. }
  rewrite Hbw in Hb.
  destruct (core_modal _ _ Hop _ _ Hcore) as (nm' & Hm' & _ & _ & _).
  assert (parentNode nm' = Some (body w0)) as Hmp'.
  { rewrite Hm' in Hphase. cbn in Hphase. opened_facts Hop. congruence. }
  assert (inclusiveAncestors (heap w) m = [m; body w0]) as Hpath.
  { erewrite inclusiveAncestors_cons by done.
    by erewrite inclusiveAncestors_root. }
  assert (propagationStopped w' = false) as Hgo by (by rewrite Hstop).
  assert (bubble "click" [body w0] tgt w' = w') as Hbody.
  { cbn [bubble]. rewrite (quiet_after _ _ _ Hcore') by (lia || by left).
    cbn [callListeners]. by destruct (propagationStopped w'). }
  assert (bubble "click" [m; body w0] m (freshEvent w) = w') as Hback.
  { cbn [bubble]. rewrite (modal_listeners _ _ _ (proj1 Hinv')).
    rewrite decide_False by lia. rewrite decide_True by done.
    cbn [callListeners runListener]. rewrite bool_decide_eq_true_2 by done.
    rewrite (hostCall_ok _ _ _ Hrun), Hgo.
    destruct Htgt as [->| ->]; [exact Hbody|].
    cbn [bubble]. rewrite (quiet_after _ _ _ Hcore') by (lia || by left).
    cbn [callListeners]. by destruct (propagationStopped w'). }
  destruct Htgt as [->| ->]; [by rewrite Hpath|].
  opened_facts Hop.
  destruct (core_lookup_inv _ _ _ _ Hcore _ _ Hx) as (nx' & Hx' & _ & _ & Hxp' & _).
  destruct (core_lookup_inv _ _ _ _ Hcore _ _ Hhd) as (nhd' & Hhd' & _ & _ & Hhdp' & _).
  destruct (core_lookup_inv _ _ _ _ Hcore _ _ Hc) as (nc' & Hc' & _ & _ & Hcp' & _).
  destruct Hxp' as [Hxp'|[_ ?]]; [|lia].
  destruct Hhdp' as [Hhdp'|[_ ?]]; [|lia].
  destruct Hcp' as [Hcp'|[_ ?]]; [|lia].
  rewrite Hxp in Hxp'. rewrite Hhdp in Hhdp'. rewrite Hcp in Hcp'.
  erewrite (inclusiveAncestors_cons _ x) by done.
  erewrite (inclusiveAncestors_cons _ (S (S m))) by done.
  erewrite (inclusiveAncestors_cons _ (S m)) by done.
  rewrite Hpath.
  cbn [bubble]. rewrite (modal_listeners _ _ _ (proj1 Hinv')).
  rewrite decide_True by done.
  cbn [callListeners runListener].
  rewrite (hostCall_ok _ _ _ Hrun), Hgo.
  rewrite (quiet_after _ _ (S (S m)) Hcore') by (lia || right; lia).
  cbn [callListeners]. rewrite Hgo.
  rewrite (quiet_after _ _ (S m) Hcore') by (lia || right; lia).
  cbn [callListeners]. rewrite Hgo.
  rewrite (modal_listeners _ _ m Hcore').
  rewrite decide_False by lia. rewrite decide_True by done.
  cbn [callListeners runListener]. rewrite bool_decide_eq_false_2 by lia.
  unfold hostCall at 1. cbn. rewrite Hgo.
  rewrite (quiet_after _ _ _ Hcore') by (lia || by left).
  cbn [callListeners]. by destruct (propagationStopped w').
Qed.

Lemma click_closes w tgt :
  modalInv w1 m false w → tgt = m ∨ tgt = x →
  modalInv w1 m true (step w (Click tgt)) ∧
  timers (step w (Click tgt)) = timers w ++ [(clock w + 300, RemoveModal m)] ∧
  clock (step w (Click tgt)) = clock w ∧
  uncaught (step w (Click tgt)) = uncaught w.
Proof.
  intros Hinv Htgt.
  assert (modalInv w1 m false (freshEvent w)) as Hinv' by exact Hinv.
  destruct (closeModal_closing _ Hinv')
    as (w' & Hrun & Hinv2 & _ & Hts & Hclk & _ & Hunc).
  rewrite (click_runs_closeModal _ _ Hinv Htgt) in Hrun.
  by injection Hrun as <-.
Qed.

(** ** What is in the document *)

Lemma old_lookup closing w r n' :
  modalCore w1 m closing w → (r < m)%nat → heap w !! r = Some n' →
  ∃ n0, heap w0 !! r = Some n0 ∧ classList n' = classList n0 ∧
        (parentNode n' = parentNode n0 ∨ parentNode n' = None).
Proof.
  intros Hcore Hr Hn. opened_facts Hop.
  destruct (core_lookup _ _ _ _ Hcore _ _ Hn) as (n1 & Hn1 & _ & Hcl & Hp & _).
  specialize (Hold r Hr). rewrite Hn1 in Hold.
  inversion Hold as [? n0 [Hcl0 Hp0] Heq1 Heq0|]; subst.
  exists n0. split; [done|]. split; [congruence|].
  destruct Hp as [Hp|[Hp _]]; [left; congruence|by right].
Qed.

(** A node older than the modal that is in the document was in the
    document when the modal opened. *)
Lemma old_connected closing w :
  modalCore w1 m closing w → ∀ r, (r < m)%nat →
  body w0 ∈ inclusiveAncestors (heap w) r →
  body w0 ∈ inclusiveAncestors (heap w0) r.
Proof.
  intros Hcore r. induction r as [r IH] using lt_wf_ind. intros Hr Hin.
  destruct (heap w !! r ≫= parentNode) as [p|] eqn:Hp.
  - destruct (heap w !! r) as [n'|] eqn:Hn; [|done]. cbn in Hp.
    destruct (old_lookup _ _ _ _ Hcore Hr Hn) as (n0 & Hn0 & _ & [Hp0|Hp0]);
      [|congruence].
    rewrite Hp in Hp0. symmetry in Hp0.
    pose proof (core_ordered _ _ Hs Hop _ _ Hcore) as Hord.
    destruct Hs as (_ & Ho & _). pose proof (Ho _ _ _ Hn0 Hp0) as Hlt.
    erewrite inclusiveAncestors_cons in Hin by done.
    erewrite inclusiveAncestors_cons by done.
    apply elem_of_cons in Hin as [->|Hin]; [by left|].
    right. apply IH; [lia|lia|done].
  - rewrite inclusiveAncestors_None in Hin by done.
    apply list_elem_of_singleton in Hin as ->. apply inclusiveAncestors_head.
Qed.

(** The only modal that can be in the document is [m], and it is there
    as long as it has a parent. *)
Lemma modalNodes_core closing w :
  modalCore w1 m closing w →
  modalNodes w = match heap w !! m ≫= parentNode with
                 | Some _ => [m]
                 | None => []
                 end.
Proof.
  intros Hcore.
  pose proof (body_old _ Hs) as Hblt.
  assert (body w = body w0) as Hbw.
  { opened_facts Hop. destruct Hcore as (_ & Hbb & _). congruence. }
  assert (nextRef w = nextRef w1) as Hnw by (by destruct Hcore as (? & _)).
  assert (m < nextRef w1)%nat as Hnx' by (opened_facts Hop; done).
  unfold modalNodes, connectedMatches.
  rewrite (filter_seq_at _ _ m); [|lia|].
  - destruct (core_modal _ _ Hop _ _ Hcore) as (nm' & Hm' & Hmc' & _ & Hp).
    unfold selects, isConnected. rewrite Hm'. cbn [matches mbind option_bind].
    unfold has_class. rewrite Hmc'.
    rewrite (bool_decide_eq_true_2 (_ ∈ [_])) by (by apply list_elem_of_singleton).
    cbn [andb]. destruct Hp as [Hp|Hp]; rewrite Hp.
    + erewrite inclusiveAncestors_cons;
        [|by eapply core_ordered|done|done].
      rewrite bool_decide_eq_true_2; [done|].
      rewrite Hbw. apply elem_of_cons. right. apply inclusiveAncestors_head.
    + erewrite inclusiveAncestors_root by done.
      rewrite bool_decide_eq_false_2; [done|].
      intros Heq%list_elem_of_singleton. lia.
  - intros r Hr Hne. destruct (decide (r < m)%nat) as [Hlt|Hge].
    + apply not_true_is_false. intros [Hsel Hcon]%andb_true_iff.
      unfold selects in Hsel. destruct (heap w !! r) as [n'|] eqn:Hn; [|done].
      destruct (old_lookup _ _ _ _ Hcore Hlt Hn) as (n0 & Hn0 & Hcl & _).
      unfold isConnected in Hcon. apply bool_decide_eq_true_1 in Hcon.
      rewrite Hbw in Hcon. apply (old_connected _ _ Hcore _ Hlt) in Hcon.
      assert (In r (modalNodes w0)) as Hin.
      { unfold modalNodes, connectedMatches. apply List.filter_In.
        split; [apply in_seq; lia|]. apply andb_true_iff. split.
        - unfold selects. rewrite Hn0. cbn [matches] in *.
          unfold has_class in *. by rewrite <- Hcl.
        - unfold isConnected. by apply bool_decide_eq_true_2. }
      rewrite Hnone in Hin. destruct Hin.
    + unfold selects. destruct (heap w !! r) as [n'|] eqn:Hn; [|done].
      destruct (core_lookup _ _ _ _ Hcore _ _ Hn) as (n1 & Hn1 & _ & Hcl & _).
      opened_facts Hop.
      destruct (Hnew r n1 ltac:(lia) Hn1) as (Hnot & _).
      cbn [matches]. unfold has_class. rewrite Hcl.
      by rewrite bool_decide_eq_false_2.
Qed.

Lemma modalNodes_open w : modalInv w1 m false w → modalNodes w = [m].
Proof.
  intros [Hcore Hphase]. by rewrite (modalNodes_core _ _ Hcore), Hphase.
Qed.

Lemma modalNodes_closing w :
  modalInv w1 m true w → modalNodes w = [m] ∨ modalNodes w = [].
Proof.
  intros [Hcore _]. rewrite (modalNodes_core _ _ Hcore).
  destruct (heap w !! m ≫= parentNode); [by left|by right].
Qed.

Lemma modalNodes_closed w :
  modalInv w1 m true w → pendingRemoval m w = false → modalNodes w = [].
Proof.
  intros [Hcore [Hp|Hp]] Hpend; [congruence|].
  by rewrite (modalNodes_core _ _ Hcore), Hp.
Qed.

(** ** The page is fit for the next modal *)

Lemma core_sound closing w : modalCore w1 m closing w → sound w.
Proof.
  intros Hcore.
  split; [intros r; by eapply core_fresh|].
  split; [by eapply core_ordered|].
  split; [by eapply core_body|].
  opened_facts Hop.
  assert (x < nextRef w1)%nat as Hxlt.
  { destruct (decide (x < nextRef w1)%nat); [done|].
    rewrite Hfr in Hx by lia. done. }
  destruct Hcore as (Hn & _ & Hl & _ & Ht). split.
  - intros r type Hr. unfold listenersOn. rewrite Hl, Hls, omap_app.
    destruct Hs as (_ & _ & _ & Hfresh & _).
    fold (listenersOn w0 (Element r) type). rewrite Hfresh by lia.
    cbn [omap list_omap app].
    rewrite !bool_decide_eq_false_2; [done| |]; intros [[=] _]; lia.
  - eapply Forall_impl; [exact Ht|]. intros t Hr r Hu.
    destruct (Hr r Hu) as [?|[_ Heq]]; [lia|].
    rewrite Heq in Hu. injection Hu as <-. lia.
Qed.

Lemma core_quiet closing w :
  modalCore w1 m closing w → listenersOn w (Element (body w)) "click" = [].
Proof.
  intros Hcore. pose proof (body_old _ Hs) as Hblt.
  assert (body w = body w0) as ->.
  { opened_facts Hop. destruct Hcore as (_ & Hbb & _). congruence. }
  apply (quiet_after _ _ _ Hcore); [lia|lia|by left].
Qed.

(** ** The round *)

Lemma round_end idle tgt idle' :
  forallb isHostEvent idle = true → forallb isHostEvent idle' = true →
  tgt = m ∨ tgt = x →
  modalInv w1 m true (run w1 (idle ++ Click tgt :: idle')).
Proof.
  intros Hi Hi' Htgt. rewrite run_app.
  change (run ?w (Click tgt :: idle')) with (run (step w (Click tgt)) idle').
  apply (modalInv_run _ _ Hs Hop); [done|].
  apply click_closes; [|done].
  apply (modalInv_run _ _ Hs Hop); [done|]. apply opened_inv.
Qed.

Lemma round_states idle tgt idle' k :
  forallb isHostEvent idle = true → forallb isHostEvent idle' = true →
  tgt = m ∨ tgt = x →
  ∃ closing, modalInv w1 m closing (run w1 (take k (idle ++ Click tgt :: idle'))).
Proof.
  intros Hi Hi' Htgt. destruct (decide (k ≤ length idle)%nat) as [Hk|Hk].
  - exists false. rewrite take_app_le by done.
    apply (modalInv_run _ _ Hs Hop); [by apply forallb_take|apply opened_inv].
  - exists true. rewrite take_app_ge by lia.
    destruct (k - length idle)%nat as [|k'] eqn:Hk'; [lia|]. cbn [take].
    apply round_end; [done|by apply forallb_take|done].
Qed.

Lemma round_modalNodes idle tgt idle' k :
  forallb isHostEvent idle = true → forallb isHostEvent idle' = true →
  tgt = m ∨ tgt = x →
  modalNodes (run w1 (take k (idle ++ Click tgt :: idle'))) = [m] ∨
  modalNodes (run w1 (take k (idle ++ Click tgt :: idle'))) = [].
Proof.
  intros Hi Hi' Htgt.
  destruct (round_states idle tgt idle' k Hi Hi' Htgt) as [[|] Hinv].
  - by apply modalNodes_closing.
  - left. by apply modalNodes_open.
Qed.

(** Once the 300ms have passed the removal is due, and it has run when
    the timers that were due have fired. *)
Lemma round_completes w tgt ms n :
  modalInv w1 m false w → tgt = m ∨ tgt = x →
  (300 ≤ ms)%N → (length (timers w) < n)%nat →
  pendingRemoval m (run w (Click tgt :: Wait ms :: repeat Fire n)) = false.
Proof.
  intros Hinv Htgt Hms Hn.
  destruct (click_closes _ _ Hinv Htgt) as (_ & Hts & Hclk & _).
  change (run w (Click tgt :: Wait ms :: ?l))
    with (run (step (step w (Click tgt)) (Wait ms)) l).
  remember (step w (Click tgt)) as wc eqn:Hwc. clear Hwc. cbn [step].
  apply fire_drains.
  - unfold removalsDue. cbn. rewrite Hts, Hclk. apply Forall_app. split.
    + destruct Hinv as [(_ & _ & _ & _ & Ht) _].
      eapply Forall_impl; [exact Ht|]. intros t Hr Heq.
      destruct (Hr m) as [?|[? _]]; [by rewrite Heq|lia|done].
    + apply Forall_singleton. intros _. cbn. lia.
  - unfold dueTimers. etrans; [apply List.filter_length_le|].
    cbn. rewrite Hts, length_app. cbn. lia.
Qed.
End round.

(** ** Opening and closing *)

Lemma openModal_opened w0 item : sound w0 → opened w0 (openModal w0 item).
Proof.
  intros Hs. destruct item as [[imageSrc title] description]. cbn [openModal].
  destruct (openPortfolioModal_opened w0 imageSrc title description Hs)
    as (w1 & Hrun & Hop).
  by rewrite (hostCall_ok _ _ _ Hrun).
Qed.

Lemma closeTarget_opened w0 w1 how tgt :
  opened w0 w1 → closeTarget w1 (nextRef w0) how = Some tgt →
  tgt = nextRef w0 ∨ tgt = S (S (S (S (nextRef w0)))).
Proof.
  intros Hop. opened_facts Hop. destruct how; cbn [closeTarget].
  - intros [= <-]. by left.
  - rewrite Hqx. intros [= <-]. by right.
Qed.

(** One round: the modal is opened on a page without modals, a click
    closes it, and timers run before and after the click. *)
Lemma modal_round w0 item idle how tgt rest :
  sound w0 → modalNodes w0 = [] →
  listenersOn w0 (Element (body w0)) "click" = [] →
  forallb isHostEvent idle = true → forallb isHostEvent rest = true →
  closeTarget (openModal w0 item) (nextRef w0) how = Some tgt →
  modalNodes (openModal w0 item) = [nextRef w0] ∧
  (∀ k, atMostModal (nextRef w0)
          (run (openModal w0 item) (take k (idle ++ Click tgt :: rest)))) ∧
  (pendingRemoval (nextRef w0)
     (run (openModal w0 item) (idle ++ Click tgt :: rest)) = false →
   modalNodes (run (openModal w0 item) (idle ++ Click tgt :: rest)) = []) ∧
  sound (run (openModal w0 item) (idle ++ Click tgt :: rest)) ∧
  listenersOn (run (openModal w0 item) (idle ++ Click tgt :: rest))
    (Element (body (run (openModal w0 item) (idle ++ Click tgt :: rest))))
    "click" = [].
Proof.
  intros Hs Hnone Hquiet Hidle Hrest Htgt.
  pose proof (openModal_opened w0 item Hs) as Hop.
  apply (closeTarget_opened _ _ _ _ Hop) in Htgt.
  pose proof (round_end _ _ Hs Hop Hquiet idle tgt rest Hidle Hrest Htgt) as Hend.
  split; [apply (modalNodes_open _ _ Hs Hop Hnone), (opened_inv _ _ Hs Hop)|].
  split; [intros k; by apply (round_modalNodes _ _ Hs Hop Hquiet Hnone)|].
  split; [by apply (modalNodes_closed _ _ Hs Hop Hnone)|].
  destruct Hend as [Hcore _].
  split; [by apply (core_sound _ _ Hs Hop _ _ Hcore)|].
  by apply (core_quiet _ _ Hs Hop Hquiet _ _ Hcore).
Qed.

(** The closing animation completes: 300ms after the click, once the
    timers that were due have fired, the removal is no longer pending. *)
Lemma closing_animation_completes w0 item idle how tgt ms n :
  wellFormedb w0 = true →
  listenersOn w0 (Element (body w0)) "click" = [] →
  forallb isHostEvent idle = true →
  closeTarget (openModal w0 item) (nextRef w0) how = Some tgt →
  (300 ≤ ms)%N →
  (length (timers (run (openModal w0 item) idle)) < n)%nat →
  pendingRemoval (nextRef w0)
    (run (openModal w0 item) (idle ++ Click tgt :: Wait ms :: repeat Fire n))
  = false.
Proof.
  intros Hw%wellFormedb_true%wf_sound Hquiet Hidle Htgt Hms Hn.
  pose proof (openModal_opened w0 item Hw) as Hop.
  apply (closeTarget_opened _ _ _ _ Hop) in Htgt.
  rewrite run_app.
  apply (round_completes _ _ Hw Hop Hquiet); [|done..].
  apply (modalInv_run _ _ Hw Hop); [done|]. apply (opened_inv _ _ Hw Hop).
Qed.

(** C4 — the portfolio modal is opened and closed twice in succession,
    each time for an item whose strings hold no markup and by a click on
    the backdrop or on the close button, on a page that had no modal;
    timers fire as they come due in between.  Right
    after each opening the document holds the one node of that modal; once
    the removal armed by [closeModal] (300ms) has run the document holds
    no portfolio modal; and at every moment of each round at most the one
    node of the modal just created is there. *)
Theorem portfolio_modal_twice w0 item1 item2 idle1 how1 tgt1 rest1
    idle2 how2 tgt2 rest2 open1 closed1 open2 closed2 :
  wellFormedb w0 = true →
  modalNodes w0 = [] →
  listenersOn w0 (Element (body w0)) "click" = [] →
  forallb isHostEvent (idle1 ++ rest1 ++ idle2 ++ rest2) = true →
  plainItem item1 = true → plainItem item2 = true →
  open1 = openModal w0 item1 →
  closeTarget open1 (nextRef w0) how1 = Some tgt1 →
  closed1 = run open1 (idle1 ++ Click tgt1 :: rest1) →
  pendingRemoval (nextRef w0) closed1 = false →
  open2 = openModal closed1 item2 →
  closeTarget open2 (nextRef closed1) how2 = Some tgt2 →
  closed2 = run open2 (idle2 ++ Click tgt2 :: rest2) →
  pendingRemoval (nextRef closed1) closed2 = false →
  modalNodes open1 = [nextRef w0] ∧ modalNodes closed1 = [] ∧
  modalNodes open2 = [nextRef closed1] ∧ modalNodes closed2 = [] ∧
  (∀ k, atMostModal (nextRef w0)
          (run open1 (take k (idle1 ++ Click tgt1 :: rest1)))) ∧
  (∀ k, atMostModal (nextRef closed1)
          (run open2 (take k (idle2 ++ Click tgt2 :: rest2)))).
Proof.
  intros Hw%wellFormedb_true%wf_sound Hnone Hquiet Hhost _ _
    -> Htgt1 -> Hdone1 -> Htgt2 -> Hdone2.
  rewrite !forallb_app, !andb_true_iff in Hhost.
  destruct Hhost as (Hidle1 & Hrest1 & Hidle2 & Hrest2).
  destruct (modal_round w0 item1 idle1 how1 tgt1 rest1
              Hw Hnone Hquiet Hidle1 Hrest1 Htgt1)
    as (Hopen1 & Hmost1 & Hclosed1 & Hw' & Hquiet').
  specialize (Hclosed1 Hdone1).
  destruct (modal_round _ item2 idle2 how2 tgt2 rest2
              Hw' Hclosed1 Hquiet' Hidle2 Hrest2 Htgt2)
    as (Hopen2 & Hmost2 & Hclosed2 & _ & _).
  specialize (Hclosed2 Hdone2).
  done.
Qed.

Lemma portfolio_modal_twice_witness :
  let open1 := openModal portfolioPage wiringItem in
  let closed1 := run open1 [Wait 10; Fire; Click 5; Wait 300; Fire] in
  let open2 := openModal closed1 panelItem in
  let closed2 := run open2 [Wait 10; Fire; Click 16; Wait 300; Fire] in
  modalNodes open1 = [5%nat] ∧ modalNodes closed1 = [] ∧
  modalNodes open2 = [12%nat] ∧ modalNodes closed2 = [].
Proof.
  cbv zeta.
  destruct (portfolio_modal_twice portfolioPage wiringItem panelItem
              [Wait 10; Fire] Backdrop 5%nat [Wait 300; Fire]
              [Wait 10; Fire] CloseButton 16%nat [Wait 300; Fire]
              _ _ _ _
              ltac:(vm_compute; reflexivity) ltac:(vm_compute; reflexivity)
              ltac:(vm_compute; reflexivity) ltac:(vm_compute; reflexivity)
              ltac:(vm_compute; reflexivity) ltac:(vm_compute; reflexivity)
              eq_refl ltac:(vm_compute; reflexivity)
              eq_refl ltac:(vm_compute; reflexivity)
              eq_refl ltac:(vm_compute; reflexivity)
              eq_refl ltac:(vm_compute; reflexivity))
    as (H1 & H2 & H3 & H4 & _).
  split; [etrans; [exact H1|]; vm_compute; reflexivity|].
  split; [exact H2|]. split; [|exact H4].
  etrans; [exact H3|]. vm_compute. reflexivity.
Defined.

(** * More about toasts *)

Lemma slideOut_idemp n : slideOut (slideOut n) = slideOut n.
Proof. unfold slideOut, with_style. cbn. by rewrite insert_insert_eq. Qed.

Lemma animateToastOut_run {B} toast (k : unit → M B) w n :
  heap w !! toast = Some n →
  (animateToastOut toast ≫= k) w =
  k tt (with_timers (timers w ++ [(clock w + 300, RemoveToast toast)])
          (with_heap (<[toast := slideOut n]> (heap w)) w)).
Proof.
  intros Hn. unfold animateToastOut. rewrite run_bind_assoc.
  erewrite run_bind_setStyle by done. by rewrite run_bind_setTimeout.
Qed.

Lemma forEach_animateToastOut l : ∀ w,
  Forall (λ t, is_Some (heap w !! t)) l →
  ∃ h', forEach l animateToastOut w =
          (with_timers (timers w ++ map (λ t, (clock w + 300, RemoveToast t)) l)
             (with_heap h' w), inr tt) ∧
        ∀ r, h' !! r = if bool_decide (r ∈ l) then slideOut <$> heap w !! r
                       else heap w !! r.
Proof.
  induction l as [|t l IH]; intros w Hl.
  - exists (heap w). cbn. rewrite app_nil_r. split; [by destruct w|].
    intros r. rewrite bool_decide_eq_false_2; [done|]. apply not_elem_of_nil.
  - apply Forall_cons in Hl as [[n Hn] Hl]. cbn [forEach].
    erewrite animateToastOut_run by done.
    set (w1 := with_timers _ _).
    destruct (IH w1) as (h' & Hrun & Hh).
    { eapply Forall_impl; [exact Hl|]. intros r [nr Hr]. subst w1. cbn.
      destruct (decide (r = t)) as [->|Hne];
        [rewrite lookup_insert_eq|rewrite lookup_insert_ne by done]; eauto. }
    exists h'. split.
    + rewrite Hrun. subst w1. unfold with_timers, with_heap. cbn.
      by rewrite <- app_assoc.
    + intros r. rewrite Hh. subst w1. cbn.
      destruct (decide (r = t)) as [->|Hne].
      * rewrite lookup_insert_eq, (bool_decide_eq_true_2 (t ∈ t :: l)) by left.
        rewrite Hn. cbn. case_bool_decide; [by rewrite slideOut_idemp|done].
      * rewrite lookup_insert_ne by done.
        destruct (bool_decide_reflect (r ∈ l)) as [Hin|Hin].
        -- rewrite bool_decide_eq_true_2; [done|by right].
        -- rewrite bool_decide_eq_false_2; [done|].
           by intros [?|?]%elem_of_cons.
Qed.

(** X1 — [initToastSystem] arms one sweep five seconds ahead and wires every
    ".toast-close" present, leaving the document as it is, whether or not
    there is a "#toast-container".  When the sweep runs it gives every toast
    then in the document the slide-out animation and one removal timer
    300ms ahead, in document order; it changes nothing else and does not
    throw. *)
Theorem toast_sweep w :
  initToastSystem w =
    (with_listeners
       (listeners w ++ map (λ b, (Element b, "click", OnStaticToastClose))
                           (queryAll w (Class "toast-close")))
       (with_timers (timers w ++ [(clock w + 5000, SweepToasts)]) w), inr tt) ∧
  ∃ h', runCallback SweepToasts w =
          (with_timers
             (timers w ++ map (λ t, (clock w + 300, RemoveToast t))
                              (queryAll w (Class "toast")))
             (with_heap h' w), inr tt) ∧
        ∀ r, h' !! r = if bool_decide (r ∈ queryAll w (Class "toast"))
                       then slideOut <$> heap w !! r
                       else heap w !! r.
Proof.
  split.
  - unfold initToastSystem, getElementById, querySelector, querySelectorAll.
    rewrite run_bind_gets, run_bind_setTimeout, run_bind_gets.
    by rewrite forEach_addEventListener.
  - cbn [runCallback]. unfold querySelectorAll. rewrite run_bind_gets.
    apply forEach_animateToastOut. apply Forall_forall. intros t Ht.
    apply queryAll_elem in Ht as (n & Hn & _). eauto.
Qed.

(** X2 — the removal [animateToastOut] arms: when it fires on a toast that
    still hangs in the tree, the toast is unlinked from its parent and is
    no longer in the document, nothing else changes and nothing is thrown;
    a second removal timer for the same toast (two dismissals) and the
    toast's own expiry timer then find it gone and do nothing. *)
Theorem toast_removal w toast n p np :
  heap w !! toast = Some n → parentNode n = Some p →
  heap w !! p = Some np → p ≠ toast → toast ≠ body w →
  let w' := exec (runCallback (RemoveToast toast)) w in
  outcome (runCallback (RemoveToast toast)) w = inr tt ∧
  heap w' !! toast = Some (with_parentNode None n) ∧
  heap w' !! p =
    Some (with_childNodes
            (List.filter (λ c, negb (c =? toast)%nat) (childNodes np)) np) ∧
  (∀ r, r ≠ toast → r ≠ p → heap w' !! r = heap w !! r) ∧
  w' = with_heap (heap w') w ∧
  isConnected w' toast = false ∧
  runCallback (RemoveToast toast) w' = (w', inr tt) ∧
  runCallback (ExpireToast toast) w' = (w', inr tt).
Proof.
  intros Hn Hp Hnp Hne Hb.
  assert (runCallback (RemoveToast toast) w =
          (with_heap
             (<[toast := with_parentNode None n]>
                (<[p := with_childNodes
                          (List.filter (λ c, negb (c =? toast)%nat) (childNodes np))
                          np]> (heap w))) w, inr tt)) as Hrun.
  { cbn [runCallback]. erewrite run_bind_read by done. rewrite Hp.
    rewrite (run_bind_last (remove toast)).
    by erewrite run_bind_remove_attached. }
  unfold exec, outcome. rewrite Hrun. cbn [fst snd].
  split; [done|]. split; [cbn; by rewrite lookup_insert_eq|].
  split; [cbn; rewrite lookup_insert_ne by done; by rewrite lookup_insert_eq|].
  split; [intros r H1 H2; cbn; by rewrite !lookup_insert_ne|].
  split; [done|]. split.
  - unfold isConnected. apply bool_decide_eq_false_2. cbn.
    erewrite inclusiveAncestors_root; [|by rewrite lookup_insert_eq|done].
    intros Hin%list_elem_of_singleton. done.
  - split; cbn [runCallback].
    + erewrite run_bind_read; [|cbn; by rewrite lookup_insert_eq]. done.
    + erewrite run_bind_read; [|cbn; by rewrite lookup_insert_eq]. done.
Qed.

Lemma toast_removal_witness :
  let w' := exec (runCallback (RemoveToast 2)) savedToastPage in
  isConnected savedToastPage 2 = true ∧
  isConnected w' 2 = false ∧
  runCallback (RemoveToast 2) w' = (w', inr tt) ∧
  runCallback (ExpireToast 2) w' = (w', inr tt).
Proof.
  destruct (toast_removal savedToastPage 2%nat _ 1%nat _
              ltac:(vm_compute; reflexivity) ltac:(vm_compute; reflexivity)
              ltac:(vm_compute; reflexivity) ltac:(lia) ltac:(vm_compute; lia))
    as (_ & _ & _ & _ & _ & H1 & H2 & H3).
  split; [vm_compute; reflexivity|]. exact (conj H1 (conj H2 H3)).
Defined.

(** X12 — the close controls [initToastSystem] wires at load.  A click on
    one that sits inside a ".toast" gives that toast the slide-out
    animation and arms its removal 300ms ahead; a click on one that sits in
    no ".toast" makes the listener throw: the host reports a TypeError and
    the page is otherwise untouched. *)
Theorem static_toast_close w button target :
  pathListeners w target "click" = [(button, OnStaticToastClose)] →
  (∀ toast, closestTo w button (Class "toast") = Some toast →
     ∃ n, heap w !! toast = Some n ∧
          step w (Click target) =
            with_timers (timers w ++ [(clock w + 300, RemoveToast toast)])
              (with_heap (<[toast := slideOut n]> (heap w)) (freshEvent w))) ∧
  (closestTo w button (Class "toast") = None →
   step w (Click target) =
     with_uncaught (uncaught w ++ [TypeError "style"]) (freshEvent w)).
Proof.
  intros Hpath. split.
  - intros toast Hc.
    destruct (head_filter_selects _ _ _ _ Hc) as (_ & n & Hn & _).
    exists n. split; [done|]. cbn [step].
    assert (runListener OnStaticToastClose button target (freshEvent w) =
            (with_timers (timers w ++ [(clock w + 300, RemoveToast toast)])
               (with_heap (<[toast := slideOut n]> (heap w)) (freshEvent w)),
             inr tt)) as Hrun.
    { cbn [runListener]. unfold closest. rewrite run_bind_gets.
      change (closestTo (freshEvent w) button) with (closestTo w button).
      rewrite Hc. cbn [nonNull]. rewrite run_bind_ret.
      rewrite (run_bind_last (animateToastOut toast)).
      by erewrite animateToastOut_run. }
    rewrite (dispatch_single w target "click" button OnStaticToastClose Hpath);
      by rewrite (hostCall_ok _ _ _ Hrun).
  - intros Hc. cbn [step].
    assert (runListener OnStaticToastClose button target (freshEvent w) =
            (freshEvent w, inl (TypeError "style"))) as Hrun.
    { cbn [runListener]. unfold closest. rewrite run_bind_gets.
      change (closestTo (freshEvent w) button) with (closestTo w button).
      by rewrite Hc. }
    rewrite (dispatch_single w target "click" button OnStaticToastClose Hpath);
      unfold hostCall; by rewrite Hrun.
Qed.

Lemma static_toast_close_witness :
  timers (step messagePage (Click 3)) =
    [(5000, SweepToasts); (300, RemoveToast 2)] ∧
  uncaught (step messagePage (Click 4)) = [TypeError "style"].
Proof.
  destruct (static_toast_close messagePage 3%nat 3%nat
              ltac:(vm_compute; reflexivity)) as [H3 _].
  destruct (static_toast_close messagePage 4%nat 4%nat
              ltac:(vm_compute; reflexivity)) as [_ H4].
  destruct (H3 2%nat ltac:(vm_compute; reflexivity)) as (n & _ & Heq).
  rewrite Heq, H4 by (vm_compute; reflexivity).
  split; vm_compute; reflexivity.
Defined.

(** ** What [showToast] builds *)

(** On a page whose child lists and parent links agree, what a query
    finds is in the document. *)
Lemma ancestors_trans h : ∀ x c p,
  ordered h → c ∈ inclusiveAncestors h x → p ∈ inclusiveAncestors h c →
  p ∈ inclusiveAncestors h x.
Proof.
  intros x. induction x as [x IH] using lt_wf_ind. intros c p Ho Hc Hp.
  destruct (h !! x ≫= parentNode) as [q|] eqn:E.
  - destruct (h !! x) as [n|] eqn:Hx; [|done]. cbn in E.
    rewrite (inclusiveAncestors_cons _ _ _ _ Ho Hx E) in Hc |- *.
    apply elem_of_cons in Hc as [->|Hc].
    + by rewrite (inclusiveAncestors_cons _ _ _ _ Ho Hx E) in Hp.
    + right. apply (IH q (Ho _ _ _ Hx E) c p Ho Hc Hp).
  - rewrite (inclusiveAncestors_None _ _ E) in Hc.
    by apply list_elem_of_singleton in Hc as ->.
Qed.

Lemma descendants_ancestor w f : ∀ r x,
  wellFormed w → linked w → x ∈ descendants f (heap w) r →
  r ∈ inclusiveAncestors (heap w) x.
Proof.
  induction f as [|f IH]; intros r x Hw Hl Hx; [by apply elem_of_nil in Hx|].
  cbn [descendants] in Hx.
  destruct (heap w !! r) as [n|] eqn:E; [|by apply elem_of_nil in Hx].
  apply elem_of_flat_map in Hx as (c & Hc & Hx).
  pose proof (Hl _ _ E) as Hk. rewrite Forall_forall in Hk.
  specialize (Hk c Hc).
  destruct (heap w !! c) as [nc|] eqn:Ec; [|done]. cbn in Hk.
  assert (r ∈ inclusiveAncestors (heap w) c) as Hr.
  { rewrite (inclusiveAncestors_cons _ _ _ _ (wf_ordered _ Hw) Ec Hk).
    right. apply inclusiveAncestors_head. }
  apply elem_of_cons in Hx as [->|Hx]; [done|].
  eapply ancestors_trans; [by apply wf_ordered| |exact Hr]. by apply IH.
Qed.

Lemma queryAll_connected w sel r :
  wellFormed w → linked w → r ∈ queryAll w sel → isConnected w r = true.
Proof.
  intros Hw Hl Hr. apply bool_decide_eq_true_2.
  apply list_elem_of_In, filter_In in Hr as [Hr _].
  apply list_elem_of_In, elem_of_cons in Hr as [->|Hr].
  - apply inclusiveAncestors_head.
  - by eapply descendants_ancestor.
Qed.

Lemma showToast_run w message type :
  wellFormed w →
  ∃ w' container toast nt,
    showToast message type w = (w', inr tt) ∧
    body w' = body w ∧
    (∀ x, (x < nextRef w)%nat →
       heap w' !! x ≫= parentNode = heap w !! x ≫= parentNode) ∧
    match query w (Id "toast-container") with
    | Some c =>
        container = c ∧ toast = nextRef w ∧
        ∃ nc, heap w !! c = Some nc ∧
              (childNodes <$> heap w' !! c) = Some (childNodes nc ++ [toast])
    | None =>
        container = nextRef w ∧ toast = S (nextRef w) ∧
        heap w' !! container =
          Some (Node "DIV" "toast-container" ["toast-container"] ∅ ∅ ""
                     (Some (body w)) [toast] 0 0 0) ∧
        ∃ b, heap w !! body w = Some b ∧
             (childNodes <$> heap w' !! body w) = Some (childNodes b ++ [container])
    end ∧
    heap w !! toast = None ∧
    heap w' !! toast = Some nt ∧
    classList nt = String.words ("toast " ++ default "success" type) ∧
    parentNode nt = Some container ∧
    childNodes nt = [S toast; S (S toast)] ∧
    heap w' !! S toast = Some (markupNode "DIV" "toast-message" [] message toast []) ∧
    heap w' !! S (S toast) = Some (markupNode "BUTTON" "toast-close" [] "✕" toast []) ∧
    listeners w' = listeners w ++ [(Element (S (S toast)), "click", OnToastClose toast)] ∧
    timers w' = timers w ++ [(clock w + 5000, ExpireToast toast)] ∧
    defaultPrevented w' = defaultPrevented w ∧ uncaught w' = uncaught w.
Proof.
  intros Hw. destruct (wf_body _ Hw) as (b & Hb & Hbp).
  fresh_refs w Hw. pose proof (wf_lt _ _ _ Hw Hb).
  unfold showToast, getElementById, querySelector, setInnerHTML,
    elementQuerySelector.
  repeat mstep.
  destruct (query w _) as [c|] eqn:E.
  - destruct (query_Some _ _ _ E) as (nc & Hc & _).
    pose proof (wf_lt _ _ _ Hw Hc).
    eexists _, c, (nextRef w), _. split.
    { repeat mstep. qeval. repeat mstep. reflexivity. }
    wsimpl. split; [reflexivity|]. split.
    { intros x Hx. destruct (decide (x = c)) as [->|Hne].
      - repeat first [ rewrite lookup_insert_eq | rewrite lookup_insert_ne by lia ].
        by rewrite Hc.
      - by rewrite !lookup_insert_ne by (first [lia|congruence]). }
    split.
    { split; [reflexivity|]. split; [reflexivity|]. exists nc.
      split; [assumption|]. rewrite !lookup_insert_ne by lia.
      by rewrite lookup_insert_eq. }
    split; [assumption|]. split; [hlookup|].
    repeat (split; [first [reflexivity|hlookup]|]). reflexivity.
  - eexists _, (nextRef w), (S (nextRef w)), _. split.
    { unfold createToastContainer. repeat mstep. qeval. repeat mstep.
      reflexivity. }
    wsimpl. split; [reflexivity|]. split.
    { intros x Hx. destruct (decide (x = body w)) as [->|Hne].
      - repeat first [ rewrite lookup_insert_eq | rewrite lookup_insert_ne by lia ].
        by rewrite Hb.
      - by rewrite !lookup_insert_ne by (first [lia|congruence]). }
    split.
    { split; [reflexivity|]. split; [reflexivity|]. split; [hlookup|].
      exists b. split; [assumption|]. rewrite !lookup_insert_ne by lia.
      by rewrite lookup_insert_eq. }
    split; [assumption|]. split; [hlookup|].
    repeat (split; [first [reflexivity|hlookup]|]). reflexivity.
Qed.

(** The banner [showToast] makes is in the document. *)
Lemma showToast_connected w w' container toast nt :
  wellFormed w → linked w →
  body w' = body w →
  (∀ x, (x < nextRef w)%nat →
     heap w' !! x ≫= parentNode = heap w !! x ≫= parentNode) →
  match query w (Id "toast-container") with
  | Some c => container = c ∧ toast = nextRef w
  | None =>
      container = nextRef w ∧ toast = S (nextRef w) ∧
      heap w' !! container ≫= parentNode = Some (body w)
  end →
  heap w' !! toast = Some nt → parentNode nt = Some container →
  isConnected w' toast = true.
Proof.
  intros Hw Hl Hbody Hframe Hcase Hnt Hp.
  apply bool_decide_eq_true_2. rewrite Hbody. unfold inclusiveAncestors.
  destruct (wf_body _ Hw) as (b & Hb & _). pose proof (wf_lt _ _ _ Hw Hb) as Hlt.
  destruct (query w (Id "toast-container")) as [c|] eqn:E.
  - destruct Hcase as (-> & ->).
    assert (c ∈ queryAll w (Id "toast-container")) as Hin
      by (by apply head_Some_elem_of).
    pose proof (queryAll_connected _ _ _ Hw Hl Hin) as Hconn.
    apply bool_decide_eq_true_1 in Hconn.
    destruct (queryAll_elem _ _ _ Hin) as (nc & Hc & _).
    pose proof (wf_lt _ _ _ Hw Hc) as Hclt.
    destruct (nextRef w) as [|k] eqn:Ek; [lia|].
    cbn [ancestorsWithin]. rewrite Hnt. cbn. rewrite Hp. right.
    rewrite <- (ancestorsWithin_ext_below k (heap w) (heap w') c
                  (wf_ordered _ Hw)).
    + rewrite (ancestorsWithin_fuel _ _ _ (wf_ordered _ Hw)) by lia. exact Hconn.
    + intros x Hx. symmetry. apply Hframe. lia.
  - destruct Hcase as (-> & -> & Hcp).
    cbn [ancestorsWithin]. rewrite Hnt. cbn. rewrite Hp. right.
    destruct (nextRef w) as [|k] eqn:Ek; [lia|].
    cbn [ancestorsWithin]. rewrite Hcp. right.
    destruct k; cbn [ancestorsWithin]; by left.
Qed.

(** X3 — [showToast(message, type)] on any page: the banner goes into the
    existing "#toast-container", as its last child, or into a new one that
    [createToastContainer] appends to [document.body]; it is a new node
    whose classes are the words of "toast <type>" ("success" when the type
    is left out), holding the message, which has no markup in it, and a
    close control wired to dismiss this banner; one expiry timer is armed
    five seconds ahead. *)
Theorem showToast_builds w message type :
  wellFormedb w = true →
  plainText message = true →
  ∃ w' container toast nt,
    showToast message type w = (w', inr tt) ∧
    match query w (Id "toast-container") with
    | Some c =>
        container = c ∧ toast = nextRef w ∧
        ∃ nc, heap w !! c = Some nc ∧
              (childNodes <$> heap w' !! c) = Some (childNodes nc ++ [toast])
    | None =>
        container = nextRef w ∧ toast = S (nextRef w) ∧
        heap w' !! container =
          Some (Node "DIV" "toast-container" ["toast-container"] ∅ ∅ ""
                     (Some (body w)) [toast] 0 0 0) ∧
        ∃ b, heap w !! body w = Some b ∧
             (childNodes <$> heap w' !! body w) = Some (childNodes b ++ [container])
    end ∧
    heap w !! toast = None ∧
    heap w' !! toast = Some nt ∧
    classList nt = String.words ("toast " ++ default "success" type) ∧
    parentNode nt = Some container ∧
    childNodes nt = [S toast; S (S toast)] ∧
    heap w' !! S toast = Some (markupNode "DIV" "toast-message" [] message toast []) ∧
    heap w' !! S (S toast) = Some (markupNode "BUTTON" "toast-close" [] "✕" toast []) ∧
    listeners w' = listeners w ++ [(Element (S (S toast)), "click", OnToastClose toast)] ∧
    timers w' = timers w ++ [(clock w + 5000, ExpireToast toast)] ∧
    defaultPrevented w' = defaultPrevented w ∧ uncaught w' = uncaught w.
Proof.
  intros Hw%wellFormedb_true _.
  destruct (showToast_run w message type Hw)
    as (w' & container & toast & nt & Hrun & _ & _ & H).
  by exists w', container, toast, nt.
Qed.

Lemma showToast_builds_witness :
  ∃ w' nt,
    showToast "Saved" (Some "warning") savedToastPage = (w', inr tt) ∧
    heap w' !! 5%nat = Some nt ∧
    classList nt = ["toast"; "warning"] ∧ parentNode nt = Some 1%nat.
Proof.
  destruct (showToast_builds savedToastPage "Saved" (Some "warning")
              ltac:(vm_compute; reflexivity) ltac:(vm_compute; reflexivity))
    as (w' & container & toast & nt & Hrun & Hc & _ & Hnt & Hcl & Hp & _).
  assert (query savedToastPage (Id "toast-container") = Some 1%nat) as Hq
    by (vm_compute; reflexivity).
  assert (nextRef savedToastPage = 5%nat) as Hn by (vm_compute; reflexivity).
  rewrite Hq in Hc. destruct Hc as (-> & -> & _). rewrite Hn in Hnt.
  exists w', nt. split; [exact Hrun|]. split; [exact Hnt|].
  split; [|exact Hp]. etrans; [exact Hcl|]. vm_compute. reflexivity.
Defined.

(** X4 — [initProfileContactButtons] wires whichever of the two contact
    controls the page has and skips the one it lacks.  The listener of the
    disabled control prevents the default action and shows an "info"
    banner: a new node that is in the document and whose first child is
    the message element with the fixed notice; the banner is armed to
    expire in five seconds. *)
Theorem disabled_contact_click w this target :
  wellFormedb w = true → linkedb w = true →
  listeners (exec initProfileContactButtons w) =
    listeners w ++
    match query w (Class "contact-button") with
    | Some b => [(Element b, "click", OnContact)]
    | None => []
    end ++
    match query w (Class "contact-disabled") with
    | Some b => [(Element b, "click", OnContactDisabled)]
    | None => []
    end ∧
  outcome initProfileContactButtons w = inr tt ∧
  ∃ w' toast nt,
    runListener OnContactDisabled this target w = (w', inr tt) ∧
    defaultPrevented w' = true ∧
    heap w !! toast = None ∧
    heap w' !! toast = Some nt ∧
    classList nt = ["toast"; "info"] ∧
    isConnected w' toast = true ∧
    childNodes nt = [S toast; S (S toast)] ∧
    heap w' !! S toast =
      Some (markupNode "DIV" "toast-message" []
              "التواصل عبر واتساب موقوف مؤقتًا حسب سياسة المنصة" toast []) ∧
    timers w' = timers w ++ [(clock w + 5000, ExpireToast toast)].
Proof.
  intros Hw%wellFormedb_true Hl%bool_decide_eq_true_1.
  assert (initProfileContactButtons w =
          (with_listeners
             (listeners w ++
              match query w (Class "contact-button") with
              | Some b => [(Element b, "click", OnContact)]
              | None => []
              end ++
              match query w (Class "contact-disabled") with
              | Some b => [(Element b, "click", OnContactDisabled)]
              | None => []
              end) w, inr tt)) as Hinit.
  { unfold initProfileContactButtons, querySelector.
    rewrite !run_bind_gets.
    destruct (query w (Class "contact-button")),
      (query w (Class "contact-disabled"));
      rewrite ?run_bind_addEventListener, ?run_bind_ret;
      unfold addEventListener, update, mret, M_ret, with_listeners; cbn;
      rewrite <- ?app_assoc, ?app_nil_r; try done.
    by destruct w. }
  unfold exec, outcome. rewrite Hinit. split; [done|]. split; [done|].
  cbn [runListener]. unfold preventDefault. rewrite run_bind_update.
  destruct (showToast_run (with_defaultPrevented true w)
              "التواصل عبر واتساب موقوف مؤقتًا حسب سياسة المنصة" (Some "info") Hw)
    as (w' & container & toast & nt & Hrun & Hbody & Hframe & Hcase & Hf & Hnt
        & Hcl & Hp & Hkids & Hmsg & _ & _ & Hts & Hdp & _).
  exists w', toast, nt. split; [exact Hrun|]. split; [by rewrite Hdp|].
  split; [exact Hf|]. split; [exact Hnt|]. split; [exact Hcl|].
  split; [|by split].
  apply (showToast_connected (with_defaultPrevented true w) w' container toast nt
           Hw Hl Hbody Hframe); [|exact Hnt|exact Hp].
  destruct (query (with_defaultPrevented true w) (Id "toast-container"));
    [by destruct Hcase as (? & ? & _)|].
  destruct Hcase as (-> & -> & -> & _). by split.
Qed.

Lemma disabled_contact_click_witness :
  listeners (exec initProfileContactButtons profilePage) =
    [(Element 2, "click", OnContactDisabled)] ∧
  ∃ w' toast nt,
    runListener OnContactDisabled 2 2 profilePage = (w', inr tt) ∧
    defaultPrevented w' = true ∧
    heap w' !! toast = Some nt ∧ classList nt = ["toast"; "info"] ∧
    isConnected w' toast = true.
Proof.
  destruct (disabled_contact_click profilePage 2%nat 2%nat
              ltac:(vm_compute; reflexivity) ltac:(vm_compute; reflexivity))
    as (Hl & _ & w' & toast & nt & Hrun & Hdp & _ & Hnt & Hcl & Hconn & _).
  split; [etrans; [exact Hl|]; vm_compute; reflexivity|].
  exists w', toast, nt.
  exact (conj Hrun (conj Hdp (conj Hnt (conj Hcl Hconn)))).
Defined.

(** * Queries on a page whose nodes change in place *)

Lemma descendants_insert_same f h r n n' : ∀ x,
  h !! r = Some n → childNodes n' = childNodes n →
  descendants f (<[r := n']> h) x = descendants f h x.
Proof.
  induction f as [|f IH]; intros x Hr Hk; [done|]. cbn [descendants].
  destruct (decide (x = r)) as [->|Hne].
  - rewrite lookup_insert_eq, Hr, Hk. apply flat_map_ext. intros c.
    by rewrite IH.
  - rewrite lookup_insert_ne by done. destruct (h !! x); [|done].
    apply flat_map_ext. intros c. by rewrite IH.
Qed.

Lemma selects_insert_same h sel r n n' x :
  h !! r = Some n → matches sel n' = matches sel n →
  selects (<[r := n']> h) sel x = selects h sel x.
Proof.
  intros Hr Hm. unfold selects. destruct (decide (x = r)) as [->|Hne].
  - by rewrite lookup_insert_eq, Hr.
  - by rewrite lookup_insert_ne.
Qed.

Lemma queryAll_insert_same w sel r n n' :
  heap w !! r = Some n → childNodes n' = childNodes n →
  matches sel n' = matches sel n →
  queryAll (with_heap (<[r := n']> (heap w)) w) sel = queryAll w sel.
Proof.
  intros Hr Hk Hm. unfold queryAll, with_heap. cbn [heap nextRef body].
  rewrite (descendants_insert_same _ _ _ _ _ _ Hr Hk).
  apply List.filter_ext. intros x. by eapply selects_insert_same.
Qed.

Lemma has_class_remove_ne c c' n :
  c ≠ c' → has_class c (classList_remove c' n) = has_class c n.
Proof.
  intros Hne. unfold has_class, classList_remove. cbn.
  apply bool_decide_ext. rewrite !list_elem_of_In, List.filter_In.
  rewrite negb_true_iff, bool_decide_eq_false. intuition congruence.
Qed.

(** * In-page links *)

(** X5 — the click listener [initSmoothScroll] puts on an in-page link: a
    link whose href is at most one character long ("#" alone), or is "#"
    and an identifier that names no element of the document, is left to
    the browser (nothing changes, the default is not prevented); when the
    href is "#" and an identifier that names an element, the default is
    prevented, the mobile menu is closed and one smooth scroll is
    requested, to the target's distance from the top of the page less the
    height of the header, whatever the scroll offset. *)
Theorem anchor_click_scrolls w link n href target :
  heap w !! link = Some n → attributes n !! "href" = Some href →
  ((String.length href ≤ 1)%nat →
   runListener OnAnchorClick link target w = (w, inr tt)) ∧
  (plainFragment href = true → query w (hashSelector href) = None →
   runListener OnAnchorClick link target w = (w, inr tt)) ∧
  (∀ element ne header nh b,
     plainFragment href = true →
     query w (hashSelector href) = Some element → heap w !! element = Some ne →
     query w (Class "main-header") = Some header → heap w !! header = Some nh →
     heap w !! body w = Some b →
     ∃ w' position,
       runListener OnAnchorClick link target w = (w', inr tt) ∧
       defaultPrevented w' = true ∧ menuOpen w' = false ∧
       scrollRequests w' = scrollRequests w ++ [position] ∧
       (position == pageTop ne - inject_Z (offsetHeight nh))%Q ∧
       w' = with_scrollRequests (scrollRequests w')
              (with_heap (<[body w := classList_remove "nav-open" b]> (heap w))
                 (with_defaultPrevented true w))).
Proof.
  intros Hl Hh. split; [|split].
  - intros Hskip. cbn [runListener]. unfold getAttribute.
    erewrite run_bind_read by done. rewrite Hh.
    case_bool_decide as Hlen; [lia|done].
  - intros _ Hq. cbn [runListener]. unfold getAttribute.
    erewrite run_bind_read by done. rewrite Hh.
    case_bool_decide as Hlen; [|done]. unfold querySelector.
    by rewrite run_bind_gets, Hq.
  - intros element ne header nh b Hlen%plainFragment_length Hq He Hhd Hnh Hb.
    set (b' := classList_remove "nav-open" b).
    set (W := with_heap (<[body w := b']> (heap w)) (with_defaultPrevented true w)).
    assert (query W (Class "main-header") = Some header) as HqW.
    { unfold query. subst W.
      change (queryAll (with_heap ?h (with_defaultPrevented true w)) ?s)
        with (queryAll (with_heap h w) s).
      rewrite (queryAll_insert_same _ _ _ b b'); [done..|].
      cbn [matches]. by apply has_class_remove_ne. }
    assert (∃ nh', heap W !! header = Some nh' ∧ offsetHeight nh' = offsetHeight nh)
      as (nh' & Hnh' & Hoff).
    { subst W. cbn. destruct (decide (header = body w)) as [->|Hne].
      - rewrite lookup_insert_eq. eexists. split; [done|].
        rewrite Hb in Hnh. by injection Hnh as <-.
      - rewrite lookup_insert_ne by done. eauto. }
    assert (∃ ne', heap W !! element = Some ne' ∧ pageTop ne' = pageTop ne)
      as (ne' & Hne' & Htop).
    { subst W. cbn. destruct (decide (element = body w)) as [->|Hne].
      - rewrite lookup_insert_eq. eexists. split; [done|].
        rewrite Hb in He. by injection He as <-.
      - rewrite lookup_insert_ne by done. eauto. }
    eexists _, _. split.
    { cbn [runListener]. unfold getAttribute.
      erewrite run_bind_read by done. rewrite Hh.
      rewrite bool_decide_eq_true_2 by done.
      unfold querySelector, preventDefault, closeMobileMenu.
      rewrite run_bind_gets, Hq, run_bind_update, run_bind_assoc, run_bind_gets.
      erewrite run_bind_write by (cbn; done).
      match goal with |- scrollToElement _ ?X = _ => change X with W end.
      unfold scrollToElement, querySelector.
      rewrite run_bind_gets, HqW. cbn [nonNull]. rewrite run_bind_ret.
      erewrite run_bind_read by done. erewrite run_bind_read by done.
      rewrite run_bind_gets. reflexivity. }
    cbn [defaultPrevented scrollRequests with_scrollRequests].
    split; [done|]. split.
    { unfold menuOpen. cbn. rewrite lookup_insert_eq. apply has_class_remove. }
    split; [reflexivity|]. split; [rewrite Htop, Hoff; cbn; ring|].
    reflexivity.
Qed.

Lemma anchor_click_scrolls_witness :
  ∃ w' position,
    runListener OnAnchorClick 5 5 menuPageOpen = (w', inr tt) ∧
    defaultPrevented w' = true ∧ menuOpen w' = false ∧
    scrollRequests w' = scrollRequests menuPageOpen ++ [position].
Proof.
  destruct (anchor_click_scrolls menuPageOpen 5%nat
              (markupNode "A" "" [("href", "#about")] "Top" 1 [])
              "#about" 5%nat ltac:(vm_compute; reflexivity)
              ltac:(vm_compute; reflexivity)) as (_ & _ & H).
  destruct (H 6%nat (markupNode "SECTION" "" [("id", "about")] "About us" 0 [])
              1%nat
              (markupNode "HEADER" "main-header" [] "" 0 [2%nat; 3%nat; 4%nat; 5%nat])
              (Node "BODY" "" ["nav-open"] ∅ ∅ "" None [1%nat; 6%nat] 0 0 0)
              ltac:(vm_compute; reflexivity) ltac:(vm_compute; reflexivity)
              ltac:(vm_compute; reflexivity) ltac:(vm_compute; reflexivity)
              ltac:(vm_compute; reflexivity) ltac:(vm_compute; reflexivity))
    as (w' & position & H1 & H2 & H3 & H4 & _).
  exists w', position. exact (conj H1 (conj H2 (conj H3 H4))).
Defined.

(** * Clicks a card ignores *)

(** X6 — the click listener of an employee card does nothing at all when
    the click lands on or inside a link or a button (wherever that link or
    button sits above the target, also above the card), and when the card
    holds no ".btn-view-profile": the page, its address included, stays as
    it was. *)
Theorem card_click_ignored w card target :
  pathListeners w target "click" = [(card, OnCardClick)] →
  (is_Some (closestTo w target (Tag "A")) →
   step w (Click target) = freshEvent w) ∧
  (is_Some (closestTo w target (Tag "BUTTON")) →
   step w (Click target) = freshEvent w) ∧
  (queryIn w card (Class "btn-view-profile") = None →
   step w (Click target) = freshEvent w).
Proof.
  intros Hpath.
  assert (is_Some (closestTo w target (Tag "A")) ∨
          is_Some (closestTo w target (Tag "BUTTON")) ∨
          queryIn w card (Class "btn-view-profile") = None →
          step w (Click target) = freshEvent w) as H.
  { intros Hcase. cbn [step].
    assert (runListener OnCardClick card target (freshEvent w) =
            (freshEvent w, inr tt)) as Hrun.
    { cbn [runListener]. unfold closest, elementQuerySelector.
      rewrite !run_bind_gets.
      change (closestTo (freshEvent w) target) with (closestTo w target).
      case_bool_decide as Hlb; [done|].
      rewrite run_bind_gets.
      change (queryIn (freshEvent w) card) with (queryIn w card).
      destruct Hcase as [?|[?| ->]]; [tauto|tauto|done]. }
    rewrite (dispatch_single w target "click" card OnCardClick Hpath);
      by rewrite (hostCall_ok _ _ _ Hrun). }
  repeat split; intros ?; apply H; tauto.
Qed.

Lemma card_click_ignored_witness :
  step gridPageReady (Click 4) = freshEvent gridPageReady.
Proof.
  destruct (card_click_ignored gridPageReady 2%nat 4%nat
              ltac:(vm_compute; reflexivity)) as (H & _).
  apply H. exists 4%nat. vm_compute. reflexivity.
Defined.

(** * Ratings that lack an element *)

Lemma renderRating_no_value parseFloat w ratingElement :
  queryIn w ratingElement (Class "rating-value") = None →
  renderRating parseFloat ratingElement w = (w, inl (TypeError "textContent")).
Proof.
  intros Hv. unfold renderRating, elementQuerySelector.
  by rewrite run_bind_gets, Hv.
Qed.

Lemma renderRating_no_stars parseFloat w ratingElement value :
  queryIn w ratingElement (Class "rating-value") = Some value →
  queryIn w ratingElement (Class "rating-stars") = None →
  renderRating parseFloat ratingElement w = (w, inr tt).
Proof.
  intros Hv Hs. destruct (queryIn_Some _ _ _ _ Hv) as (nv & Hnv & _).
  unfold renderRating, elementQuerySelector, getTextContent.
  rewrite run_bind_gets, Hv. cbn [nonNull]. rewrite run_bind_ret.
  rewrite run_bind_assoc. erewrite run_bind_read by done.
  rewrite run_bind_gets. by rewrite run_bind_gets, Hs.
Qed.

(** X7 — [initRatingStars] on a page whose first rating element is
    incomplete.  Without a ".rating-value" the read of its text throws, and
    the loop ends there: no rating of the page is rendered.  Without a
    ".rating-stars" container the element is skipped and the loop goes on
    with the next one. *)
Theorem rating_element_incomplete parseFloat w ratingElement rest :
  queryAll w (Class "employee-rating") = ratingElement :: rest →
  (queryIn w ratingElement (Class "rating-value") = None →
   initRatingStars parseFloat w = (w, inl (TypeError "textContent"))) ∧
  (∀ value,
     queryIn w ratingElement (Class "rating-value") = Some value →
     queryIn w ratingElement (Class "rating-stars") = None →
     initRatingStars parseFloat w = forEach rest (renderRating parseFloat) w).
Proof.
  intros Hq. split.
  - intros Hv. unfold initRatingStars, querySelectorAll.
    rewrite run_bind_gets, Hq. cbn [forEach]. unfold mbind, M_bind.
    by rewrite (renderRating_no_value _ _ _ Hv).
  - intros value Hv Hs. unfold initRatingStars, querySelectorAll.
    rewrite run_bind_gets, Hq. cbn [forEach]. unfold mbind, M_bind.
    by rewrite (renderRating_no_stars _ _ _ _ Hv Hs).
Qed.

Lemma rating_element_incomplete_witness :
  initRatingStars parseFloat brokenRatingPage =
    (brokenRatingPage, inl (TypeError "textContent")) ∧
  (childNodes <$> heap brokenRatingPage !! 5%nat) = Some [].
Proof.
  destruct (rating_element_incomplete parseFloat brokenRatingPage 1%nat [3%nat]
              ltac:(vm_compute; reflexivity)) as (H & _).
  split; [apply H|]; vm_compute; reflexivity.
Defined.

(** * More about the portfolio modal *)

(** The tree [openPortfolioModal] builds, node by node. *)
Lemma openPortfolioModal_tree w0 imageSrc title description :
  sound w0 →
  ∃ w1 nm,
    openPortfolioModal imageSrc title description w0 = (w1, inr tt) ∧
    heap w1 !! nextRef w0 = Some nm ∧
    tagName nm = "DIV" ∧ style nm !! "opacity" = Some "0" ∧
    heap w1 !! (1 + nextRef w0)%nat =
      Some (markupNode "DIV" "modal-content" [] "" (nextRef w0)
              [2 + nextRef w0; 5 + nextRef w0]%nat) ∧
    heap w1 !! (2 + nextRef w0)%nat =
      Some (markupNode "DIV" "modal-header" [] "" (1 + nextRef w0)
              [3 + nextRef w0; 4 + nextRef w0]%nat) ∧
    heap w1 !! (3 + nextRef w0)%nat =
      Some (markupNode "H3" "" [] title (2 + nextRef w0) []) ∧
    heap w1 !! (4 + nextRef w0)%nat =
      Some (markupNode "BUTTON" "modal-close" [] "×" (2 + nextRef w0) []) ∧
    heap w1 !! (5 + nextRef w0)%nat =
      Some (markupNode "DIV" "modal-body" [] "" (1 + nextRef w0)
              (if bool_decide (description = "") then [6 + nextRef w0]%nat
               else [6 + nextRef w0; 7 + nextRef w0]%nat)) ∧
    heap w1 !! (6 + nextRef w0)%nat =
      Some (markupNode "IMG" "" [("src", imageSrc); ("alt", title)] ""
              (5 + nextRef w0) []) ∧
    heap w1 !! (7 + nextRef w0)%nat =
      (if bool_decide (description = "") then None
       else Some (markupNode "P" "" [] description (5 + nextRef w0) [])) ∧
    nextRef w1 = (if bool_decide (description = "") then 7 + nextRef w0
                  else 8 + nextRef w0)%nat.
Proof.
  intros (Hfresh & Ho & (b & Hb & Hbp) & Hl & Ht).
  assert (body w0 < nextRef w0)%nat as Hblt.
  { destruct (decide (body w0 < nextRef w0)%nat); [done|].
    rewrite Hfresh in Hb by lia. done. }
  pose proof (Hfresh (nextRef w0) (le_n _)) as H0.
  pose proof (Hfresh (S (nextRef w0)) ltac:(lia)) as H1.
  pose proof (Hfresh (S (S (nextRef w0))) ltac:(lia)) as H2.
  pose proof (Hfresh (S (S (S (nextRef w0)))) ltac:(lia)) as H3.
  pose proof (Hfresh (S (S (S (S (nextRef w0))))) ltac:(lia)) as H4.
  pose proof (Hfresh (S (S (S (S (S (nextRef w0)))))) ltac:(lia)) as H5.
  pose proof (Hfresh (S (S (S (S (S (S (nextRef w0))))))) ltac:(lia)) as H6.
  pose proof (Hfresh (S (S (S (S (S (S (S (nextRef w0)))))))) ltac:(lia)) as H7.
  set (Q := λ r : world * (exn + unit),
         r.2 = inr tt ∧ ∃ nm,
    heap r.1 !! nextRef w0 = Some nm ∧
    tagName nm = "DIV" ∧ style nm !! "opacity" = Some "0" ∧
    heap r.1 !! (1 + nextRef w0)%nat =
      Some (markupNode "DIV" "modal-content" [] "" (nextRef w0)
              [2 + nextRef w0; 5 + nextRef w0]%nat) ∧
    heap r.1 !! (2 + nextRef w0)%nat =
      Some (markupNode "DIV" "modal-header" [] "" (1 + nextRef w0)
              [3 + nextRef w0; 4 + nextRef w0]%nat) ∧
    heap r.1 !! (3 + nextRef w0)%nat =
      Some (markupNode "H3" "" [] title (2 + nextRef w0) []) ∧
    heap r.1 !! (4 + nextRef w0)%nat =
      Some (markupNode "BUTTON" "modal-close" [] "×" (2 + nextRef w0) []) ∧
    heap r.1 !! (5 + nextRef w0)%nat =
      Some (markupNode "DIV" "modal-body" [] "" (1 + nextRef w0)
              (if bool_decide (description = "") then [6 + nextRef w0]%nat
               else [6 + nextRef w0; 7 + nextRef w0]%nat)) ∧
    heap r.1 !! (6 + nextRef w0)%nat =
      Some (markupNode "IMG" "" [("src", imageSrc); ("alt", title)] ""
              (5 + nextRef w0) []) ∧
    heap r.1 !! (7 + nextRef w0)%nat =
      (if bool_decide (description = "") then None
       else Some (markupNode "P" "" [] description (5 + nextRef w0) [])) ∧
    nextRef r.1 = (if bool_decide (description = "") then 7 + nextRef w0
                  else 8 + nextRef w0)%nat).
  enough (Q (openPortfolioModal imageSrc title description w0)) as HQ.
  { destruct (openPortfolioModal _ _ _ _) as [w1 [e|[]]];
      destruct HQ as [? [nm ?]]; [done|by exists w1, nm]. }
  unfold openPortfolioModal, createModal, setInnerHTML, elementQuerySelector.
  repeat mstep.
  destruct (bool_decide (description = "")); wsimpl; repeat mstep.
  all: erewrite queryIn_modal_close;
    [| hlookup | reflexivity | hlookup | reflexivity | hlookup | reflexivity
     | hlookup | reflexivity | hlookup | reflexivity | reflexivity
     | reflexivity | reflexivity | cbn; lia ].
  all: wsimpl; repeat mstep.
  all: unfold addEventListener, update; cbn beta; wsimpl.
  all: subst Q; cbn beta; split; [reflexivity|]; cbn [fst Nat.add].
  all: eexists; split; [hlookup|].
  all: cbn [tagName style].
  all: split; [reflexivity|]; split; [reflexivity|].
  all: repeat (split; [hlookup|]).
  all: reflexivity.
Qed.

(** X8 — what [openPortfolioModal] puts into the document, for an image
    address, a title and a description that hold no markup: the modal, a
    new node under [document.body], and under the modal a content box
    with a header (the title in an H3, then the close button) and a body
    holding the image, whose [src] is the address and whose [alt] is the
    title; the body holds a paragraph with the description exactly when the
    description is not empty.  The modal starts at opacity 0. *)
Theorem modal_contents w0 imageSrc title description :
  wellFormedb w0 = true →
  plainText imageSrc = true → plainText title = true →
  plainText description = true →
  ∃ w1 nm,
    openPortfolioModal imageSrc title description w0 = (w1, inr tt) ∧
    heap w0 !! nextRef w0 = None ∧
    heap w1 !! nextRef w0 = Some nm ∧
    tagName nm = "DIV" ∧ classList nm = ["portfolio-modal"] ∧
    style nm !! "opacity" = Some "0" ∧
    parentNode nm = Some (body w0) ∧ childNodes nm = [1 + nextRef w0]%nat ∧
    isConnected w1 (nextRef w0) = true ∧
    heap w1 !! (1 + nextRef w0)%nat =
      Some (markupNode "DIV" "modal-content" [] "" (nextRef w0)
              [2 + nextRef w0; 5 + nextRef w0]%nat) ∧
    heap w1 !! (2 + nextRef w0)%nat =
      Some (markupNode "DIV" "modal-header" [] "" (1 + nextRef w0)
              [3 + nextRef w0; 4 + nextRef w0]%nat) ∧
    heap w1 !! (3 + nextRef w0)%nat =
      Some (markupNode "H3" "" [] title (2 + nextRef w0) []) ∧
    heap w1 !! (4 + nextRef w0)%nat =
      Some (markupNode "BUTTON" "modal-close" [] "×" (2 + nextRef w0) []) ∧
    heap w1 !! (5 + nextRef w0)%nat =
      Some (markupNode "DIV" "modal-body" [] "" (1 + nextRef w0)
              (if bool_decide (description = "") then [6 + nextRef w0]%nat
               else [6 + nextRef w0; 7 + nextRef w0]%nat)) ∧
    heap w1 !! (6 + nextRef w0)%nat =
      Some (markupNode "IMG" "" [("src", imageSrc); ("alt", title)] ""
              (5 + nextRef w0) []) ∧
    heap w1 !! (7 + nextRef w0)%nat =
      (if bool_decide (description = "") then None
       else Some (markupNode "P" "" [] description (5 + nextRef w0) [])) ∧
    nextRef w1 = (if bool_decide (description = "") then 7 + nextRef w0
                  else 8 + nextRef w0)%nat.
Proof.
  intros Hw%wellFormedb_true%wf_sound _ _ _.
  destruct (openPortfolioModal_tree w0 imageSrc title description Hw)
    as (w1 & nm' & Hrun & Hm' & Htag & Hop & Hrest).
  destruct (openPortfolioModal_opened w0 imageSrc title description Hw)
    as (w1' & Hrun' & Hopened).
  rewrite Hrun in Hrun'. injection Hrun' as <-.
  opened_facts Hopened. rewrite Hm in Hm'. injection Hm' as <-.
  pose proof (body_old w0 Hw) as Hlt.
  exists w1, nm. split; [done|].
  split; [by apply Hw|]. split; [done|]. split; [done|]. split; [done|].
  split; [done|]. split; [done|]. split; [done|]. split; [|done].
  apply bool_decide_eq_true_2. rewrite Hbd. unfold inclusiveAncestors.
  destruct (nextRef w0) as [|k]; [lia|]. cbn [ancestorsWithin].
  rewrite Hm. cbn. rewrite Hmp. right. destruct k; cbn [ancestorsWithin]; by left.
Qed.

Lemma modal_contents_witness :
  ∃ w1,
    openPortfolioModal "/media/panel.jpg" "Panel" "A new distribution panel"
      portfolioPage = (w1, inr tt) ∧
    (textContent <$> heap w1 !! 12%nat) = Some "A new distribution panel" ∧
    nextRef w1 = 13%nat.
Proof.
  destruct (modal_contents portfolioPage "/media/panel.jpg" "Panel"
              "A new distribution panel" ltac:(vm_compute; reflexivity)
              ltac:(vm_compute; reflexivity) ltac:(vm_compute; reflexivity)
              ltac:(vm_compute; reflexivity))
    as (w1 & nm & Hrun & _ & _ & _ & _ & _ & _ & _ & _ & _ & _ & _ & _ & _
        & _ & Hp & Hn).
  exists w1. split; [exact Hrun|]. split.
  - etrans; [exact (f_equal (fmap textContent) Hp)|]. vm_compute. reflexivity.
  - etrans; [exact Hn|]. vm_compute. reflexivity.
Defined.

(** ** A session with the modal *)

Section session.
Variables (w0 w1 : world) (imageSrc title description : string).
Hypothesis Hs : sound w0.
Hypothesis Hrun : openPortfolioModal imageSrc title description w0 = (w1, inr tt).
Hypothesis Hquiet : listenersOn w0 (Element (body w0)) "click" = [].

Local Abbreviation m := (nextRef w0).
Local Abbreviation x := (S (S (S (S (nextRef w0))))).

Lemma session_opened : opened w0 w1.
Proof.
  destruct (openPortfolioModal_opened w0 imageSrc title description Hs)
    as (w1' & Hrun' & Hop).
  congruence.
Qed.

Ltac tree_facts :=
  let w1' := fresh in let Hrun' := fresh in
  destruct (openPortfolioModal_tree w0 imageSrc title description Hs)
    as (w1' & tm & Hrun' & Tm & _ & _ & T1 & T2 & T3 & T4 & T5 & T6 & T7 & Tn);
  assert (w1' = w1) as -> by congruence;
  cbn [Nat.add] in T1, T2, T3, T4, T5, T6, T7, Tn.

(** Walking up from a node inside the modal. *)
Lemma inner_cons closing w r n1 p :
  modalCore w1 m closing w → heap w1 !! r = Some n1 →
  parentNode n1 = Some p → (m < r)%nat →
  inclusiveAncestors (heap w) r = r :: inclusiveAncestors (heap w) p.
Proof.
  intros Hcore Hr Hp Hlt.
  destruct (core_lookup_inv _ _ _ _ Hcore _ _ Hr) as (n' & Hn' & _ & _ & Hpp & _).
  destruct Hpp as [Hpp|[_ ?]]; [|lia]. rewrite Hp in Hpp.
  eapply inclusiveAncestors_cons; [|done..].
  exact (core_ordered _ _ Hs session_opened _ _ Hcore).
Qed.

Lemma modal_path closing w :
  modalCore w1 m closing w →
  ∃ rest, inclusiveAncestors (heap w) m = m :: rest ∧
          (rest = [body w0] ∨ rest = []).
Proof.
  intros Hcore. pose proof session_opened as Hop.
  destruct (core_modal _ _ Hop _ _ Hcore) as (nm' & Hm' & _ & _ & [Hp|Hp]).
  - exists [body w0]. split; [|by left].
    erewrite inclusiveAncestors_cons;
      [|exact (core_ordered _ _ Hs Hop _ _ Hcore)|done|done].
    destruct (core_body _ _ Hs Hop _ _ Hcore) as (b & Hb & Hbp).
    assert (body w = body w0) as Hbw.
    { opened_facts Hop. destruct Hcore as (_ & Hbb & _). congruence. }
    rewrite Hbw in Hb. by erewrite inclusiveAncestors_root.
  - exists []. split; [|by right]. by erewrite inclusiveAncestors_root.
Qed.

Lemma inner_path closing w tgt :
  modalCore w1 m closing w → (m < tgt < nextRef w1)%nat → tgt ≠ x →
  ∃ below, inclusiveAncestors (heap w) tgt =
             below ++ inclusiveAncestors (heap w) m ∧
           Forall (λ a, (m < a)%nat ∧ a ≠ x) below.
Proof.
  intros Hcore Hlt Hx. tree_facts.
  assert (tgt = S m ∨ tgt = S (S m) ∨ tgt = S (S (S m)) ∨ tgt = S x ∨
          tgt = S (S x) ∨ (tgt = S (S (S x)) ∧ description ≠ "")) as Hcases.
  { destruct (decide (description = "")) as [Hd|Hd].
    - rewrite bool_decide_eq_true_2 in Tn by done. lia.
    - rewrite bool_decide_eq_false_2 in Tn by done.
      assert (tgt = S m ∨ tgt = S (S m) ∨ tgt = S (S (S m)) ∨ tgt = S x ∨
              tgt = S (S x) ∨ tgt = S (S (S x))) by lia.
      tauto. }
  destruct Hcases as [->|[->|[->|[->|[->|[-> Hd]]]]]].
  - exists [S m]. split; [|repeat constructor; lia].
    by erewrite (inner_cons _ _ (S m)) by (done || lia).
  - exists [S (S m); S m]. split; [|repeat constructor; lia].
    erewrite (inner_cons _ _ (S (S m))) by (done || lia).
    by erewrite (inner_cons _ _ (S m)) by (done || lia).
  - exists [S (S (S m)); S (S m); S m]. split; [|repeat constructor; lia].
    erewrite (inner_cons _ _ (S (S (S m)))) by (done || lia).
    erewrite (inner_cons _ _ (S (S m))) by (done || lia).
    by erewrite (inner_cons _ _ (S m)) by (done || lia).
  - exists [S x; S m]. split; [|repeat constructor; lia].
    erewrite (inner_cons _ _ (S x)) by (done || lia).
    by erewrite (inner_cons _ _ (S m)) by (done || lia).
  - exists [S (S x); S x; S m]. split; [|repeat constructor; lia].
    erewrite (inner_cons _ _ (S (S x))) by (done || lia).
    erewrite (inner_cons _ _ (S x)) by (done || lia).
    by erewrite (inner_cons _ _ (S m)) by (done || lia).
  - exists [S (S (S x)); S x; S m]. split; [|repeat constructor; lia].
    rewrite bool_decide_eq_false_2 in T7 by done.
    erewrite (inner_cons _ _ (S (S (S x)))) by (done || lia).
    erewrite (inner_cons _ _ (S x)) by (done || lia).
    by erewrite (inner_cons _ _ (S m)) by (done || lia).
Qed.

Lemma close_path closing w :
  modalCore w1 m closing w →
  inclusiveAncestors (heap w) x =
  x :: [S (S m); S m] ++ inclusiveAncestors (heap w) m.
Proof.
  intros Hcore. tree_facts.
  erewrite (inner_cons _ _ x) by (done || lia).
  erewrite (inner_cons _ _ (S (S m))) by (done || lia).
  by erewrite (inner_cons _ _ (S m)) by (done || lia).
Qed.

(** A click that comes up from inside the modal and was not aimed at the
    backdrop itself passes the modal and [document.body] without effect. *)
Lemma bubble_inner closing w below tgt rest :
  modalCore w1 m closing w → propagationStopped w = false →
  Forall (λ a, (m < a)%nat ∧ a ≠ x) below → tgt ≠ m →
  rest = [body w0] ∨ rest = [] →
  bubble "click" (below ++ m :: rest) tgt w = w.
Proof.
  intros Hcore Hgo Hbelow Htgt Hrest. pose proof session_opened as Hop.
  pose proof (body_old _ Hs) as Hblt.
  rewrite (bubble_first "click" tgt below m rest [OnModalBackdrop m]);
    [| |by rewrite (modal_listeners _ _ Hs Hop _ _ _ Hcore),
           decide_False, decide_True by (done || lia)|done].
  2:{ intros a Ha. rewrite Forall_forall in Hbelow.
      destruct (Hbelow a Ha) as [? ?].
      apply (quiet_after _ _ Hs Hop Hquiet _ _ _ Hcore); [done|lia|right; lia]. }
  cbn [callListeners runListener]. rewrite bool_decide_eq_false_2 by done.
  unfold hostCall at 1 2. cbn. rewrite Hgo.
  apply bubble_quiet. intros a Ha.
  destruct Hrest as [-> | ->]; [|by apply elem_of_nil in Ha].
  apply list_elem_of_singleton in Ha as ->.
  apply (quiet_after _ _ Hs Hop Hquiet _ _ _ Hcore); [lia|lia|by left].
Qed.

Lemma inner_click closing w tgt :
  modalCore w1 m closing w → (m < tgt < nextRef w1)%nat → tgt ≠ x →
  step w (Click tgt) = freshEvent w.
Proof.
  intros Hcore Hlt Hx. cbn [step]. unfold dispatch. fold (freshEvent w).
  destruct (inner_path _ _ _ Hcore Hlt Hx) as (below & -> & Hbelow).
  destruct (modal_path _ _ Hcore) as (rest & -> & Hrest).
  apply (bubble_inner closing); [exact Hcore|done|done|lia|done].
Qed.

(** [closeModal] whenever the modal exists, open or on its way out. *)
Lemma closeModal_core closing w :
  modalCore w1 m closing w →
  ∃ w', closeModal m w = (w', inr tt) ∧ modalCore w1 m true w' ∧
        pendingRemoval m w' = true ∧
        propagationStopped w' = propagationStopped w ∧
        uncaught w' = uncaught w.
Proof.
  intros Hcore. pose proof session_opened as Hop.
  destruct (core_modal _ _ Hop _ _ Hcore) as (nm' & Hm' & Hmc' & Hmk' & _).
  destruct (core_content _ _ Hop _ _ Hcore) as (nc' & Hc' & Hcc' & _).
  assert (0 < nextRef w)%nat as Hpos.
  { destruct Hcore as (Hn & _). opened_facts Hop. lia. }
  set (w2 := with_heap (<[m := with_style (<["opacity" := "0"]> (style nm')) nm']>
                          (heap w)) w).
  assert (modalCore w1 m closing w2) as Hcore2.
  { eapply core_insert; [exact Hcore|done|apply nodeRel_style]. }
  assert (heap w2 !! S m = Some nc') as Hc2.
  { subst w2. cbn. by rewrite lookup_insert_ne by lia. }
  set (w3 := with_heap (<[S m := with_style (<["transform" := "scale(0.9)"]>
                                              (style nc')) nc']> (heap w2)) w2).
  assert (modalCore w1 m closing w3) as Hcore3.
  { eapply core_insert; [exact Hcore2|exact Hc2|apply nodeRel_style]. }
  exists (with_timers (timers w3 ++ [(clock w3 + 300, RemoveModal m)]) w3).
  split.
  { unfold closeModal, elementQuerySelector.
    erewrite run_bind_setStyle by done. fold w2.
    rewrite run_bind_gets.
    erewrite (queryIn_first_child w2 m _ (S m) [] nc').
    - cbn [nonNull]. rewrite run_bind_ret.
      erewrite run_bind_setStyle by done. fold w3. done.
    - subst w2. cbn. by rewrite lookup_insert_eq.
    - done.
    - done.
    - cbn [matches]. unfold has_class. rewrite Hcc'.
      by apply bool_decide_eq_true_2, list_elem_of_singleton.
    - done. }
  split.
  - destruct (core_closing _ _ _ _ Hcore3) as (Hn & Hb & Hl & Hh & Ht).
    repeat split; try done. cbn. apply Forall_app. split; [done|].
    apply Forall_singleton. intros r Hr. right. done.
  - repeat split; try done.
    unfold pendingRemoval. cbn. rewrite existsb_app. cbn.
    rewrite bool_decide_eq_true_2 by done. by rewrite orb_true_r.
Qed.

(** A click on the backdrop or on the close button, in any phase. *)
Lemma close_click closing w tgt :
  modalCore w1 m closing w → tgt = m ∨ tgt = x →
  modalInv w1 m true (step w (Click tgt)) ∧
  uncaught (step w (Click tgt)) = uncaught w.
Proof.
  intros Hcore Htgt. pose proof session_opened as Hop.
  assert (modalCore w1 m closing (freshEvent w)) as Hcore' by exact Hcore.
  destruct (closeModal_core _ _ Hcore') as (w' & Hclose & Hcore2 & Hpend & Hstop & Hunc).
  assert (propagationStopped w' = false) as Hgo by (by rewrite Hstop).
  enough (step w (Click tgt) = w') as ->.
  { split; [split; [done|by left]|done]. }
  cbn [step]. unfold dispatch. fold (freshEvent w).
  destruct (modal_path _ _ Hcore) as (rest & Hpath & Hrest).
  assert (bubble "click" rest tgt w' = w') as Hup.
  { apply bubble_quiet. intros a Ha.
    destruct Hrest as [-> | ->]; [|by apply elem_of_nil in Ha].
    apply list_elem_of_singleton in Ha as ->. pose proof (body_old _ Hs).
    apply (quiet_after _ _ Hs Hop Hquiet _ _ _ Hcore2); [lia|lia|by left]. }
  destruct Htgt as [-> | ->].
  - rewrite Hpath.
    rewrite (bubble_first "click" m [] m rest [OnModalBackdrop m]);
      [|by intros a Ha%elem_of_nil
       |by rewrite (modal_listeners _ _ Hs Hop _ _ _ Hcore'),
           decide_False, decide_True by (done || lia)|done].
    cbn [callListeners runListener]. rewrite bool_decide_eq_true_2 by done.
    by rewrite (hostCall_ok _ _ _ Hclose), Hgo.
  - rewrite (close_path _ _ Hcore), Hpath.
    rewrite (bubble_first "click" x [] x ([S (S m); S m] ++ m :: rest)
               [OnModalClose m]);
      [|by intros a Ha%elem_of_nil
       |by rewrite (modal_listeners _ _ Hs Hop _ _ _ Hcore'),
           decide_True by done|done].
    cbn [callListeners runListener].
    rewrite (hostCall_ok _ _ _ Hclose), Hgo.
    apply (bubble_inner true); [done|done| |lia|done].
    repeat constructor; lia.
Qed.

Lemma closeTargets :
  closeTarget w1 m Backdrop = Some m ∧ closeTarget w1 m CloseButton = Some x.
Proof.
  pose proof session_opened as Hop. opened_facts Hop. by cbn [closeTarget].
Qed.

Lemma session_step closing w e :
  modalInv w1 m closing w → isModalEvent w1 m e = true →
  modalInv w1 m (closing || isCloseClick w1 m e) (step w e).
Proof.
  intros Hinv He. pose proof session_opened as Hop.
  destruct closeTargets as [Hcb Hcx].
  destruct e as [ms| |tgt|y]; [| | |done].
  - cbn [isCloseClick]. rewrite orb_false_r.
    by apply (modalInv_host _ _ Hs Hop).
  - cbn [isCloseClick]. rewrite orb_false_r.
    by apply (modalInv_host _ _ Hs Hop).
  - cbn [isModalEvent isCloseClick] in *. apply bool_decide_eq_true_1 in He.
    rewrite Hcb, Hcx. destruct Hinv as [Hcore Hphase].
    destruct (decide (tgt = m ∨ tgt = x)) as [Hc|Hc].
    + rewrite bool_decide_eq_true_2 by (destruct Hc; [left|right]; congruence).
      rewrite orb_true_r. by apply (close_click closing).
    + rewrite bool_decide_eq_false_2;
        [|intros [[= <-]|[= <-]]; apply Hc; [by left|by right]].
      rewrite orb_false_r.
      rewrite (inner_click closing); [by split|done| |tauto].
      destruct (decide (tgt = m)); [tauto|lia].
Qed.

Lemma session_run events : ∀ closing w,
  modalInv w1 m closing w → forallb (isModalEvent w1 m) events = true →
  modalInv w1 m (closing || existsb (isCloseClick w1 m) events) (run w events).
Proof.
  induction events as [|e events IH]; intros closing w Hinv He.
  - cbn. by rewrite orb_false_r.
  - cbn in He. apply andb_true_iff in He as [He Hes].
    change (run w (e :: events)) with (run (step w e) events).
    cbn [existsb]. rewrite orb_assoc. apply IH; [|done].
    by apply session_step.
Qed.

(** The reveal timer, whenever it fires. *)
Lemma reveal_run closing w :
  modalCore w1 m closing w →
  ∃ nm' nc',
    heap w !! m = Some nm' ∧ heap w !! S m = Some nc' ∧
    runCallback (RevealModal m) w =
      (with_heap
         (<[S m := with_style (<["transform" := "scale(1)"]> (style nc')) nc']>
            (<[m := with_style (<["opacity" := "1"]> (style nm')) nm']> (heap w)))
         w, inr tt).
Proof.
  intros Hcore. pose proof session_opened as Hop.
  destruct (core_modal _ _ Hop _ _ Hcore) as (nm' & Hm' & Hmc' & Hmk' & _).
  destruct (core_content _ _ Hop _ _ Hcore) as (nc' & Hc' & Hcc' & _).
  assert (0 < nextRef w)%nat as Hpos.
  { destruct Hcore as (Hn & _). opened_facts Hop. lia. }
  exists nm', nc'. split; [done|]. split; [done|].
  cbn [runCallback]. unfold elementQuerySelector.
  erewrite run_bind_setStyle by done.
  set (w2 := with_heap _ w).
  assert (heap w2 !! S m = Some nc') as Hc2.
  { subst w2. cbn. by rewrite lookup_insert_ne by lia. }
  rewrite run_bind_gets.
  erewrite (queryIn_first_child w2 m _ (S m) [] nc').
  - cbn [nonNull]. rewrite run_bind_ret.
    rewrite (run_bind_last (setStyle _ _ _)).
    erewrite run_bind_setStyle by done. done.
  - subst w2. cbn. by rewrite lookup_insert_eq.
  - done.
  - done.
  - cbn [matches]. unfold has_class. rewrite Hcc'.
    by apply bool_decide_eq_true_2, list_elem_of_singleton.
  - done.
Qed.
End session.

Lemma openModal_run w0 item :
  sound w0 →
  ∃ imageSrc title description,
    openPortfolioModal imageSrc title description w0 = (openModal w0 item, inr tt).
Proof.
  intros Hs. destruct item as [[imageSrc title] description].
  exists imageSrc, title, description. cbn [openModal].
  destruct (openPortfolioModal_opened w0 imageSrc title description Hs)
    as (w1 & Hrun & _).
  by rewrite (hostCall_ok _ _ _ Hrun).
Qed.

Lemma session_inv w0 item events :
  sound w0 → listenersOn w0 (Element (body w0)) "click" = [] →
  forallb (isModalEvent (openModal w0 item) (nextRef w0)) events = true →
  modalInv (openModal w0 item) (nextRef w0)
    (existsb (isCloseClick (openModal w0 item) (nextRef w0)) events)
    (run (openModal w0 item) events).
Proof.
  intros Hs Hquiet Hev.
  destruct (openModal_run w0 item Hs) as (imageSrc & title & description & Hrun).
  apply (session_run _ _ _ _ _ Hs Hrun Hquiet events false); [|done].
  apply (opened_inv _ _ Hs), (session_opened _ _ _ _ _ Hs Hrun).
Qed.

(** X9 — while a modal shown for an item whose strings hold no markup is
    up, a click on a node inside it other than the close button (the
    content box, the header, the title, the image, the description) does
    nothing: it neither closes the modal nor arms a
    timer, the page stays as it was.  This holds in every state the modal
    can be in: before and after it was closed, with any timers fired. *)
Theorem modal_inner_click w0 item events target :
  wellFormedb w0 = true →
  plainItem item = true →
  listenersOn w0 (Element (body w0)) "click" = [] →
  forallb (isModalEvent (openModal w0 item) (nextRef w0)) events = true →
  (nextRef w0 < target < nextRef (openModal w0 item))%nat →
  closeTarget (openModal w0 item) (nextRef w0) CloseButton ≠ Some target →
  step (run (openModal w0 item) events) (Click target) =
  freshEvent (run (openModal w0 item) events).
Proof.
  intros Hs%wellFormedb_true%wf_sound _ Hquiet Hev Hlt Hx.
  destruct (openModal_run w0 item Hs) as (imageSrc & title & description & Hrun).
  destruct (session_inv w0 item events Hs Hquiet Hev) as [Hcore _].
  destruct (closeTargets _ _ _ _ _ Hs Hrun) as [_ Hcx].
  eapply (inner_click _ _ _ _ _ Hs Hrun Hquiet); [exact Hcore|done|].
  intros ->. by apply Hx.
Qed.

Lemma modal_inner_click_witness :
  let w := run (openModal portfolioPage wiringItem) [Wait 10; Fire] in
  step w (Click 6) = freshEvent w ∧ step w (Click 11) = freshEvent w.
Proof.
  split.
  - apply (modal_inner_click portfolioPage wiringItem [Wait 10; Fire] 6%nat);
      [vm_compute; reflexivity..|vm_compute; lia|vm_compute; discriminate].
  - apply (modal_inner_click portfolioPage wiringItem [Wait 10; Fire] 11%nat);
      [vm_compute; reflexivity..|vm_compute; lia|vm_compute; discriminate].
Defined.

(** X10 — a whole session with one modal, shown for an item whose
    strings hold no markup, on a page that had none: the visitor clicks on the modal and on nodes inside it, in any order and any
    number of times, while time passes and timers fire.  At every moment
    at most the one node of this modal is a portfolio modal in the
    document; it is there as long as neither the backdrop nor the close
    button was clicked; and once one of them was clicked, however often,
    and no removal is pending any more, the document holds no modal. *)
Theorem modal_session w0 item events :
  wellFormedb w0 = true →
  plainItem item = true →
  modalNodes w0 = [] →
  listenersOn w0 (Element (body w0)) "click" = [] →
  forallb (isModalEvent (openModal w0 item) (nextRef w0)) events = true →
  let final := run (openModal w0 item) events in
  atMostModal (nextRef w0) final ∧
  (existsb (isCloseClick (openModal w0 item) (nextRef w0)) events = false →
   modalNodes final = [nextRef w0]) ∧
  (existsb (isCloseClick (openModal w0 item) (nextRef w0)) events = true →
   pendingRemoval (nextRef w0) final = false → modalNodes final = []).
Proof.
  intros Hs%wellFormedb_true%wf_sound _ Hnone Hquiet Hev final.
  pose proof (openModal_opened w0 item Hs) as Hop.
  pose proof (session_inv w0 item events Hs Hquiet Hev) as Hinv.
  fold final in Hinv.
  destruct (existsb _ events).
  - split; [by apply (modalNodes_closing _ _ Hs Hop Hnone)|].
    split; [done|]. intros _. by apply (modalNodes_closed _ _ Hs Hop Hnone).
  - split; [left; by apply (modalNodes_open _ _ Hs Hop Hnone)|].
    split; [|done]. intros _. by apply (modalNodes_open _ _ Hs Hop Hnone).
Qed.

Lemma modal_session_witness :
  let final :=
    run (openModal portfolioPage wiringItem)
        [Wait 10; Fire; Click 6; Click 9; Wait 100; Click 5; Click 7;
         Wait 300; Fire; Fire] in
  atMostModal 5 final ∧ pendingRemoval 5 final = false ∧ modalNodes final = [].
Proof.
  assert (pendingRemoval 5
            (run (openModal portfolioPage wiringItem)
               [Wait 10; Fire; Click 6; Click 9; Wait 100; Click 5; Click 7;
                Wait 300; Fire; Fire]) = false) as Hp
    by (vm_compute; reflexivity).
  destruct (modal_session portfolioPage wiringItem
              [Wait 10; Fire; Click 6; Click 9; Wait 100; Click 5; Click 7;
               Wait 300; Fire; Fire]
              ltac:(vm_compute; reflexivity) ltac:(vm_compute; reflexivity)
              ltac:(vm_compute; reflexivity)
              ltac:(vm_compute; reflexivity) ltac:(vm_compute; reflexivity))
    as (H1 & _ & H3).
  split; [exact H1|]. split; [exact Hp|].
  apply H3; [vm_compute; reflexivity|exact Hp].
Defined.

(** X11 — the two closures that reach into the modal, the reveal timer
    and [closeModal], never throw in any state of a session with a modal
    shown for an item whose strings hold no markup: the modal
    keeps its content box, also once it has left the document.  Whenever
    the reveal timer fires it sets the modal's opacity to 1 and the
    content box to scale(1), also when the modal was closed before. *)
Theorem modal_closures_never_throw w0 item events :
  wellFormedb w0 = true →
  plainItem item = true →
  listenersOn w0 (Element (body w0)) "click" = [] →
  forallb (isModalEvent (openModal w0 item) (nextRef w0)) events = true →
  let w := run (openModal w0 item) events in
  (∃ w' nm nc,
     runCallback (RevealModal (nextRef w0)) w = (w', inr tt) ∧
     heap w' !! nextRef w0 = Some nm ∧ style nm !! "opacity" = Some "1" ∧
     heap w' !! S (nextRef w0) = Some nc ∧
     style nc !! "transform" = Some "scale(1)") ∧
  (∃ w', closeModal (nextRef w0) w = (w', inr tt) ∧
         pendingRemoval (nextRef w0) w' = true).
Proof.
  intros Hs%wellFormedb_true%wf_sound _ Hquiet Hev w.
  destruct (openModal_run w0 item Hs) as (imageSrc & title & description & Hrun).
  destruct (session_inv w0 item events Hs Hquiet Hev) as [Hcore _].
  fold w in Hcore. split.
  - destruct (reveal_run _ _ _ _ _ Hs Hrun _ _ Hcore) as (nm & nc & Hm & Hc & Hr).
    eexists _, _, _. split; [exact Hr|]. cbn.
    rewrite lookup_insert_ne by lia. rewrite !lookup_insert_eq.
    repeat split; cbn; by rewrite lookup_insert_eq.
  - destruct (closeModal_core _ _ _ _ _ Hs Hrun _ _ Hcore)
      as (w' & Hclose & _ & Hpend & _).
    by exists w'.
Qed.

Lemma modal_closures_never_throw_witness :
  let w := run (openModal portfolioPage wiringItem) [Click 9; Wait 10] in
  ∃ w' nm,
    runCallback (RevealModal 5) w = (w', inr tt) ∧
    heap w' !! 5%nat = Some nm ∧ style nm !! "opacity" = Some "1".
Proof.
  destruct (modal_closures_never_throw portfolioPage wiringItem [Click 9; Wait 10]
              ltac:(vm_compute; reflexivity) ltac:(vm_compute; reflexivity)
              ltac:(vm_compute; reflexivity) ltac:(vm_compute; reflexivity))
    as [(w' & nm & nc & H1 & H2 & H3 & _) _].
  exists w', nm. exact (conj H1 (conj H2 H3)).
Defined.
